(** * SR-Rcon: the RCON client of squad-bot

    A shallow embedding of the [Rcon] class (sr-rcon.js): the packet codec
    ([_encodePacket], [_decodePacket]), the frame reassembler ([_decodeData]),
    the response dispatcher ([_socketOnData]), the writer ([_write]) and the
    connection life cycle ([connect], [_socketOnClose]), followed by the
    properties of the specification that concern them.  Of the two versions
    of the class in the repository this is the one with the [_]-prefixed
    fields, which the bot configures with [maximumPacketSize: 4096] and
    [encoding: 'utf8'].

    Conventions of the embedding:
    - a [Buffer] is the list of its bytes; JavaScript numbers that the code
      uses as integers are in [Z];
    - a JavaScript string is the list of its UTF-16 code units;
    - [this] is an explicit record [Rcon], threaded through a state monad
      in which an exception keeps the mutations made before it;
    - [this.emit] appends to a trace of events; what the listeners of the
      caller do with them is outside the class (the bot listens to every
      event, ['error'] included, so [emit] itself does not throw);
    - of the socket, the class sees [writable], what it passed to [write],
      and the listeners it added with [once]; the log lines are left out
      but for the one call in them that can throw. *)

From Stdlib Require Import String Ascii ZArith NArith List Bool Lia.
From Stdlib.Strings Require Import Byte.
Import ListNotations.
Local Open Scope Z_scope.

(* ================================================================= *)
(** * JavaScript values used by the class *)

(** The exceptions the code can raise. *)
Inductive exn : Type :=
| RangeError   (* ERR_OUT_OF_RANGE of the Buffer accessors *)
| TypeError.   (* calling or reading a property of undefined / null *)

(** Result of a pure computation that may throw. *)
Inductive result (A : Type) : Type :=
| Ret (a : A)
| Throw (e : exn).
Arguments Ret {A} a.
Arguments Throw {A} e.

Definition rbind {A B} (r : result A) (f : A -> result B) : result B :=
  match r with
  | Ret a => f a
  | Throw e => Throw e
  end.

Declare Scope result_scope.
Delimit Scope result_scope with result.
Notation "x <-? r ; k" := (rbind r (fun x => k))
  (at level 61, r at next level, right associativity) : result_scope.

(** A string is its sequence of UTF-16 code units. *)
Definition jsstring := list Z.

(** An ASCII literal as a string, for readable examples. *)
Definition js (s : string) : jsstring :=
  map (fun a => Z.of_N (N_of_ascii a)) (list_ascii_of_string s).

(** [a === b] on strings. *)
Fixpoint jsstring_eqb (a b : jsstring) : bool :=
  match a, b with
  | [], [] => true
  | x :: a', y :: b' => (x =? y) && jsstring_eqb a' b'
  | _, _ => false
  end.

(** [Array.prototype.join(sep)] on an array of strings. *)
Fixpoint join (sep : jsstring) (l : list jsstring) : jsstring :=
  match l with
  | [] => []
  | [s] => s
  | s :: t => s ++ sep ++ join sep t
  end.

(** [arr.join()]: with no argument the separator is a comma. *)
Definition join_default (l : list jsstring) : jsstring := join (js ",") l.

(* ================================================================= *)
(** * Buffers *)

Definition Buffer := list byte.

Definition u8 (b : byte) : Z := Z.of_N (Byte.to_N b).

(** Storing a number in one byte keeps its low eight bits. *)
Definition byte_of_Z (z : Z) : byte :=
  match Byte.of_N (Z.to_N (z mod 256)) with
  | Some b => b
  | None => x00
  end.

Definition byteLength (b : Buffer) : Z := Z.of_nat (length b).

(** [Buffer.alloc(size)]: zero filled. *)
Definition alloc (size : Z) : Buffer := repeat x00 (Z.to_nat size).

(** The index normalisation of [buf.slice]: a negative index counts from
    the end, and everything is clamped to the buffer. *)
Definition adjustOffset (offset len : Z) : Z :=
  if offset <? 0 then Z.max (offset + len) 0 else Z.min offset len.

(** [buf.slice(start, end)]. *)
Definition slice (b : Buffer) (start end_ : Z) : Buffer :=
  let s := adjustOffset start (byteLength b) in
  let e := adjustOffset end_ (byteLength b) in
  firstn (Z.to_nat (e - s)) (skipn (Z.to_nat s) b).

(** [buf.slice(start)]. *)
Definition slice_from (b : Buffer) (start : Z) : Buffer :=
  slice b start (byteLength b).

(** Overwrite the bytes of [b] from [offset] on with [bs] (which fits). *)
Definition blit (b : Buffer) (offset : nat) (bs : list byte) : Buffer :=
  firstn offset b ++ bs ++ skipn (offset + length bs) b.

Definition int32_min : Z := - 2 ^ 31.
Definition int32_max : Z := 2 ^ 31 - 1.

(** [buf.readInt32LE(offset)]: throws when four bytes are not there. *)
Definition readInt32LE (b : Buffer) (offset : nat) : result Z :=
  match skipn offset b with
  | b0 :: b1 :: b2 :: b3 :: _ =>
      let u := u8 b0 + u8 b1 * 2 ^ 8 + u8 b2 * 2 ^ 16 + u8 b3 * 2 ^ 24 in
      Ret (if u <? 2 ^ 31 then u else u - 2 ^ 32)
  | _ => Throw RangeError
  end.

(** The range test of the int32 writers. *)
Definition out_of_int32 (value : Z) : bool :=
  (value <? int32_min) || (int32_max <? value).

(** The four bytes of an int32, least significant first. *)
Definition int32LE (value : Z) : list byte :=
  [byte_of_Z value; byte_of_Z (Z.shiftr value 8);
   byte_of_Z (Z.shiftr value 16); byte_of_Z (Z.shiftr value 24)].

(** [buf.writeInt32LE(value, offset)]: throws when the value is not an
    int32 or when the four bytes are not inside the buffer. *)
Definition writeInt32LE (b : Buffer) (value : Z) (offset : nat)
  : result Buffer :=
  if out_of_int32 value then Throw RangeError
  else if (length b <? offset + 4)%nat then Throw RangeError
  else Ret (blit b offset (int32LE value)).

(** [buf.writeInt16LE(value, offset)]. *)
Definition writeInt16LE (b : Buffer) (value : Z) (offset : nat)
  : result Buffer :=
  if (value <? - 2 ^ 15) || (2 ^ 15 - 1 <? value) then Throw RangeError
  else if (length b <? offset + 2)%nat then Throw RangeError
  else Ret (blit b offset [byte_of_Z value; byte_of_Z (Z.shiftr value 8)]).

(* ================================================================= *)
(** * Text encodings of a Buffer *)

(** The [encoding] option of the class: ['ascii'] or ['utf8']. *)
Inductive Encoding : Type := enc_ascii | enc_utf8.

Definition is_high_surrogate (u : Z) : bool := (0xD800 <=? u) && (u <=? 0xDBFF).
Definition is_low_surrogate (u : Z) : bool := (0xDC00 <=? u) && (u <=? 0xDFFF).

(** The UTF-8 bytes of one code point. *)
Definition utf8_of_code_point (c : Z) : list byte :=
  if c <? 0x80 then [byte_of_Z c]
  else if c <? 0x800 then
    [byte_of_Z (0xC0 + c / 64); byte_of_Z (0x80 + c mod 64)]
  else if c <? 0x10000 then
    [byte_of_Z (0xE0 + c / 4096); byte_of_Z (0x80 + (c / 64) mod 64);
     byte_of_Z (0x80 + c mod 64)]
  else
    [byte_of_Z (0xF0 + c / 262144); byte_of_Z (0x80 + (c / 4096) mod 64);
     byte_of_Z (0x80 + (c / 64) mod 64); byte_of_Z (0x80 + c mod 64)].

(** The UTF-8 encoding of a string, one chunk per character: a surrogate
    pair is one code point, an unpaired surrogate is written as U+FFFD. *)
Fixpoint utf8_chunks (s : jsstring) : list (list byte) :=
  match s with
  | [] => []
  | u :: t =>
      if is_high_surrogate u then
        match t with
        | l :: t' =>
            if is_low_surrogate l then
              utf8_of_code_point (0x10000 + (u - 0xD800) * 0x400 + (l - 0xDC00))
                :: utf8_chunks t'
            else utf8_of_code_point 0xFFFD :: utf8_chunks t
        | [] => [utf8_of_code_point 0xFFFD]
        end
      else if is_low_surrogate u then utf8_of_code_point 0xFFFD :: utf8_chunks t
      else utf8_of_code_point u :: utf8_chunks t
  end.

(** [Buffer.byteLength(string)]: the encoding defaults to UTF-8. *)
Definition Buffer_byteLength (s : jsstring) : Z :=
  byteLength (concat (utf8_chunks s)).

(** The characters that fit whole in [room] bytes. *)
Fixpoint whole_chunks (room : nat) (cs : list (list byte)) : list byte :=
  match cs with
  | [] => []
  | c :: cs' =>
      if (length c <=? room)%nat then c ++ whole_chunks (room - length c) cs'
      else []
  end.

(** What writing [s] in at most [room] bytes stores: UTF-8 writes whole
    characters only; ['ascii'] stores the low byte of each code unit. *)
Definition encode_upto (enc : Encoding) (s : jsstring) (room : nat)
  : list byte :=
  match enc with
  | enc_utf8 => whole_chunks room (utf8_chunks s)
  | enc_ascii => firstn room (map byte_of_Z s)
  end.

(** [buf.write(string, offset, length, encoding)]. *)
Definition write (b : Buffer) (s : jsstring) (offset : nat) (len : Z)
    (enc : Encoding) : result Buffer :=
  if (length b <? offset)%nat then Throw RangeError
  else if (len <? 0) || (byteLength b <? len) then Throw RangeError
  else
    let remaining := (length b - offset)%nat in
    let n := Nat.min (Z.to_nat len) remaining in
    Ret (blit b offset (encode_upto enc s n)).

(** The UTF-8 decoder: state between two bytes. *)
Inductive utf8_state : Type :=
| Start
| Cont (needed : nat) (cp lower upper : Z).

Definition utf16_of_code_point (c : Z) : jsstring :=
  if c <? 0x10000 then [c]
  else [0xD800 + (c - 0x10000) / 0x400; 0xDC00 + (c - 0x10000) mod 0x400].

(** A byte read in the [Start] state. *)
Definition utf8_lead (b : Z) : jsstring * utf8_state :=
  if b <? 0x80 then ([b], Start)
  else if (0xC2 <=? b) && (b <=? 0xDF) then ([], Cont 1 (b mod 32) 0x80 0xBF)
  else if (0xE0 <=? b) && (b <=? 0xEF) then
    ([], Cont 2 (b mod 16) (if b =? 0xE0 then 0xA0 else 0x80)
                           (if b =? 0xED then 0x9F else 0xBF))
  else if (0xF0 <=? b) && (b <=? 0xF4) then
    ([], Cont 3 (b mod 8) (if b =? 0xF0 then 0x90 else 0x80)
                          (if b =? 0xF4 then 0x8F else 0xBF))
  else ([0xFFFD], Start).

(** Decoding replaces each ill-formed sequence by U+FFFD and resumes at
    the byte that broke it. *)
Fixpoint utf8_decode (st : utf8_state) (bs : list byte) : jsstring :=
  match bs with
  | [] => match st with Start => [] | Cont _ _ _ _ => [0xFFFD] end
  | b :: t =>
      match st with
      | Start => let '(out, st') := utf8_lead (u8 b) in out ++ utf8_decode st' t
      | Cont n cp lo hi =>
          if (lo <=? u8 b) && (u8 b <=? hi) then
            let cp' := cp * 64 + u8 b mod 64 in
            match n with
            | S (S n') => utf8_decode (Cont (S n') cp' 0x80 0xBF) t
            | _ => utf16_of_code_point cp' ++ utf8_decode Start t
            end
          else
            0xFFFD :: (let '(out, st') := utf8_lead (u8 b) in
                       out ++ utf8_decode st' t)
      end
  end.

(** Decoding bytes to a string: ['ascii'] clears the high bit of each
    byte. *)
Definition decode_bytes (enc : Encoding) (bs : list byte) : jsstring :=
  match enc with
  | enc_utf8 => utf8_decode Start bs
  | enc_ascii => map (fun b => u8 b mod 128) bs
  end.

(** [buf.toString(encoding, start, end)]. *)
Definition toString (b : Buffer) (enc : Encoding) (start end_ : Z)
  : jsstring :=
  let len := byteLength b in
  if (0 <? start) && (len <=? start) then []
  else
    let s := Z.max start 0 in
    let e := if len <? end_ then len else end_ in
    if e <=? s then []
    else decode_bytes enc (firstn (Z.to_nat (e - s)) (skipn (Z.to_nat s) b)).

(* ================================================================= *)
(** * The packet codec *)

(** [PacketType], [PacketResponseType] and [PacketId]. *)
Module PacketType.
Definition COMMAND : Z := 0x02.
Definition AUTH : Z := 0x03.
End PacketType.

Module PacketResponseType.
Definition RESPONSE_VALUE : Z := 0x00.
Definition CHAT_VALUE : Z := 0x01.
Definition RESPONSE_AUTH : Z := 0x02.
End PacketResponseType.

Module PacketId.
Definition MID : Z := 0x01.
Definition END : Z := 0x02.
End PacketId.

Record DecodedRconPacket : Type := {
  size : Z;
  id : Z;
  type : Z;
  body : jsstring
}.

(** [_encodePacket(type, id, body)] under the encoding of the instance. *)
Definition _encodePacket (enc : Encoding) (type id : Z) (body : jsstring)
  : result Buffer :=
  (let size := Buffer_byteLength body + 14 in
   let buf := alloc size in
   buf <-? writeInt32LE buf (size - 4) 0;
   buf <-? writeInt32LE buf id 4;
   buf <-? writeInt32LE buf type 8;
   buf <-? write buf body 12 (size - 2) enc;
   buf <-? writeInt16LE buf 0 (Z.to_nat (size - 2));
   Ret buf)%result.

(** [_decodePacket(packet)]. *)
Definition _decodePacket (enc : Encoding) (packet : Buffer)
  : result DecodedRconPacket :=
  (size <-? readInt32LE packet 0;
   id <-? readInt32LE packet 4;
   type <-? readInt32LE packet 8;
   Ret {| size := size; id := id; type := type;
          body := toString packet enc 12 (byteLength packet - 2) |})%result.

(** [_bufToHexString(buf)], used for logging: [toString('hex')] of an
    empty buffer is [''], on which [match(/../g)] is [null], and
    [null.join] throws.  Only this is kept of the log lines. *)
Definition _bufToHexString (buf : Buffer) : result unit :=
  match buf with
  | [] => Throw TypeError
  | _ :: _ => Ret tt
  end.

(* ================================================================= *)
(** * The frame reassembler *)

(** How a computation that may loop ends. *)
Inductive outcome (A : Type) : Type :=
| Normal (a : A)
| Thrown (e : exn)
| Diverges.
Arguments Normal {A} a.
Arguments Thrown {A} e.
Arguments Diverges {A}.

Definition probeSize : Z := 17.
Definition probePacketSize : Z := 21.

(** The body of the broken packet. *)
Definition broken_body : jsstring := [0; 0; 0; 1; 0; 0; 0].

(** One turn of the [while] loop of [_decodeData]. *)
Inductive turn : Type :=
| Break                                    (* leave the loop *)
| Skip (incomingData : Buffer)             (* [continue]: 21 bytes dropped *)
| Push (packet incomingData : Buffer).     (* one packet pushed *)

Definition decode_turn (enc : Encoding) (incomingData : Buffer)
  : result turn :=
  (if 4 <=? byteLength incomingData then
     size <-? readInt32LE incomingData 0;
     let packetSize := size + 4 in
     broken <-?
       (if (size =? 10) && (probeSize <=? byteLength incomingData) then
          let probeBuf := slice incomingData 0 probePacketSize in
          decodedProbePacket <-? _decodePacket enc probeBuf;
          if jsstring_eqb (body decodedProbePacket) broken_body then
            _ <-? _bufToHexString probeBuf; Ret true
          else Ret false
        else Ret false);
     if broken : bool then Ret (Skip (slice_from incomingData probePacketSize))
     else if byteLength incomingData <? packetSize then Ret Break
     else Ret (Push (slice incomingData 0 packetSize)
                    (slice_from incomingData packetSize))
   else Ret Break)%result.

(** The loop, run for at most [fuel] turns, from the buffer
    [incomingData] and the packets found so far; it returns the packets
    and what is left in the buffer. *)
Fixpoint decode_loop (enc : Encoding) (fuel : nat) (incomingData : Buffer)
    (packets : list Buffer) : outcome (list Buffer) * Buffer :=
  match fuel with
  | O => (Diverges, incomingData)
  | S fuel' =>
      match decode_turn enc incomingData with
      | Throw e => (Thrown e, incomingData)
      | Ret Break => (Normal packets, incomingData)
      | Ret (Skip rest) => decode_loop enc fuel' rest packets
      | Ret (Push packet rest) =>
          decode_loop enc fuel' rest (packets ++ [packet])
      end
  end.

(** [_decodeData(data)] as a function of the buffer: a turn that does not
    stop either shortens the buffer or leaves it as it is, and then the
    loop never ends; so one turn per byte and one more are all the turns
    of a loop that ends (see [decode_loop_fuel]). *)
Definition feed (enc : Encoding) (incomingData data : Buffer)
  : outcome (list Buffer) * Buffer :=
  let buf := incomingData ++ data in
  decode_loop enc (S (length buf)) buf [].

(* ================================================================= *)
(** * The state of an instance *)

(** Errors passed to [emit('error', _)]. *)
Inductive Error : Type :=
| Not_connected              (* new Error('Not connected.') *)
| Unable_to_write            (* new Error('Unable to write to socket.') *)
| Packet_too_long            (* new Error('Packet too long.') *)
| Authentication_failed      (* new Error('Authentication failed.') *)
| Socket_error (code : Z)    (* an error reported by the socket *)
| Caught (e : exn).          (* an exception caught by [onConnect] *)

(** The events of the class, as given to [this.emit]. *)
Inductive Event : Type :=
| ev_connect
| ev_authed
| ev_response (body : jsstring)
| ev_chat (body : jsstring)
| ev_error (err : Error).

(** The closures pushed on [_responseCallbackQueue] by [_write]; each
    holds the [onError] closure of the call that made it, named by a
    number. *)
Inductive Callback : Type :=
| cb_ignore                      (* () => {} *)
| cb_auth (onError : nat)        (* (decodedPacket) => { ... } *)
| cb_response (onError : nat).   (* (body) => { ... } *)

(** The listeners that [once('error', _)] puts on the socket. *)
Inductive ErrorListener : Type :=
| connect_onError (k : nat)      (* [onError] of [connect] *)
| write_onError (k : nat).       (* [onError] of [_write] *)

Definition ErrorListener_eqb (a b : ErrorListener) : bool :=
  match a, b with
  | connect_onError j, connect_onError k => Nat.eqb j k
  | write_onError j, write_onError k => Nat.eqb j k
  | _, _ => false
  end.

(** What the class sees and does of [this._client]. *)
Record Socket : Type := {
  writable : bool;
  written : list Buffer;               (* arguments of [write], in order *)
  once_connect : list nat;             (* [onConnect] closures waiting *)
  once_error : list ErrorListener;     (* in order of registration *)
  connect_calls : nat                  (* calls of [_client.connect] *)
}.

Record Rcon : Type := {
  _maximumPacketSize : Z;
  _encoding : Encoding;
  _password : jsstring;
  _incomingData : Buffer;
  _incomingResponse : list DecodedRconPacket;
  _responseCallbackQueue : list Callback;
  _connected : bool;
  _autoReconnect : bool;
  _autoReconnectDelay : Z;
  _client : Socket;
  emitted : list Event;                (* the calls of [this.emit], in order *)
  timeouts : list Z;                   (* [setTimeout(this.connect, delay)] pending *)
  closures : nat                       (* closures created so far *)
}.

(** [new Rcon(host, port, password, options)]; host and port only reach
    [_client.connect] and are left out.  [x || d] takes [d] for a missing
    option, for [0] and for ['']. *)
Definition new_Rcon (password : option jsstring)
    (maximumPacketSize : option Z) (encoding : option Encoding) : Rcon :=
  {| _maximumPacketSize :=
       match maximumPacketSize with
       | Some n => if n =? 0 then 4096 else n
       | None => 4096
       end;
     _encoding := match encoding with Some e => e | None => enc_utf8 end;
     _password := match password with Some p => p | None => [] end;
     _incomingData := [];
     _incomingResponse := [];
     _responseCallbackQueue := [];
     _connected := false;
     _autoReconnect := false;
     _autoReconnectDelay := 5000;
     _client := {| writable := false; written := []; once_connect := [];
                   once_error := []; connect_calls := 0 |};
     emitted := [];
     timeouts := [];
     closures := 0 |}.

Definition set_incomingData (v : Buffer) (r : Rcon) : Rcon :=
  {| _maximumPacketSize := _maximumPacketSize r; _encoding := _encoding r;
     _password := _password r; _incomingData := v;
     _incomingResponse := _incomingResponse r;
     _responseCallbackQueue := _responseCallbackQueue r;
     _connected := _connected r; _autoReconnect := _autoReconnect r;
     _autoReconnectDelay := _autoReconnectDelay r; _client := _client r;
     emitted := emitted r; timeouts := timeouts r; closures := closures r |}.

Definition set_incomingResponse (v : list DecodedRconPacket) (r : Rcon)
  : Rcon :=
  {| _maximumPacketSize := _maximumPacketSize r; _encoding := _encoding r;
     _password := _password r; _incomingData := _incomingData r;
     _incomingResponse := v;
     _responseCallbackQueue := _responseCallbackQueue r;
     _connected := _connected r; _autoReconnect := _autoReconnect r;
     _autoReconnectDelay := _autoReconnectDelay r; _client := _client r;
     emitted := emitted r; timeouts := timeouts r; closures := closures r |}.

Definition set_responseCallbackQueue (v : list Callback) (r : Rcon) : Rcon :=
  {| _maximumPacketSize := _maximumPacketSize r; _encoding := _encoding r;
     _password := _password r; _incomingData := _incomingData r;
     _incomingResponse := _incomingResponse r;
     _responseCallbackQueue := v;
     _connected := _connected r; _autoReconnect := _autoReconnect r;
     _autoReconnectDelay := _autoReconnectDelay r; _client := _client r;
     emitted := emitted r; timeouts := timeouts r; closures := closures r |}.

Definition set_connected (v : bool) (r : Rcon) : Rcon :=
  {| _maximumPacketSize := _maximumPacketSize r; _encoding := _encoding r;
     _password := _password r; _incomingData := _incomingData r;
     _incomingResponse := _incomingResponse r;
     _responseCallbackQueue := _responseCallbackQueue r;
     _connected := v; _autoReconnect := _autoReconnect r;
     _autoReconnectDelay := _autoReconnectDelay r; _client := _client r;
     emitted := emitted r; timeouts := timeouts r; closures := closures r |}.

Definition set_autoReconnect (v : bool) (r : Rcon) : Rcon :=
  {| _maximumPacketSize := _maximumPacketSize r; _encoding := _encoding r;
     _password := _password r; _incomingData := _incomingData r;
     _incomingResponse := _incomingResponse r;
     _responseCallbackQueue := _responseCallbackQueue r;
     _connected := _connected r; _autoReconnect := v;
     _autoReconnectDelay := _autoReconnectDelay r; _client := _client r;
     emitted := emitted r; timeouts := timeouts r; closures := closures r |}.

Definition set_client (v : Socket) (r : Rcon) : Rcon :=
  {| _maximumPacketSize := _maximumPacketSize r; _encoding := _encoding r;
     _password := _password r; _incomingData := _incomingData r;
     _incomingResponse := _incomingResponse r;
     _responseCallbackQueue := _responseCallbackQueue r;
     _connected := _connected r; _autoReconnect := _autoReconnect r;
     _autoReconnectDelay := _autoReconnectDelay r; _client := v;
     emitted := emitted r; timeouts := timeouts r; closures := closures r |}.

Definition set_emitted (v : list Event) (r : Rcon) : Rcon :=
  {| _maximumPacketSize := _maximumPacketSize r; _encoding := _encoding r;
     _password := _password r; _incomingData := _incomingData r;
     _incomingResponse := _incomingResponse r;
     _responseCallbackQueue := _responseCallbackQueue r;
     _connected := _connected r; _autoReconnect := _autoReconnect r;
     _autoReconnectDelay := _autoReconnectDelay r; _client := _client r;
     emitted := v; timeouts := timeouts r; closures := closures r |}.

Definition set_timeouts (v : list Z) (r : Rcon) : Rcon :=
  {| _maximumPacketSize := _maximumPacketSize r; _encoding := _encoding r;
     _password := _password r; _incomingData := _incomingData r;
     _incomingResponse := _incomingResponse r;
     _responseCallbackQueue := _responseCallbackQueue r;
     _connected := _connected r; _autoReconnect := _autoReconnect r;
     _autoReconnectDelay := _autoReconnectDelay r; _client := _client r;
     emitted := emitted r; timeouts := v; closures := closures r |}.

Definition set_closures (v : nat) (r : Rcon) : Rcon :=
  {| _maximumPacketSize := _maximumPacketSize r; _encoding := _encoding r;
     _password := _password r; _incomingData := _incomingData r;
     _incomingResponse := _incomingResponse r;
     _responseCallbackQueue := _responseCallbackQueue r;
     _connected := _connected r; _autoReconnect := _autoReconnect r;
     _autoReconnectDelay := _autoReconnectDelay r; _client := _client r;
     emitted := emitted r; timeouts := timeouts r; closures := v |}.

Definition set_written (v : list Buffer) (s : Socket) : Socket :=
  {| writable := writable s; written := v; once_connect := once_connect s;
     once_error := once_error s; connect_calls := connect_calls s |}.

Definition set_writable (v : bool) (s : Socket) : Socket :=
  {| writable := v; written := written s; once_connect := once_connect s;
     once_error := once_error s; connect_calls := connect_calls s |}.

Definition set_once_connect (v : list nat) (s : Socket) : Socket :=
  {| writable := writable s; written := written s; once_connect := v;
     once_error := once_error s; connect_calls := connect_calls s |}.

Definition set_once_error (v : list ErrorListener) (s : Socket) : Socket :=
  {| writable := writable s; written := written s;
     once_connect := once_connect s; once_error := v;
     connect_calls := connect_calls s |}.

Definition set_connect_calls (v : nat) (s : Socket) : Socket :=
  {| writable := writable s; written := written s;
     once_connect := once_connect s; once_error := once_error s;
     connect_calls := v |}.

(* ================================================================= *)
(** * Methods as state transformers *)

(** A method runs on [this] and returns how it ended with the state it
    left: an exception does not undo the assignments made before it. *)
Definition M (A : Type) : Type := Rcon -> outcome A * Rcon.

Definition ret {A} (a : A) : M A := fun this => (Normal a, this).

Definition bind {A B} (m : M A) (f : A -> M B) : M B :=
  fun this =>
    match m this with
    | (Normal a, this') => f a this'
    | (Thrown e, this') => (Thrown e, this')
    | (Diverges, this') => (Diverges, this')
    end.

Declare Scope method_scope.
Delimit Scope method_scope with method.
Notation "x <- m ;; k" := (bind m (fun x => k))
  (at level 61, m at next level, right associativity) : method_scope.
Notation "m ;; k" := (bind m (fun _ => k))
  (at level 61, right associativity) : method_scope.
Local Open Scope method_scope.

Definition get : M Rcon := fun this => (Normal this, this).
Definition modify (f : Rcon -> Rcon) : M unit :=
  fun this => (Normal tt, f this).

(** A pure call that may throw. *)
Definition lift {A} (r : result A) : M A :=
  fun this =>
    match r with
    | Ret a => (Normal a, this)
    | Throw e => (Thrown e, this)
    end.

(** [try { m } catch (err) { h(err) }]. *)
Definition try_catch (m : M unit) (h : exn -> M unit) : M unit :=
  fun this =>
    match m this with
    | (Thrown e, this') => h e this'
    | r => r
    end.

(** [for (const x of l) { f(x) }]. *)
Fixpoint for_of {A} (l : list A) (f : A -> M unit) : M unit :=
  match l with
  | [] => ret tt
  | x :: l' => f x ;; for_of l' f
  end.

(** [this.emit(event, ...)]: the call is recorded in the trace.  The
    listeners are the caller's and are not run here; Node throws the
    error of an ['error'] event that has no listener.  So what is proved
    of a method after it has emitted speaks of the state it leaves and of
    the events, not of its return. *)
Definition emit (ev : Event) : M unit :=
  modify (fun this => set_emitted (emitted this ++ [ev]) this).

(** A new closure, named by the next number. *)
Definition new_closure : M nat :=
  fun this => (Normal (closures this), set_closures (S (closures this)) this).

Definition modify_client (f : Socket -> Socket) : M unit :=
  modify (fun this => set_client (f (_client this)) this).

(** [emitter.removeListener(name, f)] removes the latest [f] added. *)
Fixpoint remove_last {A} (eqb : A -> A -> bool) (x : A) (l : list A)
  : list A :=
  match l with
  | [] => []
  | y :: l' =>
      if eqb y x && negb (existsb (eqb x) l') then l'
      else y :: remove_last eqb x l'
  end.

Definition client_once_error (l : ErrorListener) : M unit :=
  modify_client (fun s => set_once_error (once_error s ++ [l]) s).

Definition client_removeListener_error (l : ErrorListener) : M unit :=
  modify_client
    (fun s => set_once_error (remove_last ErrorListener_eqb l (once_error s)) s).

Definition client_once_connect (k : nat) : M unit :=
  modify_client (fun s => set_once_connect (once_connect s ++ [k]) s).

Definition client_removeListener_connect (k : nat) : M unit :=
  modify_client
    (fun s => set_once_connect (remove_last Nat.eqb k (once_connect s)) s).

(** [this._client.write(buf)]. *)
Definition client_write (buf : Buffer) : M unit :=
  modify_client (fun s => set_written (written s ++ [buf]) s).

(** [this._client.connect(port, host)]. *)
Definition client_connect : M unit :=
  modify_client (fun s => set_connect_calls (S (connect_calls s)) s).

(* ================================================================= *)
(** * The methods of the class *)

(** [_decodeData(data)]. *)
Definition _decodeData (data : Buffer) : M (list Buffer) :=
  fun this =>
    let '(r, rest) := feed (_encoding this) (_incomingData this) data in
    (r, set_incomingData rest this).

(** A value of JavaScript, as far as the callbacks look at one. *)
Inductive jsval : Type :=
| undefined
| number (n : Z).

(** [s.id] for a string [s]: strings have no such property. *)
Definition string_id (s : jsstring) : jsval := undefined.

(** [a === b]. *)
Definition strict_equal (a b : jsval) : bool :=
  match a, b with
  | undefined, undefined => true
  | number m, number n => m =? n
  | _, _ => false
  end.

(** Calling a callback of the queue; the dispatcher passes it one
    argument, a string. *)
Definition call (f : Callback) (arg : jsstring) : M unit :=
  match f with
  | cb_ignore => ret tt
  | cb_auth onError =>
      let decodedPacket := arg in
      client_removeListener_error (write_onError onError) ;;
      if strict_equal (string_id decodedPacket) (number (-1)) then
        emit (ev_error Authentication_failed)
      else
        modify (set_autoReconnect true) ;;
        emit ev_authed
  | cb_response onError =>
      client_removeListener_error (write_onError onError) ;;
      emit (ev_response arg)
  end.

(** [_write(type, body)]. *)
Definition _write (type : Z) (body : jsstring) : M unit :=
  this <- get ;;
  if negb (_connected this) then emit (ev_error Not_connected)
  else if negb (writable (_client this)) then emit (ev_error Unable_to_write)
  else
    encodedPacket <-
      lift (_encodePacket (_encoding this) type
              (if negb (type =? PacketType.AUTH) then PacketId.MID
               else PacketId.END) body) ;;
    lift (_bufToHexString encodedPacket) ;;
    encodedEmptyPacket <-
      lift (_encodePacket (_encoding this) type PacketId.END []) ;;
    lift (_bufToHexString encodedEmptyPacket) ;;
    if _maximumPacketSize this <? byteLength encodedPacket then
      emit (ev_error Packet_too_long)
    else
      onError <- new_closure ;;
      (if type =? PacketType.AUTH then
         modify (fun this => set_responseCallbackQueue
                   (_responseCallbackQueue this ++ [cb_ignore]) this) ;;
         modify (fun this => set_responseCallbackQueue
                   (_responseCallbackQueue this ++ [cb_auth onError]) this)
       else
         modify (fun this => set_responseCallbackQueue
                   (_responseCallbackQueue this ++ [cb_response onError]) this)) ;;
      client_once_error (write_onError onError) ;;
      lift (_bufToHexString encodedPacket) ;;
      client_write encodedPacket ;;
      if negb (type =? PacketType.AUTH) then client_write encodedEmptyPacket
      else ret tt.

(** [execute(command)]. *)
Definition execute (command : jsstring) : M unit :=
  _write PacketType.COMMAND command.

(** [disconnect()]: [this._connection] is never assigned, so the test
    fails and nothing is done. *)
Definition disconnect : M unit := ret tt.

(** The [switch] of [_socketOnData] on one decoded packet. *)
Definition dispatch (decodedPacket : DecodedRconPacket) : M unit :=
  if (type decodedPacket =? PacketResponseType.RESPONSE_VALUE)
     || (type decodedPacket =? PacketResponseType.RESPONSE_AUTH) then
    if id decodedPacket =? PacketId.MID then
      modify (fun this => set_incomingResponse
                (_incomingResponse this ++ [decodedPacket]) this)
    else if id decodedPacket =? PacketId.END then
      (* [queue.shift()] first, then the argument, then the call *)
      this <- get ;;
      let callee := hd_error (_responseCallbackQueue this) in
      modify (set_responseCallbackQueue (tl (_responseCallbackQueue this))) ;;
      this <- get ;;
      let arg := join_default (map body (_incomingResponse this)) in
      match callee with
      | Some f => call f arg
      | None => lift (Throw TypeError)        (* undefined is not a function *)
      end ;;
      modify (set_incomingResponse [])
    else ret tt
  else if type decodedPacket =? PacketResponseType.CHAT_VALUE then
    emit (ev_chat (body decodedPacket))
  else ret tt.

(** [_socketOnData(data)]. *)
Definition _socketOnData (data : Buffer) : M unit :=
  lift (_bufToHexString data) ;;
  packets <- _decodeData data ;;
  for_of packets (fun packet =>
    this <- get ;;
    decodedPacket <- lift (_decodePacket (_encoding this) packet) ;;
    dispatch decodedPacket).

(** [_socketOnError(err)]. *)
Definition _socketOnError (err : Z) : M unit :=
  emit (ev_error (Socket_error err)).

(** [_socketOnClose(hadError)]. *)
Definition _socketOnClose (hadError : bool) : M unit :=
  modify (set_connected false) ;;
  this <- get ;;
  if _autoReconnect this then
    modify (fun this =>
              set_timeouts (timeouts this ++ [_autoReconnectDelay this]) this)
  else ret tt.

(** [connect()]: the closures [onConnect] and [onError] of one call share
    the number [k]. *)
Definition connect : M unit :=
  k <- new_closure ;;
  client_once_connect k ;;
  client_once_error (connect_onError k) ;;
  client_connect.

(** [onConnect] of the call [k] of [connect]. *)
Definition onConnect (k : nat) : M unit :=
  emit ev_connect ;;
  client_removeListener_error (connect_onError k) ;;
  modify (set_connected true) ;;
  this <- get ;;
  try_catch (_write PacketType.AUTH (_password this))
            (fun err => emit (ev_error (Caught err))).

(** [onError] of the call [k] of [connect]. *)
Definition connect_onError_body (k : nat) (err : Z) : M unit :=
  client_removeListener_connect k ;;
  emit (ev_error (Socket_error err)).

(** [onError] of a call of [_write]. *)
Definition write_onError_body (err : Z) : M unit :=
  modify (set_responseCallbackQueue []) ;;
  emit (ev_error (Socket_error err)).

(** A listener added by [once('error', _)], called with the error. *)
Definition error_listener (err : Z) (l : ErrorListener) : M unit :=
  match l with
  | connect_onError k => connect_onError_body k err
  | write_onError _ => write_onError_body err
  end.

(** ** Events of the socket

    What the socket does to the instance: it calls the listeners of the
    event in the order they were registered, the ones added by [once]
    being removed before they run. *)

(** ['connect']: the socket is open and writable. *)
Definition socket_connect : M unit :=
  this <- get ;;
  modify_client (fun s => set_once_connect [] (set_writable true s)) ;;
  for_of (once_connect (_client this)) onConnect.

(** ['data']. *)
Definition socket_data (data : Buffer) : M unit := _socketOnData data.

(** ['error']: [_socketOnError] was registered by the constructor. *)
Definition socket_error (err : Z) : M unit :=
  this <- get ;;
  modify_client (set_once_error []) ;;
  _socketOnError err ;;
  for_of (once_error (_client this)) (error_listener err).

(** ['close']: the socket is no longer writable. *)
Definition socket_close (hadError : bool) : M unit :=
  modify_client (set_writable false) ;;
  _socketOnClose hadError.

(** A timer set by [_socketOnClose] fires. *)
Definition timeout_fires : M unit :=
  this <- get ;;
  match timeouts this with
  | [] => ret tt
  | _ :: rest => modify (set_timeouts rest) ;; connect
  end.

(* ================================================================= *)
(** * The second copy of the class

    The file holds a second copy of the class, with public fields
    ([connected], [encoding], ...).  Its constructor, [connect] as far as
    the registration of the listeners goes, [_socketOnError] and
    [_socketOnClose] read as above.  What differs on the way from
    [connect()] to the AUTH packet is given here, over the same state:
    packets are always encoded as ['utf8'], and [onConnect] itself turns
    auto-reconnect on.  (The callback of the AUTH packet, which is not
    called on that way, no longer does.) *)

Module Variant.

(** [_encodePacket(type, id, body, encoding = 'utf8')]: no caller passes
    an encoding. *)
Definition _encodePacket (type id : Z) (body : jsstring) : result Buffer :=
  _encodePacket enc_utf8 type id body.

(** [_write(type, body)]. *)
Definition _write (type : Z) (body : jsstring) : M unit :=
  this <- get ;;
  if negb (_connected this) then emit (ev_error Not_connected)
  else if negb (writable (_client this)) then emit (ev_error Unable_to_write)
  else
    encodedPacket <-
      lift (_encodePacket type
              (if negb (type =? PacketType.AUTH) then PacketId.MID
               else PacketId.END) body) ;;
    lift (_bufToHexString encodedPacket) ;;
    encodedEmptyPacket <- lift (_encodePacket type PacketId.END []) ;;
    lift (_bufToHexString encodedEmptyPacket) ;;
    if _maximumPacketSize this <? byteLength encodedPacket then
      emit (ev_error Packet_too_long)
    else
      onError <- new_closure ;;
      (if type =? PacketType.AUTH then
         modify (fun this => set_responseCallbackQueue
                   (_responseCallbackQueue this ++ [cb_ignore]) this) ;;
         modify (fun this => set_responseCallbackQueue
                   (_responseCallbackQueue this ++ [cb_auth onError]) this)
       else
         modify (fun this => set_responseCallbackQueue
                   (_responseCallbackQueue this ++ [cb_response onError]) this)) ;;
      client_once_error (write_onError onError) ;;
      lift (_bufToHexString encodedPacket) ;;
      client_write encodedPacket ;;
      if negb (type =? PacketType.AUTH) then client_write encodedEmptyPacket
      else ret tt.

(** [onConnect] of the call [k] of [connect]: auto-reconnect is turned on
    as soon as [_write] has returned. *)
Definition onConnect (k : nat) : M unit :=
  emit ev_connect ;;
  modify (set_connected true) ;;
  client_removeListener_error (connect_onError k) ;;
  modify (set_connected true) ;;
  this <- get ;;
  try_catch (_write PacketType.AUTH (_password this) ;;
             modify (set_autoReconnect true))
            (fun err => emit (ev_error (Caught err))).

(** ['connect'] of the socket. *)
Definition socket_connect : M unit :=
  this <- get ;;
  modify_client (fun s => set_once_connect [] (set_writable true s)) ;;
  for_of (once_connect (_client this)) onConnect.

End Variant.

(* ================================================================= *)
(** * The logger

    [LoggerClass] of [logger.js], as far as its threshold goes.  The time
    of a call ([new Date()]) is an argument of the model; the extras are
    given by their conversions to strings; what goes to [console.log] and
    to [fs.appendFile] is recorded in the order of the calls.  The
    rotation of the log file, registered by the constructor, is left
    out. *)

Module LogLevel.
Definition OFF : Z := 0.
Definition FATAL : Z := 1.
Definition ERROR : Z := 2.
Definition WARN : Z := 3.
Definition INFO : Z := 4.
Definition DEBUG : Z := 5.
End LogLevel.

Module Logger.

(** One call of [console.log]: the colour applied to the message, the
    message, the other arguments. *)
Record Printed : Type := {
  colour : string;
  text : string;
  others : list string
}.

Record LoggerClass : Type := {
  _logLevel : Z;
  printed : list Printed;              (* calls of [console.log] *)
  appended : list string               (* calls of [fs.appendFile] *)
}.

(** [new LoggerClass()]. *)
Definition new_LoggerClass : LoggerClass :=
  {| _logLevel := LogLevel.OFF; printed := []; appended := [] |}.

(** [_logLevelToText(level)]; no [case] for other values: [undefined]. *)
Definition _logLevelToText (level : Z) : option string :=
  if level =? LogLevel.OFF then Some "Off"%string
  else if level =? LogLevel.FATAL then Some "Fatal"%string
  else if level =? LogLevel.ERROR then Some "Error"%string
  else if level =? LogLevel.WARN then Some "Warn"%string
  else if level =? LogLevel.INFO then Some "Info"%string
  else if level =? LogLevel.DEBUG then Some "Debug"%string
  else None.

(** [_logLevelToColor(level)]. *)
Definition _logLevelToColor (level : Z) : string :=
  if level =? LogLevel.FATAL then "redBright"%string
  else if level =? LogLevel.ERROR then "redBright"%string
  else if level =? LogLevel.WARN then "yellowBright"%string
  else if level =? LogLevel.INFO then "blueBright"%string
  else if level =? LogLevel.DEBUG then "magentaBright"%string
  else "white"%string.

(** A value in a template literal. *)
Definition in_template (v : option string) : string :=
  match v with
  | Some s => s
  | None => "undefined"%string
  end.

Definition newline : string := String (ascii_of_nat 10) EmptyString.

(** The message of a call, before the colour. *)
Definition message_line (now module subModule : string) (level : Z)
    (message : string) : string :=
  (now ++ " [" ++ module ++ "][" ++ subModule ++ "] <"
       ++ in_template (_logLevelToText level) ++ "> " ++ message)%string.

(** What [_log] appends to the file: the message and the extras, one per
    line. *)
Definition file_message (msg : string) (extras : list string) : string :=
  fold_left (fun fileMsg item => (fileMsg ++ item ++ newline)%string) extras
    (msg ++ newline)%string.

(** [_log(module, subModule, level, message, ...extras)], called at the
    time [now].  Every colour of [_logLevelToColor] is a function of
    [chalk]. *)
Definition _log (now module subModule : string) (level : Z)
    (message : string) (extras : list string) (this : LoggerClass)
  : LoggerClass :=
  let colorFunc := _logLevelToColor level in
  if level <=? _logLevel this then
    let msg := message_line now module subModule level message in
    {| _logLevel := _logLevel this;
       printed := printed this
                    ++ [{| colour := colorFunc; text := msg; others := extras |}];
       appended := appended this ++ [file_message msg extras] |}
  else this.

Definition fatal (now module subModule message : string)
    (extras : list string) : LoggerClass -> LoggerClass :=
  _log now module subModule LogLevel.FATAL message extras.

Definition error (now module subModule message : string)
    (extras : list string) : LoggerClass -> LoggerClass :=
  _log now module subModule LogLevel.ERROR message extras.

Definition warn (now module subModule message : string)
    (extras : list string) : LoggerClass -> LoggerClass :=
  _log now module subModule LogLevel.WARN message extras.

Definition info (now module subModule message : string)
    (extras : list string) : LoggerClass -> LoggerClass :=
  _log now module subModule LogLevel.INFO message extras.

Definition debug (now module subModule message : string)
    (extras : list string) : LoggerClass -> LoggerClass :=
  _log now module subModule LogLevel.DEBUG message extras.

(** [setLogLevel(level)]. *)
Definition setLogLevel (level : Z) (this : LoggerClass) : LoggerClass :=
  {| _logLevel := level; printed := printed this; appended := appended this |}.

(** The public methods that log. *)
Inductive Method : Type := m_fatal | m_error | m_warn | m_info | m_debug.

Definition level_of (m : Method) : Z :=
  match m with
  | m_fatal => LogLevel.FATAL
  | m_error => LogLevel.ERROR
  | m_warn => LogLevel.WARN
  | m_info => LogLevel.INFO
  | m_debug => LogLevel.DEBUG
  end.

(** A call of one of them, or of [setLogLevel]. *)
Inductive Call : Type :=
| log_call (m : Method) (now module subModule message : string)
    (extras : list string)
| threshold_call (level : Z).

Definition invoke (c : Call) : LoggerClass -> LoggerClass :=
  match c with
  | log_call m_fatal now module subModule message extras =>
      fatal now module subModule message extras
  | log_call m_error now module subModule message extras =>
      error now module subModule message extras
  | log_call m_warn now module subModule message extras =>
      warn now module subModule message extras
  | log_call m_info now module subModule message extras =>
      info now module subModule message extras
  | log_call m_debug now module subModule message extras =>
      debug now module subModule message extras
  | threshold_call level => setLogLevel level
  end.

Definition invoke_all (calls : list Call) (this : LoggerClass) : LoggerClass :=
  fold_left (fun this c => invoke c this) calls this.

(** The calls that get through, given the threshold at the start. *)
Fixpoint passing (threshold : Z) (calls : list Call) : list Call :=
  match calls with
  | [] => []
  | log_call m now module subModule message extras :: calls' =>
      if level_of m <=? threshold
      then log_call m now module subModule message extras
             :: passing threshold calls'
      else passing threshold calls'
  | threshold_call level :: calls' => passing level calls'
  end.

Definition is_log_call (c : Call) : bool :=
  match c with
  | log_call _ _ _ _ _ _ => true
  | threshold_call _ => false
  end.

(** What a call that gets through gives to [console.log] and to
    [fs.appendFile]. *)
Definition printed_of (c : Call) : list Printed :=
  match c with
  | log_call m now module subModule message extras =>
      [{| colour := _logLevelToColor (level_of m);
          text := message_line now module subModule (level_of m) message;
          others := extras |}]
  | threshold_call _ => []
  end.

Definition appended_of (c : Call) : list string :=
  match c with
  | log_call m now module subModule message extras =>
      [file_message
         (message_line now module subModule (level_of m) message) extras]
  | threshold_call _ => []
  end.

End Logger.

(* ================================================================= *)
(** * Notions used by the properties *)

(** The state a method leaves, and how it ended. *)
Definition run {A} (m : M A) (this : Rcon) : Rcon := snd (m this).
Definition ending {A} (m : M A) (this : Rcon) : outcome A := fst (m this).

(** A string without unpaired surrogates, made of code units. *)
Fixpoint scalar_string (s : jsstring) : bool :=
  match s with
  | [] => true
  | u :: t =>
      if is_high_surrogate u then
        match t with
        | l :: t' => is_low_surrogate l && scalar_string t'
        | [] => false
        end
      else negb (is_low_surrogate u) && (0 <=? u) && (u <? 65536)
           && scalar_string t
  end.

(** The strings an encoding writes without loss: every well-formed
    string for UTF-8, the 7-bit ones for ['ascii']. *)
Definition representable (enc : Encoding) (s : jsstring) : bool :=
  match enc with
  | enc_utf8 => scalar_string s
  | enc_ascii => forallb (fun u => (0 <=? u) && (u <? 128)) s
  end.

(** Feeding the chunks of a stream one call of [_decodeData] after the
    other, from the buffer [incomingData]; the packets of all calls, in
    order, and the buffer left. *)
Fixpoint feed_chunks (enc : Encoding) (incomingData : Buffer)
    (chunks : list Buffer) : outcome (list Buffer) * Buffer :=
  match chunks with
  | [] => (Normal [], incomingData)
  | chunk :: chunks' =>
      match feed enc incomingData chunk with
      | (Normal packets, rest) =>
          match feed_chunks enc rest chunks' with
          | (Normal packets', rest') => (Normal (packets ++ packets'), rest')
          | r => r
          end
      | r => r
      end
  end.

(** One more packet in front of those of a result. *)
Definition with_packet (packet : Buffer) (r : outcome (list Buffer) * Buffer)
  : outcome (list Buffer) * Buffer :=
  match r with
  | (Normal packets, rest) => (Normal (packet :: packets), rest)
  | _ => r
  end.

(** The broken packet as the server sends it after an empty packet: 21
    bytes that declare 10. *)
Definition broken_packet : Buffer :=
  [x0a; x00; x00; x00;  x02; x00; x00; x00;  x00; x00; x00; x00;
   x00; x00; x00; x01; x00; x00; x00;  x00; x00].

(** An empty response with id [END]: 14 bytes that declare 10. *)
Definition empty_packet : Buffer :=
  [x0a; x00; x00; x00;  x02; x00; x00; x00;  x00; x00; x00; x00;  x00; x00].

(** The packet of the command [ShowNextMap], which the bot sends every 30
    seconds. *)
Definition ShowNextMap_packet : Buffer :=
  Eval vm_compute in
  match _encodePacket enc_utf8 PacketType.COMMAND PacketId.MID
          (js "ShowNextMap") with
  | Ret packet => packet
  | Throw _ => []
  end.

(** The packet of the command [ListPlayers]. *)
Definition ListPlayers_packet : Buffer :=
  Eval vm_compute in
  match _encodePacket enc_utf8 PacketType.COMMAND PacketId.MID
          (js "ListPlayers") with
  | Ret packet => packet
  | Throw _ => []
  end.

(** A chat packet with id 0 and a body of 246 bytes: it declares 256. *)
Definition long_chat_packet : Buffer :=
  Eval vm_compute in
  match _encodePacket enc_utf8 PacketResponseType.CHAT_VALUE 0
          (repeat 0x61 246) with
  | Ret packet => packet
  | Throw _ => []
  end.

(** Kinds of decoded packets, as the dispatcher tells them apart. *)
Definition is_response (d : DecodedRconPacket) : bool :=
  (type d =? PacketResponseType.RESPONSE_VALUE)
  || (type d =? PacketResponseType.RESPONSE_AUTH).

Definition is_fragment (d : DecodedRconPacket) : bool :=
  is_response d && (id d =? PacketId.MID).

Definition is_end (d : DecodedRconPacket) : bool :=
  is_response d && (id d =? PacketId.END).

Definition is_chat (d : DecodedRconPacket) : bool :=
  type d =? PacketResponseType.CHAT_VALUE.

(** The chat events of the chat packets among [frames], in order. *)
Definition chats (frames : list DecodedRconPacket) : list Event :=
  map (fun d => ev_chat (body d)) (filter is_chat frames).

(** The state after the callback of a command has been called with
    [arg]: its error listener is gone and the response is emitted. *)
Definition responded (onError : nat) (arg : jsstring) (this : Rcon) : Rcon :=
  set_emitted (emitted this ++ [ev_response arg])
    (set_client
       (set_once_error
          (remove_last ErrorListener_eqb (write_onError onError)
             (once_error (_client this)))
          (_client this))
       this).

(** The empty packet that [_write] sends after a command. *)
Definition empty_command_packet : Buffer :=
  [x0a; x00; x00; x00;  x02; x00; x00; x00;  x02; x00; x00; x00;  x00; x00].

(** The state after [_write] has accepted a command encoded as [pkt]. *)
Definition command_written (pkt : Buffer) (this : Rcon) : Rcon :=
  let onError := closures this in
  set_client
    (set_written (written (_client this) ++ [pkt; empty_command_packet])
       (set_once_error
          (once_error (_client this) ++ [write_onError onError])
          (_client this)))
    (set_responseCallbackQueue
       (_responseCallbackQueue this ++ [cb_response onError])
       (set_closures (S onError) this)).

(** The answer of the server to a wrong password: type [RESPONSE_AUTH],
    id -1, no body. *)
Definition auth_failed_packet : Buffer :=
  [x0a; x00; x00; x00;  xff; xff; xff; xff;  x02; x00; x00; x00;  x00; x00].

(** Its answer to the right one: type [RESPONSE_AUTH], the id of the
    request. *)
Definition auth_ok_packet : Buffer :=
  [x0a; x00; x00; x00;  x02; x00; x00; x00;  x02; x00; x00; x00;  x00; x00].

(** A decoded packet with a given id, type and body. *)
Definition decoded_frame (ty i : Z) (s : jsstring) : DecodedRconPacket :=
  {| size := Buffer_byteLength s + 10; id := i; type := ty; body := s |}.

(** A new instance with the options of the bot, after [connect()] and the
    ['connect'] event of the socket: the AUTH packet is written. *)
Definition connected_instance : Rcon :=
  Eval vm_compute in
  run (connect ;; socket_connect)
      (new_Rcon (Some (js "secret")) (Some 4096) (Some enc_utf8)).

(** The same after the two answers of the server to a right password. *)
Definition authed_instance : Rcon :=
  Eval vm_compute in
  run (socket_data empty_packet ;; socket_data auth_ok_packet)
      connected_instance.


(** What a later state has kept of an earlier one: the bytes of the
    reassembly buffer, the fragments gathered, and the callbacks that were
    pending, possibly followed by new ones. *)
Definition survives (this this' : Rcon) : Prop :=
  _incomingData this' = _incomingData this
  /\ _incomingResponse this' = _incomingResponse this
  /\ exists pushed,
       _responseCallbackQueue this'
       = _responseCallbackQueue this ++ pushed.

(** A method that keeps these, however it ends. *)
Definition keeps {A} (m : M A) : Prop :=
  forall this, survives this (snd (m this)).

(** A packet whose first four bytes declare its length, the declared
    size not being the 10 that triggers the probe. *)
Definition framed (packet : Buffer) : Prop :=
  exists v, readInt32LE packet 0 = Ret v /\ byteLength packet = v + 4
            /\ v <> 10.

(** A buffer that declares -4. *)
Definition minus_four : Buffer := [xfc; xff; xff; xff].

(** The state after [_write] has accepted the AUTH packet [pkt]. *)
Definition auth_written (pkt : Buffer) (this : Rcon) : Rcon :=
  let onError := closures this in
  set_client
    (set_written (written (_client this) ++ [pkt])
       (set_once_error
          (once_error (_client this) ++ [write_onError onError])
          (_client this)))
    (set_responseCallbackQueue
       (_responseCallbackQueue this ++ [cb_ignore; cb_auth onError])
       (set_closures (S onError) this)).

(** The error [_write] reports when it refuses a packet of [size] bytes. *)
Definition refusal (size : Z) (this : Rcon) : option Error :=
  if negb (_connected this) then Some Not_connected
  else if negb (writable (_client this)) then Some Unable_to_write
  else if _maximumPacketSize this <? size then Some Packet_too_long
  else None.

(** What can happen to an instance: a call of one of its three public
    methods, or an event of its socket or of its timer. *)
Inductive Action : Type :=
| call_connect
| call_execute (command : jsstring)
| call_disconnect
| on_connect
| on_data (data : Buffer)
| on_error (err : Z)
| on_close (hadError : bool)
| on_timeout.

Definition perform (a : Action) : M unit :=
  match a with
  | call_connect => connect
  | call_execute command => execute command
  | call_disconnect => disconnect
  | on_connect => socket_connect
  | on_data data => socket_data data
  | on_error err => socket_error err
  | on_close hadError => socket_close hadError
  | on_timeout => timeout_fires
  end.

(** A method that leaves the state in relation [R] with the one it
    started from, however it ends. *)
Definition respects (R : Rcon -> Rcon -> Prop) {A} (m : M A) : Prop :=
  forall this, R this (snd (m this)).

(** What no method undoes: the options stay, the trace of events and the
    list of written buffers only grow, and auto-reconnect, once on, stays
    on. *)
Definition advances (this this' : Rcon) : Prop :=
  _maximumPacketSize this' = _maximumPacketSize this
  /\ _encoding this' = _encoding this
  /\ _password this' = _password this
  /\ _autoReconnectDelay this' = _autoReconnectDelay this
  /\ (exists evs, emitted this' = emitted this ++ evs)
  /\ (exists bufs, written (_client this') = written (_client this) ++ bufs)
  /\ (_autoReconnect this = true -> _autoReconnect this' = true).

(** The closure an entry of the queue holds, if it holds one. *)
Definition callback_id (f : Callback) : list nat :=
  match f with
  | cb_ignore => []
  | cb_auth k => [k]
  | cb_response k => [k]
  end.

Definition pending_ids (q : list Callback) : list nat :=
  flat_map callback_id q.

Definition is_write_listener (l : ErrorListener) : bool :=
  match l with
  | write_onError _ => true
  | connect_onError _ => false
  end.

(** Every [() => {}] of the queue is directly followed by the callback of
    its AUTH packet. *)
Fixpoint paired (q : list Callback) : bool :=
  match q with
  | [] => true
  | cb_ignore :: q' =>
      match q' with
      | cb_auth _ :: _ => paired q'
      | _ => false
      end
  | _ :: q' => paired q'
  end.

(** The book-keeping of [_write]: the [onError] listeners it has left on
    the socket are those of the callbacks still in the queue, in the same
    order; these closures are distinct and were all created already. *)
Definition consistent (this : Rcon) : Prop :=
  filter is_write_listener (once_error (_client this))
  = map write_onError (pending_ids (_responseCallbackQueue this))
  /\ Forall (fun k => (k < closures this)%nat)
            (pending_ids (_responseCallbackQueue this))
  /\ NoDup (pending_ids (_responseCallbackQueue this))
  /\ paired (_responseCallbackQueue this) = true.

(** The same from one state to the next. *)
Definition stays_consistent (this this' : Rcon) : Prop :=
  consistent this -> consistent this'.

(** The state after a sequence of actions, each one run to its end: an
    exception that leaves a call or a listener is not seen by the next
    one. *)
Fixpoint reach (actions : list Action) (this : Rcon) : Rcon :=
  match actions with
  | [] => this
  | a :: actions' => reach actions' (run (perform a) this)
  end.

(** A reply of the server to [ShowNextMap], in one Mid-tagged packet. *)
Definition NextMap_reply : jsstring :=
  Eval vm_compute in js "Next level is Narva, layer is Narva AAS v1".

Definition NextMap_reply_packet : Buffer :=
  Eval vm_compute in
  match _encodePacket enc_utf8 PacketResponseType.RESPONSE_VALUE PacketId.MID
          NextMap_reply with
  | Ret packet => packet
  | Throw _ => []
  end.

(** Auto-reconnect is on, or a reconnect is scheduled, only if [authed]
    was emitted before. *)
Definition authed_first (this : Rcon) : Prop :=
  _autoReconnect this = true \/ timeouts this <> [] ->
  In ev_authed (emitted this).

Definition stays_authed_first (this this' : Rcon) : Prop :=
  authed_first this -> authed_first this'.

(** A buffer that fits the limit of the instance and declares its own
    length. *)
Definition sized (limit : Z) (b : Buffer) : Prop :=
  byteLength b <= limit /\ readInt32LE b 0 = Ret (byteLength b - 4).

(** Everything written to the socket so far is such a buffer. *)
Definition within_limit (this : Rcon) : Prop :=
  Forall (sized (_maximumPacketSize this)) (written (_client this)).

Definition stays_within_limit (this this' : Rcon) : Prop :=
  within_limit this -> within_limit this'.

(** 'Authentication failed.' is not among the events emitted so far. *)
Definition never_failed (this : Rcon) : Prop :=
  ~ In (ev_error Authentication_failed) (emitted this).

Definition stays_never_failed (this this' : Rcon) : Prop :=
  never_failed this -> never_failed this'.

(** The states an instance goes through while the reply to its one
    pending command arrives: [P] of the Mid-tagged packet is in the
    buffer; the packet is gathered as the fragment [d] and [Q] of the End
    packet is in the buffer; the callback [k] has been called with
    [reply]. *)
Definition reply_arriving (P : Buffer) (base : Rcon) : Rcon :=
  set_incomingData P base.

Definition reply_gathered (d : DecodedRconPacket) (Q : Buffer) (base : Rcon)
  : Rcon :=
  set_incomingResponse [d] (set_incomingData Q base).

Definition reply_delivered (k : nat) (reply : jsstring) (base : Rcon) : Rcon :=
  set_incomingResponse []
    (responded k reply
       (set_responseCallbackQueue [] (set_incomingData [] base))).

(** [connected_instance] after the first answer of the server to the AUTH
    packet, the empty response: the callback of the AUTH packet is at the
    head of the queue. *)
Definition awaiting_auth_instance : Rcon :=
  Eval vm_compute in run (socket_data empty_packet) connected_instance.

(** Chat packets, and the frames they decode to. *)
Definition chat_frames (enc : Encoding) (packets : list Buffer)
    (frames : list DecodedRconPacket) : Prop :=
  Forall2 (fun packet d => _decodePacket enc packet = Ret d
                           /\ is_chat d = true)
    packets frames.

(** Two chat packets, with ids 0 and 7. *)
Definition hello_chat_packet : Buffer :=
  Eval vm_compute in
  match _encodePacket enc_utf8 PacketResponseType.CHAT_VALUE 0 (js "hello")
  with
  | Ret packet => packet
  | Throw _ => []
  end.

Definition gg_chat_packet : Buffer :=
  Eval vm_compute in
  match _encodePacket enc_utf8 PacketResponseType.CHAT_VALUE 7 (js "gg") with
  | Ret packet => packet
  | Throw _ => []
  end.

(** A reply of the server to [ListPlayers], in one Mid-tagged packet. *)
Definition Players_reply : jsstring :=
  Eval vm_compute in js "----- Active Players -----".

Definition Players_reply_packet : Buffer :=
  Eval vm_compute in
  match _encodePacket enc_utf8 PacketResponseType.RESPONSE_VALUE PacketId.MID
          Players_reply with
  | Ret packet => packet
  | Throw _ => []
  end.

(* ================================================================= *)
(** * Bytes and integers *)

Lemma u8_range (b : byte) : 0 <= u8 b < 256.
Proof.
  unfold u8. pose proof (Byte.to_N_bounded b) as H.
  change 256 with (Z.of_N 256). lia.
Qed.

Lemma u8_byte_of_Z (z : Z) : u8 (byte_of_Z z) = z mod 256.
Proof.
  unfold u8, byte_of_Z.
  assert (Hm : 0 <= z mod 256 < 256) by (apply Z.mod_pos_bound; lia).
  destruct (Byte.of_N (Z.to_N (z mod 256))) as [b|] eqn:E.
  - apply Byte.to_of_N in E. rewrite E. lia.
  - apply Byte.of_N_None_iff in E. lia.
Qed.

Lemma readInt32LE_Ret (b : Buffer) (offset : nat) :
  (offset + 4 <= length b)%nat -> exists v, readInt32LE b offset = Ret v.
Proof.
  intros H. unfold readInt32LE.
  assert (Hl : (4 <= length (skipn offset b))%nat)
    by (rewrite length_skipn; lia).
  destruct (skipn offset b) as [|b0 [|b1 [|b2 [|b3 t]]]];
    cbn [length] in Hl; try lia.
  eexists. reflexivity.
Qed.

Lemma readInt32LE_int32LE (v : Z) (rest : Buffer) :
  int32_min <= v <= int32_max ->
  readInt32LE (int32LE v ++ rest) 0 = Ret v.
Proof.
  unfold int32_min, int32_max. intros Hv.
  unfold readInt32LE, int32LE. cbn [skipn app].
  rewrite !u8_byte_of_Z, !Z.shiftr_div_pow2 by lia.
  f_equal.
  change (2 ^ 8) with 256. change (2 ^ 16) with 65536.
  change (2 ^ 24) with 16777216. change (2 ^ 31) with 2147483648 in *.
  change (2 ^ 32) with 4294967296.
  destruct (Z.ltb_spec
    (v mod 256 + v / 256 mod 256 * 256 + v / 65536 mod 256 * 65536 +
     v / 16777216 mod 256 * 16777216) 2147483648);
    Z.to_euclidean_division_equations; lia.
Qed.

Lemma readInt32LE_app (a b : Buffer) (offset : nat) :
  offset = length a -> readInt32LE (a ++ b) offset = readInt32LE b 0.
Proof.
  intros ->. unfold readInt32LE.
  rewrite skipn_app, skipn_all, Nat.sub_diag. reflexivity.
Qed.

Lemma blit_app (a old c new : list byte) (offset : nat) :
  offset = length a -> length old = length new ->
  blit (a ++ old ++ c) offset new = a ++ new ++ c.
Proof.
  intros -> Hl. unfold blit.
  rewrite firstn_app, firstn_all, Nat.sub_diag. cbn [firstn].
  rewrite app_nil_r. f_equal. f_equal.
  rewrite skipn_app.
  rewrite (skipn_all2 a) by lia. cbn [app].
  replace (length a + length new - length a)%nat with (length old) by lia.
  rewrite skipn_app, skipn_all, Nat.sub_diag. reflexivity.
Qed.

(* ================================================================= *)
(** * The codec *)

Lemma pair_induction (P : jsstring -> Prop) :
  P [] -> (forall u, P [u]) ->
  (forall u l t, P t -> P (l :: t) -> P (u :: l :: t)) ->
  forall s, P s.
Proof.
  intros H0 H1 H2 s.
  assert (H : P s /\ forall u, P (u :: s)).
  { induction s as [|l t [IHa IHb]].
    - split; [exact H0 | exact H1].
    - split; [apply IHb | intros u; apply H2; [exact IHa | apply IHb]]. }
  apply H.
Qed.

Lemma utf8_of_code_point_length (c : Z) :
  (1 <= length (utf8_of_code_point c) <= 4)%nat.
Proof.
  unfold utf8_of_code_point.
  destruct (c <? 0x80), (c <? 0x800), (c <? 0x10000); cbn; lia.
Qed.

Lemma utf8_of_pair_length (u l : Z) :
  is_high_surrogate u = true -> is_low_surrogate l = true ->
  length (utf8_of_code_point (0x10000 + (u - 0xD800) * 0x400 + (l - 0xDC00)))
  = 4%nat.
Proof.
  unfold is_high_surrogate, is_low_surrogate, utf8_of_code_point.
  intros Hu Hl.
  destruct (Z.ltb_spec (0x10000 + (u - 0xD800) * 0x400 + (l - 0xDC00)) 0x80);
    [lia|].
  destruct (Z.ltb_spec (0x10000 + (u - 0xD800) * 0x400 + (l - 0xDC00)) 0x800);
    [lia|].
  destruct (Z.ltb_spec (0x10000 + (u - 0xD800) * 0x400 + (l - 0xDC00)) 0x10000);
    [lia|].
  reflexivity.
Qed.

(** A string has at most as many code units as UTF-8 bytes. *)
Lemma length_le_utf8 (s : jsstring) :
  (length s <= length (concat (utf8_chunks s)))%nat.
Proof.
  induction s as [|u|u l t IHt IHlt] using pair_induction.
  - cbn. lia.
  - cbn [utf8_chunks].
    destruct (is_high_surrogate u); [|destruct (is_low_surrogate u)];
      cbn [concat length]; rewrite app_nil_r;
      match goal with |- context [utf8_of_code_point ?c] =>
        pose proof (utf8_of_code_point_length c) end; lia.
  - change (utf8_chunks (u :: l :: t)) with
      (if is_high_surrogate u then
         if is_low_surrogate l then
           utf8_of_code_point (0x10000 + (u - 0xD800) * 0x400 + (l - 0xDC00))
             :: utf8_chunks t
         else utf8_of_code_point 0xFFFD :: utf8_chunks (l :: t)
       else if is_low_surrogate u then
         utf8_of_code_point 0xFFFD :: utf8_chunks (l :: t)
       else utf8_of_code_point u :: utf8_chunks (l :: t)).
    destruct (is_high_surrogate u) eqn:Hu.
    + destruct (is_low_surrogate l) eqn:Hl.
      * cbn [concat]. rewrite length_app, utf8_of_pair_length by assumption.
        cbn [length]. lia.
      * cbn [concat length]. rewrite length_app.
        pose proof (utf8_of_code_point_length 0xFFFD). cbn [length] in IHlt. lia.
    + destruct (is_low_surrogate u); cbn [concat length]; rewrite length_app;
        match goal with |- context [utf8_of_code_point ?c] =>
          pose proof (utf8_of_code_point_length c) end;
        cbn [length] in IHlt; lia.
Qed.

Lemma whole_chunks_fit (cs : list (list byte)) (room : nat) :
  (length (concat cs) <= room)%nat -> whole_chunks room cs = concat cs.
Proof.
  revert room. induction cs as [|c cs IH]; intros room H; [reflexivity|].
  cbn [concat] in *. rewrite length_app in H. cbn [whole_chunks].
  destruct (Nat.leb_spec (length c) room); [|lia].
  rewrite IH by lia. reflexivity.
Qed.

(** [buf.write] in [_encodePacket] never has to cut the body. *)
Lemma encode_upto_length (enc : Encoding) (s : jsstring) :
  (length (encode_upto enc s (length (concat (utf8_chunks s)) + 2))
   <= length (concat (utf8_chunks s)))%nat.
Proof.
  destruct enc; cbn [encode_upto].
  - rewrite length_firstn, length_map. pose proof (length_le_utf8 s). lia.
  - rewrite whole_chunks_fit by lia. lia.
Qed.

(** The bytes of an encoded packet, and when there is none. *)
Lemma _encodePacket_eq (enc : Encoding) (ty i : Z) (s : jsstring) :
  let n := length (concat (utf8_chunks s)) in
  let E := encode_upto enc s (n + 2) in
  _encodePacket enc ty i s =
  if out_of_int32 (Z.of_nat n + 10) then Throw RangeError
  else if out_of_int32 i then Throw RangeError
  else if out_of_int32 ty then Throw RangeError
  else Ret (int32LE (Z.of_nat n + 10) ++ int32LE i ++ int32LE ty ++ E
            ++ repeat x00 (n - length E) ++ [x00; x00]).
Proof.
  intros n E.
  assert (HE : (length E <= n)%nat) by apply encode_upto_length.
  unfold _encodePacket, Buffer_byteLength, byteLength. fold n.
  replace (alloc (Z.of_nat n + 14)) with
    ([] ++ repeat x00 4 ++ repeat x00 4 ++ repeat x00 4
        ++ repeat x00 (length E) ++ repeat x00 (n - length E) ++ repeat x00 2).
  2:{ unfold alloc. cbn [app]. rewrite <- !repeat_app. f_equal. lia. }
  unfold writeInt32LE at 1.
  replace (Z.of_nat n + 14 - 4) with (Z.of_nat n + 10) by lia.
  destruct (out_of_int32 (Z.of_nat n + 10)); [reflexivity|].
  match goal with |- context [Nat.ltb ?a ?b] =>
    destruct (Nat.ltb_spec a b) as [Hc|_] end.
  { exfalso. revert Hc. rewrite !length_app, !repeat_length. cbn. lia. }
  rewrite blit_app by reflexivity. cbn [rbind].
  unfold writeInt32LE at 1.
  destruct (out_of_int32 i); [reflexivity|].
  match goal with |- context [Nat.ltb ?a ?b] =>
    destruct (Nat.ltb_spec a b) as [Hc|_] end.
  { exfalso. revert Hc. rewrite !length_app, !repeat_length. cbn. lia. }
  rewrite (app_assoc [] (int32LE _)).
  rewrite blit_app by reflexivity. cbn [rbind].
  unfold writeInt32LE at 1.
  destruct (out_of_int32 ty); [reflexivity|].
  match goal with |- context [Nat.ltb ?a ?b] =>
    destruct (Nat.ltb_spec a b) as [Hc|_] end.
  { exfalso. revert Hc. rewrite !length_app, !repeat_length. cbn. lia. }
  rewrite (app_assoc _ (int32LE i)).
  rewrite blit_app by reflexivity. cbn [rbind app].
  set (hdr := (int32LE (Z.of_nat n + 10) ++ int32LE i) ++ int32LE ty).
  rewrite (app_assoc _ (int32LE ty)). fold hdr.
  assert (Hh : length hdr = 12%nat) by reflexivity.
  unfold write.
  rewrite !length_app, !repeat_length, Hh.
  unfold byteLength. rewrite !length_app, !repeat_length, Hh.
  destruct (Nat.ltb_spec (12 + (length E + (n - length E + 2))) 12); [lia|].
  destruct (Z.ltb_spec (Z.of_nat n + 14 - 2) 0); [lia|].
  destruct (Z.ltb_spec (Z.of_nat (12 + (length E + (n - length E + 2))))
              (Z.of_nat n + 14 - 2)); [lia|].
  cbn [orb].
  replace (Nat.min (Z.to_nat (Z.of_nat n + 14 - 2))
             (12 + (length E + (n - length E + 2)) - 12)) with (n + 2)%nat
    by lia.
  fold E.
  rewrite blit_app by (rewrite ?repeat_length; auto).
  cbn [rbind]. unfold writeInt16LE.
  change ((0 <? - 2 ^ 15) || (2 ^ 15 - 1 <? 0)) with false. cbv iota.
  rewrite !length_app, !repeat_length, Hh.
  destruct (Nat.ltb_spec (12 + (length E + (n - length E + 2)))
              (Z.to_nat (Z.of_nat n + 14 - 2) + 2)); [lia|].
  rewrite !app_assoc.
  rewrite <- (app_nil_r (repeat x00 2)).
  rewrite blit_app.
  - cbn [rbind]. rewrite app_nil_r. unfold hdr. reflexivity.
  - rewrite !length_app, !repeat_length, Hh. lia.
  - reflexivity.
Qed.

Lemma out_of_int32_false (v : Z) :
  out_of_int32 v = false <-> int32_min <= v <= int32_max.
Proof.
  unfold out_of_int32. rewrite orb_false_iff, !Z.ltb_ge. tauto.
Qed.

Lemma _encodePacket_layout (enc : Encoding) (ty i : Z) (s : jsstring)
    (pkt : Buffer) :
  _encodePacket enc ty i s = Ret pkt ->
  let n := length (concat (utf8_chunks s)) in
  let E := encode_upto enc s (n + 2) in
  (Z.of_nat n + 10 <= int32_max /\ int32_min <= i <= int32_max
   /\ int32_min <= ty <= int32_max)
  /\ pkt = int32LE (Z.of_nat n + 10) ++ int32LE i ++ int32LE ty ++ E
           ++ repeat x00 (n - length E) ++ [x00; x00].
Proof.
  intros H n E. rewrite _encodePacket_eq in H. fold n E in H.
  destruct (out_of_int32 (Z.of_nat n + 10)) eqn:H1; [discriminate|].
  destruct (out_of_int32 i) eqn:H2; [discriminate|].
  destruct (out_of_int32 ty) eqn:H3; [discriminate|].
  apply out_of_int32_false in H1, H2, H3.
  injection H as <-. split; [lia | reflexivity].
Qed.

(** The empty packet of [_write] exists as soon as the type is an
    int32. *)
Lemma _encodePacket_empty (enc : Encoding) (ty i : Z) :
  int32_min <= i <= int32_max -> int32_min <= ty <= int32_max ->
  exists pkt, _encodePacket enc ty i [] = Ret pkt /\ pkt <> [].
Proof.
  intros Hi Ht. rewrite _encodePacket_eq. cbn [utf8_chunks concat length].
  apply out_of_int32_false in Hi, Ht. rewrite Hi, Ht.
  change (out_of_int32 (Z.of_nat 0 + 10)) with false. cbv iota.
  eexists. split; [reflexivity | discriminate].
Qed.

(** ** Decoding what was encoded *)

Ltac divmod_lia := Z.to_euclidean_division_equations; lia.

Lemma utf8_decode_cont (n : nat) (cp lo hi : Z) (b : byte) (t : list byte) :
  lo <= u8 b <= hi ->
  utf8_decode (Cont n cp lo hi) (b :: t) =
  match n with
  | S (S n') => utf8_decode (Cont (S n') (cp * 64 + u8 b mod 64) 0x80 0xBF) t
  | _ => utf16_of_code_point (cp * 64 + u8 b mod 64) ++ utf8_decode Start t
  end.
Proof.
  intros [H1 H2]. cbn [utf8_decode].
  apply Z.leb_le in H1, H2. rewrite H1, H2. reflexivity.
Qed.

Lemma utf8_decode_start (b : byte) (t : list byte) :
  utf8_decode Start (b :: t)
  = fst (utf8_lead (u8 b)) ++ utf8_decode (snd (utf8_lead (u8 b))) t.
Proof. cbn [utf8_decode]. destruct (utf8_lead (u8 b)). reflexivity. Qed.

Lemma utf8_lead_1 (b : Z) : b < 0x80 -> utf8_lead b = ([b], Start).
Proof.
  intros H. unfold utf8_lead. apply Z.ltb_lt in H. rewrite H. reflexivity.
Qed.

Lemma utf8_lead_2 (b : Z) :
  0xC2 <= b <= 0xDF -> utf8_lead b = ([], Cont 1 (b mod 32) 0x80 0xBF).
Proof.
  intros H. unfold utf8_lead.
  destruct (Z.ltb_spec b 0x80); [lia|].
  destruct (Z.leb_spec 0xC2 b); [|lia].
  destruct (Z.leb_spec b 0xDF); [|lia]. reflexivity.
Qed.

Lemma utf8_lead_3 (b : Z) :
  0xE0 <= b <= 0xEF ->
  utf8_lead b = ([], Cont 2 (b mod 16) (if b =? 0xE0 then 0xA0 else 0x80)
                                       (if b =? 0xED then 0x9F else 0xBF)).
Proof.
  intros H. unfold utf8_lead.
  destruct (Z.ltb_spec b 0x80); [lia|].
  destruct (Z.leb_spec 0xC2 b); [|lia].
  destruct (Z.leb_spec b 0xDF); [lia|].
  destruct (Z.leb_spec 0xE0 b); [|lia].
  destruct (Z.leb_spec b 0xEF); [|lia]. reflexivity.
Qed.

Lemma utf8_lead_4 (b : Z) :
  0xF0 <= b <= 0xF4 ->
  utf8_lead b = ([], Cont 3 (b mod 8) (if b =? 0xF0 then 0x90 else 0x80)
                                      (if b =? 0xF4 then 0x8F else 0xBF)).
Proof.
  intros H. unfold utf8_lead.
  destruct (Z.ltb_spec b 0x80); [lia|].
  destruct (Z.leb_spec 0xC2 b); [|lia].
  destruct (Z.leb_spec b 0xDF); [lia|].
  destruct (Z.leb_spec 0xE0 b); [|lia].
  destruct (Z.leb_spec b 0xEF); [lia|].
  destruct (Z.leb_spec 0xF0 b); [|lia].
  destruct (Z.leb_spec b 0xF4); [|lia]. reflexivity.
Qed.

(** A code point that is not a surrogate is read back from its bytes. *)
Lemma utf8_decode_code_point (c : Z) (rest : list byte) :
  0 <= c < 0x110000 -> ~ 0xD800 <= c <= 0xDFFF ->
  utf8_decode Start (utf8_of_code_point c ++ rest)
  = utf16_of_code_point c ++ utf8_decode Start rest.
Proof.
  intros Hc Hs. unfold utf8_of_code_point.
  destruct (Z.ltb_spec c 0x80) as [H1|H1];
    [|destruct (Z.ltb_spec c 0x800) as [H2|H2];
      [|destruct (Z.ltb_spec c 0x10000) as [H3|H3]]];
    cbn [app]; rewrite utf8_decode_start, u8_byte_of_Z.
  - rewrite utf8_lead_1 by divmod_lia. cbn [fst snd].
    unfold utf16_of_code_point.
    destruct (Z.ltb_spec c 0x10000); [|lia].
    rewrite Z.mod_small by lia. reflexivity.
  - rewrite utf8_lead_2 by divmod_lia. cbn [fst snd app].
    rewrite utf8_decode_cont by (rewrite u8_byte_of_Z; divmod_lia).
    rewrite u8_byte_of_Z. f_equal. f_equal. divmod_lia.
  - rewrite utf8_lead_3 by divmod_lia. cbn [fst snd app].
    rewrite utf8_decode_cont.
    2:{ rewrite u8_byte_of_Z.
        destruct (Z.eqb_spec ((0xE0 + c / 4096) mod 256) 0xE0);
          destruct (Z.eqb_spec ((0xE0 + c / 4096) mod 256) 0xED); divmod_lia. }
    rewrite utf8_decode_cont by (rewrite u8_byte_of_Z; divmod_lia).
    rewrite !u8_byte_of_Z. f_equal. f_equal. divmod_lia.
  - rewrite utf8_lead_4 by divmod_lia. cbn [fst snd app].
    rewrite utf8_decode_cont.
    2:{ rewrite u8_byte_of_Z.
        destruct (Z.eqb_spec ((0xF0 + c / 262144) mod 256) 0xF0);
          destruct (Z.eqb_spec ((0xF0 + c / 262144) mod 256) 0xF4); divmod_lia. }
    rewrite utf8_decode_cont by (rewrite u8_byte_of_Z; divmod_lia).
    rewrite utf8_decode_cont by (rewrite u8_byte_of_Z; divmod_lia).
    rewrite !u8_byte_of_Z. f_equal. f_equal. divmod_lia.
Qed.

Lemma utf16_of_pair (u l : Z) :
  is_high_surrogate u = true -> is_low_surrogate l = true ->
  utf16_of_code_point (0x10000 + (u - 0xD800) * 0x400 + (l - 0xDC00)) = [u; l].
Proof.
  unfold is_high_surrogate, is_low_surrogate, utf16_of_code_point.
  intros Hu Hl.
  destruct (Z.ltb_spec (0x10000 + (u - 0xD800) * 0x400 + (l - 0xDC00)) 0x10000);
    [lia|].
  f_equal; [|f_equal]; divmod_lia.
Qed.

Lemma utf8_roundtrip (s : jsstring) :
  scalar_string s = true -> utf8_decode Start (concat (utf8_chunks s)) = s.
Proof.
  induction s as [|u|u l t IHt IHlt] using pair_induction.
  - reflexivity.
  - cbn [scalar_string utf8_chunks].
    destruct (is_high_surrogate u) eqn:Hu; [discriminate|].
    destruct (is_low_surrogate u) eqn:Hl; [discriminate|].
    cbn [negb andb concat]. intros H.
    unfold is_high_surrogate, is_low_surrogate in *.
    rewrite utf8_decode_code_point by lia.
    unfold utf16_of_code_point.
    destruct (Z.ltb_spec u 0x10000); [reflexivity | lia].
  - change (utf8_chunks (u :: l :: t)) with
      (if is_high_surrogate u then
         if is_low_surrogate l then
           utf8_of_code_point (0x10000 + (u - 0xD800) * 0x400 + (l - 0xDC00))
             :: utf8_chunks t
         else utf8_of_code_point 0xFFFD :: utf8_chunks (l :: t)
       else if is_low_surrogate u then
         utf8_of_code_point 0xFFFD :: utf8_chunks (l :: t)
       else utf8_of_code_point u :: utf8_chunks (l :: t)).
    change (scalar_string (u :: l :: t)) with
      (if is_high_surrogate u then is_low_surrogate l && scalar_string t
       else negb (is_low_surrogate u) && (0 <=? u) && (u <? 65536)
            && scalar_string (l :: t)).
    destruct (is_high_surrogate u) eqn:Hu.
    + destruct (is_low_surrogate l) eqn:Hl; [|discriminate].
      cbn [andb concat]. intros H.
      rewrite utf8_decode_code_point, utf16_of_pair, IHt by
        (try assumption; unfold is_high_surrogate, is_low_surrogate in *; lia).
      reflexivity.
    + destruct (is_low_surrogate u) eqn:Hl; [discriminate|].
      cbn [negb andb concat]. intros H.
      unfold is_high_surrogate, is_low_surrogate in Hu, Hl.
      destruct (Z.leb_spec 0 u); [|discriminate].
      destruct (Z.ltb_spec u 65536); [|discriminate].
      cbn [andb] in H.
      rewrite utf8_decode_code_point, IHlt by (try assumption; lia).
      unfold utf16_of_code_point.
      destruct (Z.ltb_spec u 0x10000); [reflexivity | lia].
Qed.

Lemma ascii_chunks (s : jsstring) :
  forallb (fun u => (0 <=? u) && (u <? 128)) s = true ->
  concat (utf8_chunks s) = map byte_of_Z s.
Proof.
  induction s as [|u t IH]; [reflexivity|].
  cbn [forallb]. intros H. apply andb_prop in H as [Hu Ht].
  cbn [utf8_chunks map].
  unfold is_high_surrogate, is_low_surrogate, utf8_of_code_point.
  destruct (Z.leb_spec 0 u); [|discriminate].
  destruct (Z.ltb_spec u 128); [|discriminate].
  destruct (Z.leb_spec 0xD800 u); [lia|].
  destruct (Z.leb_spec 0xDC00 u); [lia|].
  destruct (Z.ltb_spec u 0x80); [|lia].
  cbn [andb concat app]. rewrite IH by assumption. reflexivity.
Qed.

Lemma ascii_roundtrip (s : jsstring) :
  forallb (fun u => (0 <=? u) && (u <? 128)) s = true ->
  map (fun b => u8 b mod 128) (map byte_of_Z s) = s.
Proof.
  induction s as [|u t IH]; [reflexivity|].
  cbn [forallb map]. intros H. apply andb_prop in H as [Hu Ht].
  rewrite IH by assumption. rewrite u8_byte_of_Z.
  destruct (Z.leb_spec 0 u); [|discriminate].
  destruct (Z.ltb_spec u 128); [|discriminate].
  f_equal. divmod_lia.
Qed.

(** What [buf.write] stores for a representable body, and how it is read
    back. *)
Lemma representable_payload (enc : Encoding) (s : jsstring) :
  representable enc s = true ->
  let n := length (concat (utf8_chunks s)) in
  encode_upto enc s (n + 2) = concat (utf8_chunks s)
  /\ decode_bytes enc (concat (utf8_chunks s)) = s.
Proof.
  intros H n. destruct enc; cbn [representable encode_upto decode_bytes] in *.
  - pose proof (ascii_chunks s H) as Hc. split.
    + rewrite <- Hc. apply firstn_all2. lia.
    + rewrite Hc. apply ascii_roundtrip, H.
  - split; [apply whole_chunks_fit; lia | apply utf8_roundtrip, H].
Qed.

Lemma decode_bytes_nil (enc : Encoding) : decode_bytes enc [] = [].
Proof. destruct enc; reflexivity. Qed.

(** Decoding a packet made of three int32, a payload and two bytes. *)
Lemma _decodePacket_layout (enc : Encoding) (v i ty : Z) (P : list byte)
    (t1 t2 : byte) :
  int32_min <= v <= int32_max -> int32_min <= i <= int32_max ->
  int32_min <= ty <= int32_max ->
  _decodePacket enc (int32LE v ++ int32LE i ++ int32LE ty ++ P ++ [t1; t2])
  = Ret {| size := v; id := i; type := ty; body := decode_bytes enc P |}.
Proof.
  intros Hv Hi Ht. unfold _decodePacket.
  rewrite readInt32LE_int32LE by assumption. cbn [rbind].
  rewrite (readInt32LE_app (int32LE v)) by reflexivity.
  rewrite readInt32LE_int32LE by assumption. cbn [rbind].
  rewrite (app_assoc (int32LE v)).
  rewrite (readInt32LE_app (int32LE v ++ int32LE i)) by reflexivity.
  rewrite readInt32LE_int32LE by assumption. cbn [rbind].
  f_equal. f_equal.
  unfold toString, byteLength.
  rewrite !length_app. cbn [length int32LE].
  destruct (Z.leb_spec (Z.of_nat (4 + 4 + (4 + (length P + 2)))) 12); [lia|].
  rewrite andb_false_r.
  destruct (Z.ltb_spec (Z.of_nat (4 + 4 + (4 + (length P + 2))))
              (Z.of_nat (4 + 4 + (4 + (length P + 2))) - 2)); [lia|].
  destruct (Z.leb_spec (Z.of_nat (4 + 4 + (4 + (length P + 2))) - 2)
              (Z.max 12 0)) as [He|He].
  - destruct P; [symmetry; apply decode_bytes_nil | cbn [length] in He; lia].
  - replace (Z.to_nat (Z.max 12 0)) with 12%nat by lia.
    unfold int32LE. cbn [app skipn].
    replace (Z.to_nat (Z.of_nat (4 + 4 + (4 + (length P + 2))) - 2 - Z.max 12 0))
      with (length P + 0)%nat by lia.
    rewrite firstn_app_2. cbn [firstn]. rewrite app_nil_r. reflexivity.
Qed.

(** A decoded string has at most one code unit per byte. *)
Lemma utf8_decode_length (bs : list byte) :
  forall st,
    (length (utf8_decode st bs)
     <= length bs + match st with Start => 0 | Cont _ _ _ _ => 1 end)%nat.
Proof.
  assert (Hlead : forall b t,
             (forall st, length (utf8_decode st t)
                         <= length t
                            + match st with Start => 0 | Cont _ _ _ _ => 1 end)%nat ->
             (length (fst (utf8_lead b) ++ utf8_decode (snd (utf8_lead b)) t)
              <= S (length t))%nat).
  { intros b t IH. unfold utf8_lead.
    repeat match goal with
           | |- context [if ?c then _ else _] => destruct c
           end; cbn [fst snd app length];
      match goal with
      | |- context [utf8_decode ?st t] => specialize (IH st)
      end; cbv beta iota in IH; lia. }
  induction bs as [|b t IH]; intros st.
  - destruct st; cbn; lia.
  - destruct st as [|n cp lo hi].
    + rewrite utf8_decode_start. cbn [length]. specialize (Hlead (u8 b) t IH). lia.
    + cbn [utf8_decode length].
      destruct ((lo <=? u8 b) && (u8 b <=? hi)).
      * destruct n as [|[|n]].
        -- rewrite length_app. specialize (IH Start). cbv beta iota in IH.
           unfold utf16_of_code_point.
           destruct (cp * 64 + u8 b mod 64 <? 0x10000); cbn [length]; lia.
        -- rewrite length_app. specialize (IH Start). cbv beta iota in IH.
           unfold utf16_of_code_point.
           destruct (cp * 64 + u8 b mod 64 <? 0x10000); cbn [length]; lia.
        -- specialize (IH (Cont (S n) (cp * 64 + u8 b mod 64) 0x80 0xBF)).
           cbv beta iota in IH. lia.
      * specialize (Hlead (u8 b) t IH).
        destruct (utf8_lead (u8 b)) as [out st']. cbn [fst snd length] in *. lia.
Qed.

Lemma decode_bytes_length (enc : Encoding) (bs : list byte) :
  (length (decode_bytes enc bs) <= length bs)%nat.
Proof.
  destruct enc; cbn [decode_bytes].
  - rewrite length_map. lia.
  - pose proof (utf8_decode_length bs Start) as H. cbv beta iota in H. lia.
Qed.

Lemma toString_length (b : Buffer) (enc : Encoding) (start end_ : Z) :
  0 <= start ->
  Z.of_nat (length (toString b enc start end_)) <= Z.max 0 (end_ - start).
Proof.
  intros Hs. unfold toString.
  destruct ((0 <? start) && (byteLength b <=? start)); [cbn; lia|].
  destruct (Z.ltb_spec (byteLength b) end_);
    match goal with |- context [?e <=? Z.max start 0] =>
      destruct (Z.leb_spec e (Z.max start 0)) end;
    try (cbn [length]; lia);
    match goal with |- context [decode_bytes enc ?l] =>
      pose proof (decode_bytes_length enc l) as Hd;
      rewrite length_firstn in Hd end; lia.
Qed.

(** C4 (as amended): for every type, id and body that the encoding of the
    instance writes without loss (no unpaired surrogate under UTF-8, code
    units below 128 under ['ascii']), if [_encodePacket] returns a packet
    then [_decodePacket] of that packet returns the same id, type and body,
    a declared size of [Buffer.byteLength(body) + 10], and the packet has
    [declared size + 4] bytes.  This holds for packets of any length, so
    for those within the limit on the packet size. *)
Theorem encode_decode_roundtrip (enc : Encoding) (ty i : Z) (s : jsstring)
    (pkt : Buffer) :
  representable enc s = true ->
  _encodePacket enc ty i s = Ret pkt ->
  _decodePacket enc pkt
  = Ret {| size := Buffer_byteLength s + 10; id := i; type := ty; body := s |}
  /\ byteLength pkt = (Buffer_byteLength s + 10) + 4.
Proof.
  intros Hr He.
  apply _encodePacket_layout in He as [(Hn & Hi & Ht) ->].
  destruct (representable_payload enc s Hr) as [HE Hd].
  cbv zeta in HE. rewrite HE.
  replace (length (concat (utf8_chunks s)) - length (concat (utf8_chunks s)))%nat
    with 0%nat by lia.
  cbn [repeat app]. unfold Buffer_byteLength, byteLength. split.
  - rewrite _decodePacket_layout; try assumption.
    + rewrite Hd. reflexivity.
    + unfold int32_min. lia.
  - rewrite !length_app. cbn [length int32LE]. lia.
Qed.

Lemma encode_decode_roundtrip_witness :
  exists pkt,
    representable enc_utf8 (js "ShowNextMap") = true
    /\ _encodePacket enc_utf8 PacketType.COMMAND PacketId.MID (js "ShowNextMap")
       = Ret pkt
    /\ _decodePacket enc_utf8 pkt
       = Ret {| size := 21; id := PacketId.MID; type := PacketType.COMMAND;
                body := js "ShowNextMap" |}
    /\ byteLength pkt = 25.
Proof.
  exists ShowNextMap_packet.
  split; [vm_compute; reflexivity|]. split; [vm_compute; reflexivity|].
  apply (encode_decode_roundtrip enc_utf8 PacketType.COMMAND PacketId.MID
           (js "ShowNextMap")); vm_compute; reflexivity.
Defined.

(** C4 as stated fails: a body with an unpaired surrogate comes back as
    U+FFFD under UTF-8, and a body with a character above 127 comes back
    changed and longer under ['ascii']; both packets are far below the
    default limit of 4096 bytes. *)
Lemma encode_decode_roundtrip_counterexample :
  (exists pkt d,
      _encodePacket enc_utf8 PacketType.COMMAND PacketId.MID [0xD800] = Ret pkt
      /\ byteLength pkt <= 4096
      /\ _decodePacket enc_utf8 pkt = Ret d
      /\ body d = [0xFFFD] /\ body d <> [0xD800])
  /\ (exists pkt d,
      _encodePacket enc_ascii PacketType.COMMAND PacketId.MID [0xE9] = Ret pkt
      /\ byteLength pkt <= 4096
      /\ _decodePacket enc_ascii pkt = Ret d
      /\ body d = [0x69; 0] /\ body d <> [0xE9]).
Proof.
  split.
  - exists [x0d; x00; x00; x00;  x01; x00; x00; x00;  x02; x00; x00; x00;
            xef; xbf; xbd;  x00; x00].
    exists (decoded_frame PacketType.COMMAND PacketId.MID [0xFFFD]).
    repeat split; try (vm_compute; reflexivity); vm_compute; discriminate.
  - exists [x0c; x00; x00; x00;  x01; x00; x00; x00;  x02; x00; x00; x00;
            xe9; x00;  x00; x00].
    exists {| size := 12; id := PacketId.MID; type := PacketType.COMMAND;
              body := [0x69; 0] |}.
    repeat split; try (vm_compute; reflexivity); vm_compute; discriminate.
Qed.

(* ================================================================= *)
(** * The reassembler *)

Lemma jsstring_eqb_eq (a b : jsstring) : jsstring_eqb a b = true <-> a = b.
Proof.
  revert b. induction a as [|x a IH]; intros [|y b]; cbn [jsstring_eqb];
    try (split; [discriminate | intros [=]]); [tauto|].
  rewrite andb_true_iff, Z.eqb_eq, IH.
  split; [intros [-> ->]; reflexivity | intros [= -> ->]; auto].
Qed.

Lemma slice_0 (b : Buffer) (n : Z) :
  0 <= n -> slice b 0 n = firstn (Z.to_nat n) b.
Proof.
  intros Hn. unfold slice, adjustOffset, byteLength.
  change (0 <? 0) with false. cbv iota.
  destruct (Z.ltb_spec n 0); [lia|].
  rewrite (Z.min_l 0) by lia. cbn [Z.to_nat skipn].
  destruct (Z.le_ge_cases n (Z.of_nat (length b))).
  - rewrite Z.min_l by lia. f_equal. lia.
  - rewrite Z.min_r by lia. rewrite !firstn_all2 by lia. reflexivity.
Qed.

Lemma slice_from_nonneg (b : Buffer) (n : Z) :
  0 <= n -> slice_from b n = skipn (Z.to_nat n) b.
Proof.
  intros Hn. unfold slice_from, slice, adjustOffset, byteLength.
  destruct (Z.ltb_spec n 0); [lia|].
  destruct (Z.ltb_spec (Z.of_nat (length b)) 0); [lia|].
  rewrite (Z.min_l (Z.of_nat (length b))) by lia.
  destruct (Z.le_ge_cases n (Z.of_nat (length b))).
  - rewrite Z.min_l by lia. apply firstn_all2. rewrite length_skipn. lia.
  - rewrite Z.min_r by lia. rewrite Nat2Z.id.
    rewrite !skipn_all2 by lia. apply firstn_nil.
Qed.

(** A slice from some index on is the buffer or a shorter one. *)
Lemma slice_from_shorter (b : Buffer) (n : Z) :
  slice_from b n = b \/ (length (slice_from b n) < length b)%nat.
Proof.
  unfold slice_from, slice, adjustOffset, byteLength.
  destruct (Z.ltb_spec (Z.of_nat (length b)) 0); [lia|].
  rewrite (Z.min_l (Z.of_nat (length b))) by lia.
  set (s := if n <? 0 then Z.max (n + Z.of_nat (length b)) 0
            else Z.min n (Z.of_nat (length b))).
  assert (Hs : 0 <= s <= Z.of_nat (length b))
    by (subst s; destruct (Z.ltb_spec n 0); lia).
  destruct (Z.eq_dec s 0) as [->|Hne].
  - left. cbn [Z.to_nat skipn]. apply firstn_all2. lia.
  - right. rewrite length_firstn, length_skipn. lia.
Qed.

Lemma decode_turn_short (enc : Encoding) (buf : Buffer) :
  (length buf < 4)%nat -> decode_turn enc buf = Ret Break.
Proof.
  intros H. unfold decode_turn, byteLength.
  destruct (Z.leb_spec 4 (Z.of_nat (length buf))); [lia | reflexivity].
Qed.

(** The turns of the loop: what is left is a slice of the buffer.  A
    turn that drops the broken packet drops 21 bytes that were there. *)
Lemma decode_turn_Skip (enc : Encoding) (buf rest : Buffer) :
  decode_turn enc buf = Ret (Skip rest) ->
  rest = skipn 21 buf /\ (21 <= length buf)%nat.
Proof.
  unfold decode_turn, byteLength.
  destruct (Z.leb_spec 4 (Z.of_nat (length buf))); [|discriminate].
  destruct (readInt32LE buf 0) as [v|]; [|discriminate]. cbn [rbind].
  destruct (Z.eqb_spec v 10) as [->|Hv]; cbn [andb].
  - unfold probeSize.
    destruct (Z.leb_spec 17 (Z.of_nat (length buf))) as [Hl|Hl].
    + destruct (_decodePacket enc (slice buf 0 probePacketSize)) as [d|] eqn:Hd;
        [|discriminate].
      cbn [rbind].
      destruct (jsstring_eqb (body d) broken_body) eqn:Hb.
      * destruct (_bufToHexString (slice buf 0 probePacketSize));
          [|discriminate].
        cbn [rbind]. intros [= <-].
        split; [apply slice_from_nonneg; unfold probePacketSize; lia|].
        apply jsstring_eqb_eq in Hb.
        unfold _decodePacket in Hd.
        destruct (readInt32LE (slice buf 0 probePacketSize) 0); [|discriminate].
        destruct (readInt32LE (slice buf 0 probePacketSize) 4); [|discriminate].
        destruct (readInt32LE (slice buf 0 probePacketSize) 8); [|discriminate].
        cbn [rbind] in Hd. injection Hd as <-. cbn [body] in Hb.
        pose proof (toString_length (slice buf 0 probePacketSize) enc 12
                      (byteLength (slice buf 0 probePacketSize) - 2)) as Hlen.
        rewrite Hb in Hlen. cbn [length broken_body] in Hlen.
        unfold byteLength in Hlen.
        rewrite slice_0, length_firstn in Hlen by (unfold probePacketSize; lia).
        unfold probePacketSize in Hlen. lia.
      * cbn [rbind]. destruct (Z.of_nat (length buf) <? 10 + 4); discriminate.
    + cbn [rbind]. destruct (Z.of_nat (length buf) <? 10 + 4); discriminate.
  - cbn [rbind]. destruct (Z.of_nat (length buf) <? v + 4); discriminate.
Qed.

Lemma decode_turn_Push (enc : Encoding) (buf packet rest : Buffer) :
  decode_turn enc buf = Ret (Push packet rest) ->
  exists v, readInt32LE buf 0 = Ret v
            /\ packet = slice buf 0 (v + 4) /\ rest = slice_from buf (v + 4)
            /\ v + 4 <= byteLength buf.
Proof.
  unfold decode_turn.
  destruct (Z.leb_spec 4 (byteLength buf)); [|discriminate].
  destruct (readInt32LE buf 0) as [v|]; [|discriminate]. cbn [rbind].
  match goal with |- context [rbind ?r _] => destruct r as [[|]|] end;
    cbn [rbind]; try discriminate.
  destruct (Z.ltb_spec (byteLength buf) (v + 4)); [discriminate|].
  intros [= <- <-]. exists v. repeat split; auto.
Qed.

(** The loop itself throws nothing: the reads are inside the buffer. *)
Lemma decode_turn_total (enc : Encoding) (buf : Buffer) :
  exists t, decode_turn enc buf = Ret t.
Proof.
  unfold decode_turn, byteLength.
  destruct (Z.leb_spec 4 (Z.of_nat (length buf))); [|eexists; reflexivity].
  destruct (readInt32LE_Ret buf 0) as [v ->]; [lia|]. cbn [rbind].
  unfold probeSize.
  destruct ((v =? 10) && (17 <=? Z.of_nat (length buf))) eqn:E.
  - apply andb_prop in E as [_ E]. apply Z.leb_le in E.
    assert (Hp : slice buf 0 probePacketSize
                 = firstn 21 buf) by (apply slice_0; unfold probePacketSize; lia).
    assert (Hl : (17 <= length (firstn 21 buf))%nat)
      by (rewrite length_firstn; lia).
    rewrite Hp. unfold _decodePacket.
    destruct (readInt32LE_Ret (firstn 21 buf) 0) as [v0 ->]; [lia|].
    destruct (readInt32LE_Ret (firstn 21 buf) 4) as [v1 ->]; [lia|].
    destruct (readInt32LE_Ret (firstn 21 buf) 8) as [v2 ->]; [lia|].
    cbn [rbind body].
    destruct (jsstring_eqb _ broken_body).
    + destruct (firstn 21 buf); [cbn [length] in Hl; lia|].
      cbn [_bufToHexString rbind]. eexists. reflexivity.
    + cbn [rbind]. destruct (Z.of_nat (length buf) <? v + 4);
        eexists; reflexivity.
  - cbn [rbind]. destruct (Z.of_nat (length buf) <? v + 4);
      eexists; reflexivity.
Qed.

Lemma decode_loop_never_throws (enc : Encoding) (fuel : nat) :
  forall buf packets e, fst (decode_loop enc fuel buf packets) <> Thrown e.
Proof.
  induction fuel as [|fuel IH]; intros buf packets e; [discriminate|].
  cbn [decode_loop]. destruct (decode_turn_total enc buf) as [t ->].
  destruct t; [discriminate | apply IH | apply IH].
Qed.

(** A turn that pushes a packet and leaves the buffer as it was is
    repeated for ever. *)
Lemma decode_loop_stuck (enc : Encoding) (buf packet : Buffer) :
  decode_turn enc buf = Ret (Push packet buf) ->
  forall fuel packets, decode_loop enc fuel buf packets = (Diverges, buf).
Proof.
  intros H fuel. induction fuel as [|fuel IH]; intros packets.
  - reflexivity.
  - cbn [decode_loop]. rewrite H. apply IH.
Qed.

(** More turns than [S (length buf)] change nothing: the loop runs out of
    them only when it does not end. *)
Lemma decode_loop_fuel (enc : Encoding) (buf : Buffer) :
  forall fuel packets,
    (length buf < fuel)%nat ->
    decode_loop enc fuel buf packets
    = decode_loop enc (S (length buf)) buf packets.
Proof.
  remember (length buf) as k eqn:Hk. revert buf Hk.
  induction k as [k IH] using lt_wf_ind. intros buf Hk fuel packets Hf.
  destruct fuel as [|fuel]; [lia|].
  cbn [decode_loop].
  destruct (decode_turn enc buf) as [[|rest|packet rest]|] eqn:Ht;
    try reflexivity.
  - apply decode_turn_Skip in Ht as [-> Hl].
    assert (Hr : (length (skipn 21 buf) < k)%nat)
      by (rewrite length_skipn; lia).
    rewrite (IH _ Hr _ eq_refl fuel) by lia.
    rewrite (IH _ Hr _ eq_refl k) by lia. reflexivity.
  - pose proof Ht as Hp.
    apply decode_turn_Push in Hp as (v & _ & _ & -> & _).
    destruct (slice_from_shorter buf (v + 4)) as [He|Hr].
    + rewrite He in *. rewrite !(decode_loop_stuck _ _ _ Ht). reflexivity.
    + rewrite <- Hk in Hr.
      rewrite (IH _ Hr _ eq_refl fuel) by lia.
      rewrite (IH _ Hr _ eq_refl k) by lia. reflexivity.
Qed.

(** The packets found so far are only carried along. *)
Lemma decode_loop_packets (enc : Encoding) (fuel : nat) :
  forall buf packets,
    decode_loop enc fuel buf packets
    = match decode_loop enc fuel buf [] with
      | (Normal found, rest) => (Normal (packets ++ found), rest)
      | r => r
      end.
Proof.
  induction fuel as [|fuel IH]; intros buf packets; [reflexivity|].
  cbn [decode_loop].
  destruct (decode_turn enc buf) as [[|rest|packet rest]|]; try reflexivity.
  - rewrite app_nil_r. reflexivity.
  - apply IH.
  - rewrite IH. rewrite (IH rest ([] ++ [packet])).
    destruct (decode_loop enc fuel rest []) as [[found| |] r]; try reflexivity.
    rewrite <- app_assoc. reflexivity.
Qed.

Lemma readInt32LE_prefix (a b : Buffer) :
  (4 <= length a)%nat -> readInt32LE (a ++ b) 0 = readInt32LE a 0.
Proof.
  intros H. destruct a as [|b0 [|b1 [|b2 [|b3 a]]]]; cbn [length] in H; try lia.
  reflexivity.
Qed.

(** The broken packet at the head of the buffer is dropped. *)
Lemma decode_turn_broken (enc : Encoding) (frame rest : Buffer)
    (d : DecodedRconPacket) :
  length frame = 21%nat -> readInt32LE frame 0 = Ret 10 ->
  _decodePacket enc frame = Ret d -> body d = broken_body ->
  decode_turn enc (frame ++ rest) = Ret (Skip rest).
Proof.
  intros Hl Hs Hd Hb. unfold decode_turn, byteLength.
  rewrite length_app, Hl.
  destruct (Z.leb_spec 4 (Z.of_nat (21 + length rest))); [|lia].
  rewrite readInt32LE_prefix, Hs by lia. cbn [rbind].
  change (10 =? 10) with true. unfold probeSize, probePacketSize.
  destruct (Z.leb_spec 17 (Z.of_nat (21 + length rest))); [|lia].
  cbn [andb].
  rewrite slice_0 by lia.
  replace (Z.to_nat 21) with (length frame + 0)%nat by lia.
  rewrite firstn_app_2. cbn [firstn]. rewrite app_nil_r.
  rewrite Hd. cbn [rbind].
  apply jsstring_eqb_eq in Hb. rewrite Hb.
  destruct frame; [discriminate Hl|]. cbn [_bufToHexString rbind].
  rewrite slice_from_nonneg by lia.
  replace (Z.to_nat 21) with (length (b :: frame)) by lia.
  rewrite skipn_app, skipn_all, Nat.sub_diag. reflexivity.
Qed.

(** A packet of declared size 10 that the probe does not take for the
    broken one is pushed. *)
Lemma decode_turn_not_broken (enc : Encoding) (buf : Buffer)
    (d : DecodedRconPacket) :
  readInt32LE buf 0 = Ret 10 -> (17 <= length buf)%nat ->
  _decodePacket enc (slice buf 0 probePacketSize) = Ret d ->
  body d <> broken_body ->
  decode_turn enc buf = Ret (Push (firstn 14 buf) (skipn 14 buf)).
Proof.
  intros Hs Hl Hd Hb. unfold decode_turn, byteLength.
  destruct (Z.leb_spec 4 (Z.of_nat (length buf))); [|lia].
  rewrite Hs. cbn [rbind]. change (10 =? 10) with true. unfold probeSize.
  destruct (Z.leb_spec 17 (Z.of_nat (length buf))); [|lia].
  cbn [andb]. rewrite Hd. cbn [rbind].
  destruct (jsstring_eqb (body d) broken_body) eqn:E;
    [apply jsstring_eqb_eq in E; contradiction|].
  cbn [rbind].
  destruct (Z.ltb_spec (Z.of_nat (length buf)) (10 + 4)); [lia|].
  rewrite slice_0, slice_from_nonneg by lia. reflexivity.
Qed.

Lemma decode_loop_S (enc : Encoding) (fuel : nat) (buf : Buffer)
    (packets : list Buffer) :
  decode_loop enc (S fuel) buf packets
  = match decode_turn enc buf with
    | Throw e => (Thrown e, buf)
    | Ret Break => (Normal packets, buf)
    | Ret (Skip rest) => decode_loop enc fuel rest packets
    | Ret (Push packet rest) => decode_loop enc fuel rest (packets ++ [packet])
    end.
Proof. reflexivity. Qed.

Lemma feed_Skip (enc : Encoding) (buf rest : Buffer) :
  decode_turn enc buf = Ret (Skip rest) ->
  feed enc [] buf = feed enc [] rest.
Proof.
  intros H. unfold feed. cbn [app].
  rewrite (decode_loop_S enc (length buf)), H.
  apply decode_turn_Skip in H as [-> Hl].
  apply decode_loop_fuel. rewrite length_skipn. lia.
Qed.

Lemma feed_Push (enc : Encoding) (buf packet rest : Buffer) :
  decode_turn enc buf = Ret (Push packet rest) ->
  (length rest < length buf)%nat ->
  feed enc [] buf = with_packet packet (feed enc [] rest).
Proof.
  intros H Hl. unfold feed. cbn [app].
  rewrite (decode_loop_S enc (length buf)), H.
  rewrite decode_loop_fuel by lia. rewrite decode_loop_packets.
  unfold with_packet.
  destruct (decode_loop enc (S (length rest)) rest []) as [[found| |] r];
    reflexivity.
Qed.

Lemma feed_buffer (enc : Encoding) (incomingData data : Buffer) :
  feed enc incomingData data = feed enc [] (incomingData ++ data).
Proof. reflexivity. Qed.

(** C3: when the reassembler's buffer, with the data just received, starts
    with 21 bytes whose declared size is 10 and whose decoded body is the
    pattern of the broken packet, [_decodeData] returns what it returns on
    the bytes that follow: no packet comes out of the 21 bytes, and just
    these are removed -- with nothing behind them no packet is returned
    and the buffer is left empty.  When the declared size is 10 and the
    body of the probe is not the pattern, the first 14 bytes are returned
    as a packet, before those of the rest.  And a turn of the loop that
    drops bytes without returning them always drops 21 of them. *)
Theorem quirk_suppression (enc : Encoding) :
  (forall incomingData data frame rest d,
      incomingData ++ data = frame ++ rest ->
      length frame = 21%nat -> readInt32LE frame 0 = Ret 10 ->
      _decodePacket enc frame = Ret d -> body d = broken_body ->
      feed enc incomingData data = feed enc [] rest
      /\ (rest = [] -> feed enc incomingData data = (Normal [], [])))
  /\ (forall incomingData data d,
      let buf := incomingData ++ data in
      readInt32LE buf 0 = Ret 10 -> (17 <= length buf)%nat ->
      _decodePacket enc (slice buf 0 probePacketSize) = Ret d ->
      body d <> broken_body ->
      feed enc incomingData data
      = with_packet (firstn 14 buf) (feed enc [] (skipn 14 buf)))
  /\ (forall buf rest,
      decode_turn enc buf = Ret (Skip rest) ->
      rest = skipn 21 buf /\ length buf = (21 + length rest)%nat).
Proof.
  split; [|split].
  - intros incomingData data frame rest d Hbuf Hl Hs Hd Hb.
    rewrite feed_buffer, Hbuf.
    rewrite (feed_Skip enc _ rest)
      by (eapply decode_turn_broken; eassumption).
    split; [reflexivity | intros ->; reflexivity].
  - intros incomingData data d buf Hs Hl Hd Hb.
    rewrite feed_buffer. fold buf.
    apply feed_Push.
    + eapply decode_turn_not_broken; eassumption.
    + rewrite length_skipn. lia.
  - intros buf rest H. apply decode_turn_Skip in H as [-> Hl].
    split; [reflexivity | rewrite length_skipn; lia].
Qed.

Lemma quirk_suppression_witness :
  feed enc_utf8 [] (broken_packet ++ empty_packet) = feed enc_utf8 [] empty_packet
  /\ feed enc_utf8 broken_packet [] = (Normal [], [])
  /\ feed enc_utf8 [] (empty_packet ++ empty_packet)
     = with_packet empty_packet (feed enc_utf8 [] empty_packet).
Proof.
  pose proof (quirk_suppression enc_utf8) as (H1 & H2 & _).
  split; [|split].
  - eapply (H1 [] (broken_packet ++ empty_packet) broken_packet empty_packet);
      vm_compute; reflexivity.
  - eapply (H1 broken_packet [] broken_packet []); vm_compute; reflexivity.
  - eapply (H2 [] (empty_packet ++ empty_packet)
              {| size := 10; id := 2; type := 0;
                 body := [0; 0; 10; 0; 0; 0; 2] |});
      [vm_compute; reflexivity | cbn; lia | vm_compute; reflexivity
      | discriminate].
Defined.

(** ** One packet, cut anywhere *)

Section OnePacket.
Variable enc : Encoding.
Variable pkt : Buffer.
Variable v : Z.
Hypothesis pkt_size : readInt32LE pkt 0 = Ret v.
Hypothesis pkt_length : byteLength pkt = v + 4.
Hypothesis pkt_header : (4 <= length pkt)%nat.

(** Before the last byte is there, the loop waits. *)
Lemma packet_part_waits (a b : Buffer) :
  a ++ b = pkt -> b <> [] -> decode_turn enc a = Ret Break.
Proof.
  intros Hab Hb.
  assert (Hl : (length a < length pkt)%nat).
  { rewrite <- Hab, length_app. destruct b; [contradiction | cbn; lia]. }
  destruct (Nat.lt_ge_cases (length a) 4) as [Hs|Hs];
    [apply decode_turn_short, Hs|].
  unfold decode_turn. unfold byteLength in *.
  destruct (Z.leb_spec 4 (Z.of_nat (length a))); [|lia].
  rewrite <- (readInt32LE_prefix a b), Hab, pkt_size by assumption.
  cbn [rbind]. unfold probeSize.
  destruct (Z.eqb_spec v 10) as [Hv|Hv];
    [destruct (Z.leb_spec 17 (Z.of_nat (length a))); [lia|]|];
    cbn [andb rbind];
    (destruct (Z.ltb_spec (Z.of_nat (length a)) (v + 4)); [reflexivity | lia]).
Qed.

(** With the last byte the packet is pushed and the buffer is empty. *)
Lemma packet_whole_pushed : decode_turn enc pkt = Ret (Push pkt []).
Proof.
  unfold decode_turn. unfold byteLength in *.
  destruct (Z.leb_spec 4 (Z.of_nat (length pkt))); [|lia].
  rewrite pkt_size. cbn [rbind]. unfold probeSize.
  destruct (Z.eqb_spec v 10) as [Hv|Hv];
    [destruct (Z.leb_spec 17 (Z.of_nat (length pkt))); [lia|]|];
    cbn [andb rbind];
    (destruct (Z.ltb_spec (Z.of_nat (length pkt)) (v + 4)); [lia|]);
    rewrite slice_0, slice_from_nonneg by lia;
    rewrite <- pkt_length, Nat2Z.id, firstn_all, skipn_all; reflexivity.
Qed.

Lemma packet_part_waits_feed (a b : Buffer) :
  a ++ b = pkt -> b <> [] -> feed enc [] a = (Normal [], a).
Proof.
  intros Hab Hb. unfold feed. cbn [app].
  rewrite decode_loop_S, (packet_part_waits a b Hab Hb). reflexivity.
Qed.

Lemma feed_whole : feed enc [] pkt = (Normal [pkt], []).
Proof.
  unfold feed. cbn [app]. rewrite decode_loop_S, packet_whole_pushed.
  destruct (length pkt) as [|n] eqn:E; [lia|]. reflexivity.
Qed.

Lemma feed_chunks_nothing (chunks : list Buffer) :
  concat chunks = [] -> feed_chunks enc [] chunks = (Normal [], []).
Proof.
  induction chunks as [|c cs IH]; [reflexivity|]. cbn [concat].
  intros H. apply app_eq_nil in H as [-> H].
  cbn [feed_chunks].
  change (feed enc [] []) with (@Normal (list Buffer) [], @nil byte).
  cbv beta iota. rewrite IH by assumption. reflexivity.
Qed.

Lemma feed_chunks_packet (chunks : list Buffer) :
  forall acc, acc ++ concat chunks = pkt -> (length acc < length pkt)%nat ->
              feed_chunks enc acc chunks = (Normal [pkt], []).
Proof.
  induction chunks as [|c cs IH]; intros acc Hacc Hl.
  - cbn [concat] in Hacc. rewrite app_nil_r in Hacc. subst acc. lia.
  - cbn [concat] in Hacc. rewrite app_assoc in Hacc.
    cbn [feed_chunks]. rewrite feed_buffer.
    destruct (concat cs) as [|x rest] eqn:Hcs.
    + rewrite app_nil_r in Hacc. rewrite Hacc, feed_whole.
      rewrite feed_chunks_nothing by assumption. reflexivity.
    + rewrite (packet_part_waits_feed (acc ++ c) (x :: rest) Hacc)
        by discriminate.
      rewrite IH.
      * reflexivity.
      * exact Hacc.
      * rewrite <- Hacc, (length_app (acc ++ c)). cbn [length]. lia.
Qed.
End OnePacket.

Lemma _encodePacket_header (enc : Encoding) (ty i : Z) (s : jsstring)
    (pkt : Buffer) :
  _encodePacket enc ty i s = Ret pkt ->
  readInt32LE pkt 0 = Ret (Buffer_byteLength s + 10)
  /\ byteLength pkt = Buffer_byteLength s + 10 + 4
  /\ exists d, _decodePacket enc pkt = Ret d /\ id d = i /\ type d = ty
               /\ size d = Buffer_byteLength s + 10.
Proof.
  intros He.
  apply _encodePacket_layout in He as [(Hn & Hi & Ht) ->].
  pose proof (encode_upto_length enc s) as HE.
  set (n := length (concat (utf8_chunks s))) in *.
  set (E := encode_upto enc s (n + 2)) in *.
  assert (Hn' : int32_min <= Z.of_nat n + 10 <= int32_max)
    by (unfold int32_min; lia).
  unfold Buffer_byteLength, byteLength. fold n. split; [|split].
  - apply readInt32LE_int32LE, Hn'.
  - rewrite !length_app, repeat_length. cbn [length int32LE]. lia.
  - rewrite (app_assoc E).
    rewrite _decodePacket_layout by assumption.
    eexists. split; [reflexivity|]. cbn. auto.
Qed.

(** C6: for every packet returned by [_encodePacket] and every way of
    cutting its bytes into chunks (empty ones and single bytes included),
    feeding the chunks in order to a reassembler whose buffer is empty
    returns, over all the calls, exactly that packet and leaves the buffer
    empty, as feeding the packet in one call does; the packet decodes to a
    frame with the id, the type and the declared size it was encoded
    with; and a call that has not yet received the last byte returns no
    packet and keeps the bytes received so far in the buffer. *)
Theorem chunk_boundary_independence (enc : Encoding) (ty i : Z)
    (s : jsstring) (pkt : Buffer) (chunks : list Buffer) :
  _encodePacket enc ty i s = Ret pkt ->
  concat chunks = pkt ->
  feed_chunks enc [] chunks = (Normal [pkt], [])
  /\ feed enc [] pkt = (Normal [pkt], [])
  /\ (exists d, _decodePacket enc pkt = Ret d /\ id d = i /\ type d = ty
                /\ size d = Buffer_byteLength s + 10)
  /\ (forall a b, a ++ b = pkt -> b <> [] -> feed enc [] a = (Normal [], a)).
Proof.
  intros He Hc.
  destruct (_encodePacket_header enc ty i s pkt He) as (Hs & Hl & Hd).
  assert (H4 : (4 <= length pkt)%nat).
  { unfold byteLength, Buffer_byteLength, byteLength in Hl. lia. }
  split; [|split; [|split]].
  - eapply feed_chunks_packet; try eassumption. cbn [length]. lia.
  - eapply feed_whole; eassumption.
  - exact Hd.
  - intros a b. eapply packet_part_waits_feed; eassumption.
Qed.

Lemma chunk_boundary_independence_witness :
  feed_chunks enc_utf8 [] (map (fun b => [b]) ShowNextMap_packet)
  = (Normal [ShowNextMap_packet], [])
  /\ feed_chunks enc_utf8 []
       [firstn 3 ShowNextMap_packet; []; skipn 3 ShowNextMap_packet]
     = (Normal [ShowNextMap_packet], []).
Proof.
  split.
  - apply (chunk_boundary_independence enc_utf8 PacketType.COMMAND
             PacketId.MID (js "ShowNextMap") ShowNextMap_packet
             (map (fun b => [b]) ShowNextMap_packet)); vm_compute; reflexivity.
  - apply (chunk_boundary_independence enc_utf8 PacketType.COMMAND
             PacketId.MID (js "ShowNextMap") ShowNextMap_packet
             [firstn 3 ShowNextMap_packet; []; skipn 3 ShowNextMap_packet]);
      vm_compute; reflexivity.
Defined.

(** C10: the probe reads past the end of a packet.  An empty response
    (declared size 10) directly followed in the buffer by a chat packet
    that declares 256 and has id 0 makes the 21 bytes of the probe decode
    to the body of the broken packet: the turn drops these 21 bytes, that
    is the empty response and the first 7 bytes of the chat packet, and
    [_decodeData] returns no packet at all.  Received in two calls, the
    same two packets are both returned. *)
Theorem quirk_probe_crosses_frames :
  _encodePacket enc_utf8 PacketResponseType.RESPONSE_VALUE PacketId.END []
  = Ret empty_packet
  /\ _encodePacket enc_utf8 PacketResponseType.CHAT_VALUE 0 (repeat 0x61 246)
     = Ret long_chat_packet
  /\ decode_turn enc_utf8 (empty_packet ++ long_chat_packet)
     = Ret (Skip (skipn 7 long_chat_packet))
  /\ feed enc_utf8 [] (empty_packet ++ long_chat_packet)
     = (Normal [], skipn 7 long_chat_packet)
  /\ length (empty_packet ++ long_chat_packet)
     = (21 + length (skipn 7 long_chat_packet))%nat
  /\ feed_chunks enc_utf8 [] [empty_packet; long_chat_packet]
     = (Normal [empty_packet; long_chat_packet], []).
Proof. repeat split; vm_compute; reflexivity. Qed.

(* ================================================================= *)
(** * The writer *)

(** Unfolding the updates of a state that is given field by field. *)
Ltac state_eq :=
  cbv [run ending fst snd bind ret get modify lift emit new_closure
       modify_client client_once_error client_removeListener_error
       client_once_connect client_removeListener_connect client_write
       client_connect command_written responded
       set_incomingData set_incomingResponse set_responseCallbackQueue
       set_connected set_autoReconnect set_client set_emitted set_timeouts
       set_closures set_written set_writable set_once_connect set_once_error
       set_connect_calls
       _maximumPacketSize _encoding _password _incomingData
       _incomingResponse _responseCallbackQueue _connected _autoReconnect
       _autoReconnectDelay _client emitted timeouts closures
       writable written once_connect once_error connect_calls].

Lemma _encodePacket_nonempty (enc : Encoding) (ty i : Z) (s : jsstring)
    (pkt : Buffer) :
  _encodePacket enc ty i s = Ret pkt -> _bufToHexString pkt = Ret tt.
Proof.
  intros H. apply _encodePacket_layout in H as [_ ->]. reflexivity.
Qed.

(** C7: a call of [_write] (so of [execute]) whose encoded packet is
    longer than [_maximumPacketSize] returns normally and changes nothing
    of the instance but the trace of events, to which it adds one error:
    nothing is written to the socket and the queue of callbacks is as it
    was.  On a connected, writable socket the error is 'Packet too
    long.'. *)
Theorem oversize_command_rejected (this : Rcon) (ty : Z) (s : jsstring)
    (pkt : Buffer) :
  _encodePacket (_encoding this) ty
    (if negb (ty =? PacketType.AUTH) then PacketId.MID else PacketId.END) s
  = Ret pkt ->
  _maximumPacketSize this < byteLength pkt ->
  exists err,
    _write ty s this
    = (Normal tt, set_emitted (emitted this ++ [ev_error err]) this)
    /\ written (_client (run (_write ty s) this)) = written (_client this)
    /\ _responseCallbackQueue (run (_write ty s) this)
       = _responseCallbackQueue this
    /\ (_connected this = true -> writable (_client this) = true ->
        err = Packet_too_long).
Proof.
  intros He Hmax.
  assert (Hw : exists err,
             _write ty s this
             = (Normal tt, set_emitted (emitted this ++ [ev_error err]) this)
             /\ (_connected this = true -> writable (_client this) = true ->
                 err = Packet_too_long)).
  { unfold _write, bind, get.
    destruct (_connected this) eqn:Hc; cbn [negb].
    2:{ exists Not_connected. split; [reflexivity | discriminate]. }
    destruct (writable (_client this)) eqn:Hwr; cbn [negb].
    2:{ exists Unable_to_write. split; [reflexivity | discriminate]. }
    rewrite He. cbn [lift].
    rewrite (_encodePacket_nonempty _ _ _ _ _ He). cbn [lift].
    pose proof (_encodePacket_layout _ _ _ _ _ He) as [(_ & _ & Ht) _].
    destruct (_encodePacket_empty (_encoding this) ty PacketId.END)
      as (e & Hempty & Hne);
      [unfold int32_min, int32_max, PacketId.END; lia | exact Ht |].
    rewrite Hempty. cbn [lift].
    destruct e as [|b e]; [contradiction|]. cbn [_bufToHexString lift].
    apply Z.ltb_lt in Hmax. rewrite Hmax.
    exists Packet_too_long. split; reflexivity. }
  destruct Hw as (err & Hw & Herr). exists err.
  unfold run. rewrite Hw. repeat split; auto.
Qed.

Lemma oversize_command_rejected_witness :
  let this := set_connected true
                (set_client {| writable := true; written := [];
                               once_connect := []; once_error := [];
                               connect_calls := 1 |}
                   (new_Rcon None (Some 20) None)) in
  _write PacketType.COMMAND (js "ShowNextMap") this
  = (Normal tt, set_emitted [ev_error Packet_too_long] this).
Proof.
  intros this.
  destruct (oversize_command_rejected this PacketType.COMMAND
              (js "ShowNextMap") ShowNextMap_packet)
    as (err & Hw & _ & _ & Herr);
    [vm_compute; reflexivity | vm_compute; reflexivity |].
  rewrite Hw, Herr; reflexivity.
Defined.

(* ================================================================= *)
(** * The dispatcher *)

(** C9: when an End-tagged packet of type [RESPONSE_VALUE] or
    [RESPONSE_AUTH] is dispatched while the queue of callbacks is empty,
    [shift()] yields [undefined] and the call throws a [TypeError]; nothing
    catches it in [_socketOnData], nothing is emitted and the fragments
    gathered so far stay.  So does [_socketOnData] on the bytes of such a
    packet. *)
Theorem dispatch_empty_queue_throws (this : Rcon) :
  _responseCallbackQueue this = [] ->
  (forall d,
      type d = PacketResponseType.RESPONSE_VALUE
      \/ type d = PacketResponseType.RESPONSE_AUTH ->
      id d = PacketId.END ->
      dispatch d this = (Thrown TypeError, this))
  /\ (forall ty s pkt,
      ty = PacketResponseType.RESPONSE_VALUE
      \/ ty = PacketResponseType.RESPONSE_AUTH ->
      _encodePacket (_encoding this) ty PacketId.END s = Ret pkt ->
      _incomingData this = [] ->
      _socketOnData pkt this = (Thrown TypeError, this)).
Proof.
  intros Hq.
  assert (Hd : forall d,
             type d = PacketResponseType.RESPONSE_VALUE
             \/ type d = PacketResponseType.RESPONSE_AUTH ->
             id d = PacketId.END ->
             dispatch d this = (Thrown TypeError, this)).
  { intros d Ht Hi. unfold dispatch. rewrite Hi.
    replace ((type d =? PacketResponseType.RESPONSE_VALUE)
             || (type d =? PacketResponseType.RESPONSE_AUTH)) with true
      by (destruct Ht as [-> | ->]; reflexivity).
    change (PacketId.END =? PacketId.MID) with false.
    change (PacketId.END =? PacketId.END) with true. cbv iota.
    destruct this. cbn in Hq. subst. reflexivity. }
  split; [exact Hd|].
  intros ty s pkt Hty He Hi.
  destruct (_encodePacket_header _ _ _ _ _ He)
    as (Hs & Hl & d & Hdec & Hid & Htype & _).
  assert (H4 : (4 <= length pkt)%nat).
  { unfold byteLength, Buffer_byteLength, byteLength in Hl. lia. }
  unfold _socketOnData, bind.
  rewrite (_encodePacket_nonempty _ _ _ _ _ He). cbn [lift].
  unfold _decodeData. rewrite Hi.
  rewrite (feed_whole (_encoding this) pkt _ Hs Hl H4).
  cbn [for_of]. unfold bind, get. cbn [_encoding set_incomingData].
  rewrite Hdec. cbn [lift].
  replace (set_incomingData [] this) with this
    by (destruct this; cbn in Hi; subst; reflexivity).
  rewrite Hd; [reflexivity | rewrite Htype; exact Hty | exact Hid].
Qed.

Lemma dispatch_empty_queue_throws_witness :
  _socketOnData empty_packet (new_Rcon None None None)
  = (Thrown TypeError, new_Rcon None None None).
Proof.
  apply (proj2 (dispatch_empty_queue_throws (new_Rcon None None None) eq_refl)
           PacketResponseType.RESPONSE_VALUE [] empty_packet);
    [left; reflexivity | vm_compute; reflexivity | reflexivity].
Defined.

Lemma dispatch_fragment (this : Rcon) (d : DecodedRconPacket) :
  is_fragment d = true ->
  dispatch d this
  = (Normal tt, set_incomingResponse (_incomingResponse this ++ [d]) this).
Proof.
  unfold is_fragment, is_response, dispatch. intros H.
  apply andb_prop in H as [-> ->]. reflexivity.
Qed.

Lemma dispatch_chat (this : Rcon) (d : DecodedRconPacket) :
  is_chat d = true ->
  dispatch d this
  = (Normal tt, set_emitted (emitted this ++ [ev_chat (body d)]) this).
Proof.
  unfold is_chat, dispatch. intros H. rewrite H.
  apply Z.eqb_eq in H. rewrite H. reflexivity.
Qed.

Lemma dispatch_end_response (this : Rcon) (d : DecodedRconPacket)
    (k : nat) (q : list Callback) :
  is_end d = true ->
  _responseCallbackQueue this = cb_response k :: q ->
  dispatch d this
  = (Normal tt,
     set_incomingResponse []
       (responded k (join_default (map body (_incomingResponse this)))
          (set_responseCallbackQueue q this))).
Proof.
  unfold is_end, is_response, dispatch. intros H Hq.
  apply andb_prop in H as [-> Hi]. apply Z.eqb_eq in Hi. rewrite Hi.
  change (PacketId.END =? PacketId.MID) with false.
  change (PacketId.END =? PacketId.END) with true. cbv iota.
  unfold bind, get, modify. rewrite Hq. reflexivity.
Qed.

Lemma for_of_app {A} (l1 l2 : list A) (f : A -> M unit) (this : Rcon) :
  for_of (l1 ++ l2) f this = (for_of l1 f ;; for_of l2 f) this.
Proof.
  revert this. induction l1 as [|x l1 IH]; intros this.
  - cbn [app for_of]. unfold bind, ret. reflexivity.
  - cbn [app for_of]. unfold bind in *.
    destruct (f x this) as [[[]| |] this']; try reflexivity. apply IH.
Qed.

(** Fragments and chat packets in any order: the fragments go to
    [_incomingResponse], the chat bodies are emitted, nothing else
    changes. *)
Lemma dispatch_fragments_and_chat (frames : list DecodedRconPacket) :
  forallb (fun d => is_fragment d || is_chat d) frames = true ->
  forall this,
    for_of frames dispatch this
    = (Normal tt,
       set_emitted (emitted this ++ chats frames)
         (set_incomingResponse
            (_incomingResponse this ++ filter is_fragment frames) this)).
Proof.
  induction frames as [|d frames IH]; intros H this.
  - cbn. rewrite !app_nil_r. destruct this; reflexivity.
  - cbn [forallb] in H. apply andb_prop in H as [Hd H].
    cbn [for_of]. unfold bind.
    assert (Hx : is_fragment d = true /\ is_chat d = false
                 \/ is_fragment d = false /\ is_chat d = true).
    { unfold is_fragment, is_response, is_chat in *.
      destruct (Z.eqb_spec (type d) PacketResponseType.CHAT_VALUE) as [E|E].
      - rewrite E. right. split; reflexivity.
      - left. rewrite orb_false_r in Hd. split; [exact Hd | reflexivity]. }
    destruct Hx as [[Hf Hc] | [Hf Hc]].
    + rewrite (dispatch_fragment _ _ Hf), (IH H).
      unfold chats. cbn [filter]. rewrite Hf, Hc.
      destruct this; cbn. rewrite <- app_assoc. reflexivity.
    + rewrite (dispatch_chat _ _ Hc), (IH H).
      unfold chats. cbn [filter map]. rewrite Hf, Hc.
      destruct this; cbn. rewrite <- app_assoc. reflexivity.
Qed.

Lemma is_chat_not_fragment (d : DecodedRconPacket) :
  is_chat d = true -> is_fragment d = false.
Proof.
  unfold is_chat, is_fragment, is_response. intros H.
  apply Z.eqb_eq in H. rewrite H. reflexivity.
Qed.

Lemma only_chat (frames : list DecodedRconPacket) :
  forallb is_chat frames = true ->
  forallb (fun d => is_fragment d || is_chat d) frames = true
  /\ filter is_fragment frames = [].
Proof.
  induction frames as [|d frames IH]; [split; reflexivity|].
  cbn [forallb filter]. intros H. apply andb_prop in H as [Hd H].
  destruct (IH H) as [IH1 IH2].
  rewrite Hd, (is_chat_not_fragment _ Hd), orb_true_r, IH1, IH2.
  split; reflexivity.
Qed.

(** An accepted command: both packets are written, one callback is
    queued, nothing is emitted. *)
Lemma execute_accepted (this : Rcon) (command : jsstring) (pkt : Buffer) :
  _connected this = true -> writable (_client this) = true ->
  _encodePacket (_encoding this) PacketType.COMMAND PacketId.MID command
  = Ret pkt ->
  byteLength pkt <= _maximumPacketSize this ->
  execute command this = (Normal tt, command_written pkt this).
Proof.
  intros Hc Hw He Hmax. unfold execute, _write, bind, get.
  rewrite Hc, Hw. cbn [negb].
  change (negb (PacketType.COMMAND =? PacketType.AUTH)) with true.
  change (PacketType.COMMAND =? PacketType.AUTH) with false. cbv iota.
  rewrite He. cbn [lift].
  rewrite (_encodePacket_nonempty _ _ _ _ _ He). cbn [lift].
  replace (_encodePacket (_encoding this) PacketType.COMMAND PacketId.END [])
    with (Ret empty_command_packet) by (destruct (_encoding this); reflexivity).
  cbn [lift empty_command_packet _bufToHexString].
  destruct (Z.ltb_spec (_maximumPacketSize this) (byteLength pkt)); [lia|].
  clear. destruct this as [? ? ? ? ? ? ? ? ? [? ? ? ? ?] ? ? ?].
  state_eq. rewrite <- app_assoc. reflexivity.
Qed.

(** C2, on the code: with the callback of a command at the head of the
    queue and no fragment gathered, three Mid-tagged response packets with
    bodies "foo", "bar", "baz" and an End-tagged one make the dispatcher
    call that callback once, retire it and empty the fragments -- but the
    string it receives, emitted as [response], is "foo,bar,baz":
    [join()] puts a comma between the fragments.  The body of the End
    packet is not part of it. *)
Theorem multi_fragment_join_has_commas (this : Rcon) (k : nat)
    (q : list Callback) (f1 f2 f3 e : DecodedRconPacket) :
  _responseCallbackQueue this = cb_response k :: q ->
  _incomingResponse this = [] ->
  is_fragment f1 = true -> body f1 = js "foo" ->
  is_fragment f2 = true -> body f2 = js "bar" ->
  is_fragment f3 = true -> body f3 = js "baz" ->
  is_end e = true ->
  let m := for_of [f1; f2; f3; e] dispatch in
  ending m this = Normal tt
  /\ emitted (run m this) = emitted this ++ [ev_response (js "foo,bar,baz")]
  /\ js "foo,bar,baz" <> js "foobarbaz"
  /\ _responseCallbackQueue (run m this) = q
  /\ _incomingResponse (run m this) = [].
Proof.
  intros Hq Hacc Hf1 Hb1 Hf2 Hb2 Hf3 Hb3 He m.
  subst m. unfold ending, run. cbn [for_of]. unfold bind.
  rewrite (dispatch_fragment _ _ Hf1).
  rewrite (dispatch_fragment _ _ Hf2).
  rewrite (dispatch_fragment _ _ Hf3).
  erewrite dispatch_end_response;
    [| exact He | destruct this; cbn in *; subst; reflexivity].
  destruct this as [? ? ? ? ? ? ? ? ? [? ? ? ? ?] ? ? ?].
  cbn in Hq, Hacc. subst. state_eq. cbn [app map].
  rewrite Hb1, Hb2, Hb3.
  repeat split; try reflexivity. discriminate.
Qed.

Lemma multi_fragment_join_has_commas_witness :
  let this := run (execute (js "ShowNextMap")) authed_instance in
  let m := for_of [decoded_frame 0 1 (js "foo"); decoded_frame 0 1 (js "bar");
                   decoded_frame 0 1 (js "baz"); decoded_frame 0 2 []] dispatch in
  emitted (run m this)
  = [ev_connect; ev_authed; ev_response (js "foo,bar,baz")].
Proof.
  intros this m.
  apply (multi_fragment_join_has_commas this 2 []
           (decoded_frame 0 1 (js "foo")) (decoded_frame 0 1 (js "bar"))
           (decoded_frame 0 1 (js "baz")) (decoded_frame 0 2 []));
    vm_compute; reflexivity.
Defined.

(* ================================================================= *)
(** * The callback of the AUTH packet *)

Lemma dispatch_end_auth (this : Rcon) (d : DecodedRconPacket) (k : nat)
    (q : list Callback) :
  is_end d = true ->
  _responseCallbackQueue this = cb_auth k :: q ->
  dispatch d this
  = (Normal tt,
     set_incomingResponse []
       (set_emitted (emitted this ++ [ev_authed])
          (set_autoReconnect true
             (set_client
                (set_once_error
                   (remove_last ErrorListener_eqb (write_onError k)
                      (once_error (_client this)))
                   (_client this))
                (set_responseCallbackQueue q this))))).
Proof.
  unfold is_end, is_response, dispatch. intros H Hq.
  apply andb_prop in H as [-> Hi]. apply Z.eqb_eq in Hi. rewrite Hi.
  change (PacketId.END =? PacketId.MID) with false.
  change (PacketId.END =? PacketId.END) with true. cbv iota.
  unfold bind, get, modify. rewrite Hq. reflexivity.
Qed.

(* ================================================================= *)
(** * Dropped connections *)

Lemma survives_refl (this : Rcon) : survives this this.
Proof.
  repeat split. exists []. symmetry. apply app_nil_r.
Qed.

Lemma survives_trans (a b c : Rcon) :
  survives a b -> survives b c -> survives a c.
Proof.
  intros (H1 & H2 & p & H3) (H4 & H5 & p' & H6).
  repeat split; try congruence.
  exists (p ++ p'). rewrite H6, H3, app_assoc. reflexivity.
Qed.

Lemma keeps_ret {A} (a : A) : keeps (ret a).
Proof. intros this. apply survives_refl. Qed.

Lemma keeps_get : keeps get.
Proof. intros this. apply survives_refl. Qed.

Lemma keeps_lift {A} (r : result A) : keeps (lift r).
Proof. intros this. unfold lift. destruct r; apply survives_refl. Qed.

Lemma keeps_bind {A B} (m : M A) (f : A -> M B) :
  keeps m -> (forall a, keeps (f a)) -> keeps (bind m f).
Proof.
  intros Hm Hf this. unfold bind. specialize (Hm this).
  destruct (m this) as [[a| |] this']; cbn [snd] in *; try exact Hm.
  eapply survives_trans; [exact Hm | apply Hf].
Qed.

Lemma keeps_modify (f : Rcon -> Rcon) :
  (forall this, survives this (f this)) -> keeps (modify f).
Proof. intros H this. apply H. Qed.



(** A step that touches none of the three fields. *)
Ltac untouched :=
  intros; repeat split; exists []; cbn; rewrite app_nil_r; reflexivity.

Lemma keeps_emit (ev : Event) : keeps (emit ev).
Proof. untouched. Qed.

Lemma keeps_new_closure : keeps new_closure.
Proof. untouched. Qed.

Lemma keeps_modify_client (f : Socket -> Socket) : keeps (modify_client f).
Proof. untouched. Qed.

Lemma keeps_set_connected (v : bool) : keeps (modify (set_connected v)).
Proof. untouched. Qed.

Lemma keeps_set_timeouts (f : Rcon -> list Z) :
  keeps (modify (fun this => set_timeouts (f this) this)).
Proof. untouched. Qed.

Lemma keeps_push (f : Callback) :
  keeps (modify (fun this => set_responseCallbackQueue
                   (_responseCallbackQueue this ++ [f]) this)).
Proof. intros this. repeat split. exists [f]. reflexivity. Qed.

Ltac keeps_step :=
  first
    [ apply keeps_ret | apply keeps_get | apply keeps_lift | apply keeps_emit
    | apply keeps_new_closure | apply keeps_modify_client | apply keeps_push
    | apply keeps_set_connected | apply keeps_set_timeouts
    | apply keeps_bind; [|intros ?]
    | match goal with
      | |- keeps (if ?c then _ else _) => destruct c
      end ].





Lemma keeps__socketOnClose (hadError : bool) : keeps (_socketOnClose hadError).
Proof. unfold _socketOnClose. repeat keeps_step. Qed.







(* ================================================================= *)
(** * Further properties of the reassembler *)

Lemma slice_from_whole (b : Buffer) (n : Z) :
  n = 0 \/ n + byteLength b <= 0 -> slice_from b n = b.
Proof.
  intros H. unfold slice_from, slice, adjustOffset, byteLength in *.
  destruct (Z.ltb_spec (Z.of_nat (length b)) 0); [lia|].
  rewrite (Z.min_l (Z.of_nat (length b))) by lia.
  replace (if n <? 0 then Z.max (n + Z.of_nat (length b)) 0
           else Z.min n (Z.of_nat (length b))) with 0
    by (destruct (Z.ltb_spec n 0); lia).
  cbn [Z.to_nat skipn]. apply firstn_all2. lia.
Qed.

Lemma slice_split (b : Buffer) (n : Z) : slice b 0 n ++ slice_from b n = b.
Proof.
  unfold slice_from, slice, adjustOffset, byteLength.
  change (0 <? 0) with false. cbv iota.
  destruct (Z.ltb_spec (Z.of_nat (length b)) 0); [lia|].
  rewrite (Z.min_l 0), (Z.min_l (Z.of_nat (length b))) by lia.
  set (e := if n <? 0 then Z.max (n + Z.of_nat (length b)) 0
            else Z.min n (Z.of_nat (length b))).
  assert (He : 0 <= e <= Z.of_nat (length b))
    by (subst e; destruct (Z.ltb_spec n 0); lia).
  cbn [Z.to_nat skipn]. rewrite Z.sub_0_r.
  rewrite (firstn_all2 (n := Z.to_nat (Z.of_nat (length b) - e)))
    by (rewrite length_skipn; lia).
  apply firstn_skipn.
Qed.

(** X1: A declared size of -4, or one so negative that [slice] clamps both
    indices to the start, makes [_decodeData] push empty packets for ever:
    a turn of the loop pushes an empty packet and leaves the buffer as it
    was, so no number of turns ends the loop and the call never
    returns. *)
Theorem feed_diverges (enc : Encoding) (incomingData data : Buffer) (v : Z) :
  let buf := incomingData ++ data in
  readInt32LE buf 0 = Ret v ->
  v = -4 \/ v + 4 + byteLength buf <= 0 ->
  feed enc incomingData data = (Diverges, buf)
  /\ decode_turn enc buf = Ret (Push [] buf)
  /\ (forall fuel packets, decode_loop enc fuel buf packets = (Diverges, buf)).
Proof.
  intros buf Hv Hneg. rewrite feed_buffer. fold buf.
  assert (H4 : (4 <= length buf)%nat).
  { unfold readInt32LE in Hv. cbn [skipn] in Hv.
    destruct buf as [|b0 [|b1 [|b2 [|b3 t]]]]; try discriminate. cbn. lia. }
  assert (Ht : decode_turn enc buf = Ret (Push [] buf)).
  { unfold decode_turn.
    destruct (Z.leb_spec 4 (byteLength buf)); [|unfold byteLength in *; lia].
    rewrite Hv. cbn [rbind].
    destruct (Z.eqb_spec v 10); [unfold byteLength in *; lia|].
    cbn [andb rbind].
    destruct (Z.ltb_spec (byteLength buf) (v + 4));
      [unfold byteLength in *; lia|].
    assert (Hs : slice_from buf (v + 4) = buf)
      by (apply slice_from_whole; lia).
    pose proof (slice_split buf (v + 4)) as Hsp. rewrite Hs in Hsp.
    assert (Hp : slice buf 0 (v + 4) = []).
    { apply (f_equal (@length byte)) in Hsp. rewrite length_app in Hsp.
      destruct (slice buf 0 (v + 4)); [reflexivity | cbn in Hsp; lia]. }
    rewrite Hs, Hp. reflexivity. }
  split; [|split].
  - unfold feed. cbn [app]. apply (decode_loop_stuck _ _ _ Ht).
  - exact Ht.
  - apply (decode_loop_stuck _ _ _ Ht).
Qed.

Lemma feed_diverges_witness :
  feed enc_utf8 [] (minus_four ++ ShowNextMap_packet)
  = (Diverges, minus_four ++ ShowNextMap_packet).
Proof.
  apply (proj1 (feed_diverges enc_utf8 []
                  (minus_four ++ ShowNextMap_packet) (-4) eq_refl
                  (or_introl eq_refl))).
Defined.

Lemma decode_loop_accounts (enc : Encoding) (fuel : nat) :
  forall buf packets found rest,
    decode_loop enc fuel buf packets = (Normal found, rest) ->
    (exists k,
        (length buf + length (concat packets)
         = length (concat found) + 21 * k + length rest)%nat)
    /\ decode_turn enc rest = Ret Break.
Proof.
  induction fuel as [|fuel IH]; intros buf packets found rest H;
    [discriminate|].
  rewrite decode_loop_S in H.
  destruct (decode_turn enc buf) as [[|skipped|packet left]|] eqn:Ht;
    try discriminate.
  - injection H as <- <-. split; [exists 0%nat; lia | exact Ht].
  - apply decode_turn_Skip in Ht as [-> Hl].
    destruct (IH _ _ _ _ H) as [[k Hk] Hb]. split; [|exact Hb].
    exists (S k). rewrite length_skipn in Hk. lia.
  - apply decode_turn_Push in Ht as (v & _ & -> & -> & _).
    destruct (IH _ _ _ _ H) as [[k Hk] Hb]. split; [|exact Hb].
    exists k. rewrite concat_app, length_app in Hk. cbn [concat] in Hk.
    rewrite app_nil_r in Hk.
    pose proof (f_equal (@length byte) (slice_split buf (v + 4))) as Hs.
    rewrite length_app in Hs. lia.
Qed.

(** X2: [_decodeData] never throws.  When it returns, every byte of the
    buffer and of the data is in a returned packet, in one of the 21-byte
    windows it dropped, or still in the buffer; and what is left in the
    buffer is waiting for more: a call with no data returns no packet and
    leaves it as it is. *)
Theorem feed_accounts (enc : Encoding) (incomingData data : Buffer) :
  (forall e, fst (feed enc incomingData data) <> Thrown e)
  /\ (forall packets rest,
        feed enc incomingData data = (Normal packets, rest) ->
        (exists k,
            (length incomingData + length data
             = length (concat packets) + 21 * k + length rest)%nat)
        /\ feed enc rest [] = (Normal [], rest)).
Proof.
  split.
  - intros e. apply decode_loop_never_throws.
  - intros packets rest H. unfold feed in H.
    apply decode_loop_accounts in H as [[k Hk] Hb].
    split.
    + exists k. rewrite length_app in Hk. cbn [concat length] in Hk. lia.
    + unfold feed. rewrite app_nil_r, decode_loop_S, Hb. reflexivity.
Qed.

Lemma feed_accounts_witness :
  (exists k,
      (length broken_packet + length (ShowNextMap_packet ++ [x16; x00])
       = length (concat [ShowNextMap_packet]) + 21 * k + length [x16; x00])%nat)
  /\ feed enc_utf8 [x16; x00] [] = (Normal [], [x16; x00]).
Proof.
  apply (proj2 (feed_accounts enc_utf8 broken_packet
                  (ShowNextMap_packet ++ [x16; x00]))
           [ShowNextMap_packet] [x16; x00]).
  vm_compute. reflexivity.
Defined.

(** ** A stream of packets, cut anywhere *)

Lemma framed_length (p : Buffer) : framed p -> (4 <= length p)%nat.
Proof.
  intros (v & Hv & _). unfold readInt32LE in Hv. cbn [skipn] in Hv.
  destruct p as [|b0 [|b1 [|b2 [|b3 t]]]]; try discriminate. cbn. lia.
Qed.

Lemma decode_turn_framed (enc : Encoding) (p rest : Buffer) :
  framed p -> decode_turn enc (p ++ rest) = Ret (Push p rest).
Proof.
  intros Hf. pose proof (framed_length p Hf) as H4.
  destruct Hf as (v & Hv & Hl & H10).
  unfold decode_turn. unfold byteLength in *. rewrite length_app.
  destruct (Z.leb_spec 4 (Z.of_nat (length p + length rest))); [|lia].
  rewrite readInt32LE_prefix, Hv by assumption. cbn [rbind].
  destruct (Z.eqb_spec v 10); [contradiction|]. cbn [andb rbind].
  destruct (Z.ltb_spec (Z.of_nat (length p + length rest)) (v + 4)); [lia|].
  rewrite slice_0, slice_from_nonneg by lia.
  rewrite <- Hl, Nat2Z.id.
  replace (length p) with (length p + 0)%nat at 1 by lia.
  rewrite firstn_app_2, skipn_app, skipn_all, Nat.sub_diag.
  cbn [firstn skipn app]. rewrite app_nil_r. reflexivity.
Qed.

Lemma framed_part_waits (enc : Encoding) (p a u : Buffer) :
  framed p -> a ++ u = p -> u <> [] -> decode_turn enc a = Ret Break.
Proof.
  intros Hf Hau Hu. pose proof (framed_length p Hf) as H4.
  destruct Hf as (v & Hv & Hl & _).
  eapply packet_part_waits; eassumption.
Qed.

(** Whole packets followed by a buffer that waits. *)
Lemma feed_packets (enc : Encoding) (ps : list Buffer) (tail : Buffer) :
  Forall framed ps -> decode_turn enc tail = Ret Break ->
  feed enc [] (concat ps ++ tail) = (Normal ps, tail).
Proof.
  intros Hps Ht. induction Hps as [|p ps Hp Hps IH].
  - cbn [concat app]. unfold feed. cbn [app].
    rewrite decode_loop_S, Ht. reflexivity.
  - cbn [concat]. rewrite <- app_assoc.
    rewrite (feed_Push enc _ p (concat ps ++ tail)).
    + rewrite IH. reflexivity.
    + apply decode_turn_framed, Hp.
    + pose proof (framed_length p Hp). rewrite (length_app p). lia.
Qed.

(** A prefix of a stream is some whole packets and the beginning of the
    next one. *)
Lemma stream_prefix (ps : list Buffer) :
  Forall framed ps ->
  forall a b, a ++ b = concat ps ->
    exists ps1 ps2 t,
      ps = ps1 ++ ps2 /\ a = concat ps1 ++ t
      /\ (t = [] \/ exists p ps' u, ps2 = p :: ps' /\ t ++ u = p /\ u <> []).
Proof.
  intros Hps. induction Hps as [|p ps Hp Hps IH]; intros a b Hab.
  - cbn [concat] in Hab. apply app_eq_nil in Hab as [-> ->].
    exists [], [], []. repeat split. left. reflexivity.
  - cbn [concat] in Hab.
    apply app_eq_app in Hab as [l [[-> Hb] | [Hp' Hb]]].
    + destruct (IH l b (eq_sym Hb)) as (ps1 & ps2 & t & -> & -> & Ht).
      exists (p :: ps1), ps2, t. cbn [concat app].
      rewrite app_assoc. repeat split; auto.
    + destruct l as [|x l].
      * rewrite app_nil_r in Hp'. subst a. cbn [app] in Hb.
        exists [p], ps, []. cbn [concat app]. rewrite !app_nil_r.
        repeat split. left. reflexivity.
      * exists [], (p :: ps), a. cbn [concat app]. repeat split.
        right. exists p, ps, (x :: l). repeat split; [auto | discriminate].
Qed.

Lemma feed_chunks_stream (enc : Encoding) (chunks : list Buffer) :
  forall ps buf,
    Forall framed ps ->
    buf ++ concat chunks = concat ps ->
    (buf = [] \/ exists p ps' u, ps = p :: ps' /\ buf ++ u = p /\ u <> []) ->
    feed_chunks enc buf chunks = (Normal ps, []).
Proof.
  induction chunks as [|c cs IH]; intros ps buf Hps Heq Hbuf.
  - cbn [concat] in Heq. rewrite app_nil_r in Heq. cbn [feed_chunks].
    destruct Hbuf as [-> | (p & ps' & u & -> & Hp & Hu)].
    + destruct ps as [|p ps]; [reflexivity|].
      apply Forall_inv in Hps. apply framed_length in Hps.
      cbn [concat] in Heq. destruct p; [cbn in Hps; lia | discriminate Heq].
    + exfalso. cbn [concat] in Heq. rewrite <- Hp, <- app_assoc in Heq.
      rewrite <- (app_nil_r buf) in Heq at 1.
      apply app_inv_head in Heq. destruct u; [contradiction | discriminate].
  - cbn [concat] in Heq. rewrite app_assoc in Heq.
    destruct (stream_prefix ps Hps _ _ Heq)
      as (ps1 & ps2 & t & -> & Hx & Ht).
    apply Forall_app in Hps as [Hps1 Hps2].
    cbn [feed_chunks]. rewrite feed_buffer, Hx.
    rewrite (feed_packets enc ps1 t Hps1).
    + rewrite (IH ps2 t Hps2).
      * reflexivity.
      * rewrite Hx, concat_app, <- !app_assoc in Heq.
        apply app_inv_head in Heq. exact Heq.
      * exact Ht.
    + destruct Ht as [-> | (p & ps' & u & -> & Hp & Hu)].
      * reflexivity.
      * apply Forall_inv in Hps2. exact (framed_part_waits enc p t u Hps2 Hp Hu).
Qed.

(** X3: Whole streams: when every packet declares its own length and none
    declares 10, the packets of a stream come out one by one and in
    order, nothing more and nothing less, however the bytes of the stream
    are cut into the calls of [_decodeData]; the buffer ends empty.  The
    packets of [_encodePacket] with a body that is not empty are such
    packets. *)
Theorem stream_reassembly (enc : Encoding) (ps chunks : list Buffer) :
  Forall framed ps ->
  concat chunks = concat ps ->
  feed_chunks enc [] chunks = (Normal ps, [])
  /\ (forall ty i s pkt,
        _encodePacket enc ty i s = Ret pkt -> s <> [] -> framed pkt).
Proof.
  intros Hps Heq. split.
  - apply feed_chunks_stream; [exact Hps | exact Heq | left; reflexivity].
  - intros ty i s pkt He Hs.
    destruct (_encodePacket_header enc ty i s pkt He) as (Hv & Hl & _).
    exists (Buffer_byteLength s + 10). repeat split; try assumption.
    pose proof (length_le_utf8 s) as Hle.
    unfold Buffer_byteLength, byteLength.
    destruct s; [contradiction | cbn [length] in Hle; lia].
Qed.

Lemma stream_reassembly_witness :
  feed_chunks enc_utf8 []
    (map (fun b => [b]) (ShowNextMap_packet ++ ListPlayers_packet))
  = (Normal [ShowNextMap_packet; ListPlayers_packet], []).
Proof.
  apply (stream_reassembly enc_utf8 [ShowNextMap_packet; ListPlayers_packet]).
  - repeat constructor.
    + exists 21. repeat split; vm_compute; try reflexivity; discriminate.
    + exists 21. repeat split; vm_compute; try reflexivity; discriminate.
  - vm_compute. reflexivity.
Defined.

(* ================================================================= *)
(** * Further properties of the codec *)





Lemma _encodePacket_returns (enc : Encoding) (ty i : Z) (s : jsstring) :
  out_of_int32 (Buffer_byteLength s + 10) = false ->
  out_of_int32 i = false -> out_of_int32 ty = false ->
  exists pkt, _encodePacket enc ty i s = Ret pkt.
Proof.
  unfold Buffer_byteLength, byteLength. intros Hn Hi Ht.
  pose proof (_encodePacket_eq enc ty i s) as He. cbv zeta in He.
  rewrite Hn, Hi, Ht in He. eexists. exact He.
Qed.

(** X5: [_encodePacket] throws a [RangeError] exactly when the type, the id
    or [Buffer.byteLength(body) + 10] is not an int32.  Otherwise it
    returns a packet of [Buffer.byteLength(body) + 14] bytes, under either
    encoding, that ends with two zero bytes and that [_decodePacket] reads
    back without throwing. *)
Theorem _encodePacket_throws (enc : Encoding) (ty i : Z) (s : jsstring) :
  let n := Buffer_byteLength s in
  (out_of_int32 (n + 10) || out_of_int32 i || out_of_int32 ty = true ->
   _encodePacket enc ty i s = Throw RangeError)
  /\ (out_of_int32 (n + 10) || out_of_int32 i || out_of_int32 ty = false ->
      exists pkt d,
        _encodePacket enc ty i s = Ret pkt
        /\ byteLength pkt = n + 14
        /\ skipn (Z.to_nat (n + 12)) pkt = [x00; x00]
        /\ _decodePacket enc pkt = Ret d).
Proof.
  intros n. subst n. unfold Buffer_byteLength, byteLength.
  split; intros H.
  - rewrite _encodePacket_eq.
    destruct (out_of_int32 (Z.of_nat (length (concat (utf8_chunks s))) + 10));
      [reflexivity|].
    destruct (out_of_int32 i); [reflexivity|].
    destruct (out_of_int32 ty); [reflexivity | discriminate H].
  - apply orb_false_iff in H as [H Ht]. apply orb_false_iff in H as [Hn Hi].
    pose proof (_encodePacket_eq enc ty i s) as He. cbv zeta in He.
    rewrite Hn, Hi, Ht in He.
    destruct (_encodePacket_header enc ty i s _ He) as (_ & Hl & d & Hd & _).
    eexists. exists d. split; [exact He|]. split; [|split].
    + unfold Buffer_byteLength, byteLength in Hl. unfold byteLength. lia.
    + pose proof (encode_upto_length enc s) as HE.
      set (m := length (concat (utf8_chunks s))) in *.
      set (E := encode_upto enc s (m + 2)) in *.
      rewrite !app_assoc.
      rewrite skipn_app.
      rewrite skipn_all2
        by (rewrite !length_app, repeat_length; cbn [length int32LE]; lia).
      cbn [app].
      replace (Z.to_nat (Z.of_nat m + 12)
               - length ((((int32LE (Z.of_nat m + 10) ++ int32LE i)
                           ++ int32LE ty) ++ E) ++ repeat x00 (m - length E)))%nat
        with 0%nat
        by (rewrite !length_app, repeat_length; cbn [length int32LE]; lia).
      reflexivity.
    + exact Hd.
Qed.

Lemma _encodePacket_throws_witness :
  _encodePacket enc_utf8 (2 ^ 31) PacketId.MID (js "ShowNextMap")
  = Throw RangeError
  /\ exists pkt d,
       _encodePacket enc_ascii PacketType.COMMAND PacketId.MID [0xE9] = Ret pkt
       /\ byteLength pkt = Buffer_byteLength [0xE9] + 14
       /\ skipn (Z.to_nat (Buffer_byteLength [0xE9] + 12)) pkt = [x00; x00]
       /\ _decodePacket enc_ascii pkt = Ret d.
Proof.
  split.
  - apply (proj1 (_encodePacket_throws enc_utf8 (2 ^ 31) PacketId.MID
                    (js "ShowNextMap"))).
    vm_compute. reflexivity.
  - apply (proj2 (_encodePacket_throws enc_ascii PacketType.COMMAND
                    PacketId.MID [0xE9])).
    vm_compute. reflexivity.
Defined.

(* ================================================================= *)
(** * Further properties of the writer and of the handshake *)

(** [_write] as its two callers use it. *)
Lemma _write_accepted_or_refused (this : Rcon) (ty : Z) (s : jsstring)
    (pkt : Buffer) :
  ty = PacketType.COMMAND \/ ty = PacketType.AUTH ->
  _encodePacket (_encoding this) ty
    (if negb (ty =? PacketType.AUTH) then PacketId.MID else PacketId.END) s
  = Ret pkt ->
  _write ty s this
  = (Normal tt,
     match refusal (byteLength pkt) this with
     | Some err => set_emitted (emitted this ++ [ev_error err]) this
     | None => if ty =? PacketType.AUTH then auth_written pkt this
               else command_written pkt this
     end).
Proof.
  intros Hty He. unfold refusal, _write, bind, get.
  destruct (_connected this) eqn:Hc; cbn [negb]; [|reflexivity].
  destruct (writable (_client this)) eqn:Hw; cbn [negb]; [|reflexivity].
  rewrite He. cbn [lift].
  rewrite (_encodePacket_nonempty _ _ _ _ _ He). cbn [lift].
  replace (_encodePacket (_encoding this) ty PacketId.END [])
    with (Ret (int32LE 10 ++ int32LE PacketId.END ++ int32LE ty ++ [x00; x00]))
    by (destruct Hty as [-> | ->]; destruct (_encoding this); reflexivity).
  cbn [lift int32LE app _bufToHexString].
  destruct (_maximumPacketSize this <? byteLength pkt); [reflexivity|].
  clear - Hty. destruct this as [? ? ? ? ? ? ? ? ? [? ? ? ? ?] ? ? ?].
  destruct Hty as [-> | ->].
  - change (PacketType.COMMAND =? PacketType.AUTH) with false.
    cbv [negb]. state_eq. rewrite <- app_assoc. reflexivity.
  - change (PacketType.AUTH =? PacketType.AUTH) with true.
    cbv [negb]. state_eq.
    cbv [auth_written closures _client written once_error
         _responseCallbackQueue set_client set_written
         set_once_error set_responseCallbackQueue set_closures].
    rewrite <- app_assoc. reflexivity.
Qed.

(** X6: what [execute] does with a command whose size is an int32.  The
    encoder does not throw, and the command is either sent or refused.
    Sent: both packets are written, one callback is queued with its error
    listener, nothing is emitted, and the call returns.  Refused: exactly
    one error is emitted and nothing else changes; the error tells which
    test failed first: the connected flag, the writable socket, the size
    of the packet.  A refusal ends with [emit('error', _)], so whether the
    call then returns is up to the listeners of the caller (see [emit])
    and is not stated. *)
Theorem execute_outcomes (this : Rcon) (command : jsstring) :
  Buffer_byteLength command + 10 <= int32_max ->
  exists pkt,
    _encodePacket (_encoding this) PacketType.COMMAND PacketId.MID command
    = Ret pkt
    /\ run (execute command) this
       = match refusal (byteLength pkt) this with
         | Some err => set_emitted (emitted this ++ [ev_error err]) this
         | None => command_written pkt this
         end
    /\ (refusal (byteLength pkt) this = None ->
        execute command this = (Normal tt, command_written pkt this)
        /\ emitted (command_written pkt this) = emitted this).
Proof.
  intros Hn.
  destruct (_encodePacket_returns (_encoding this) PacketType.COMMAND
              PacketId.MID command) as (pkt & He);
    try (apply out_of_int32_false; unfold int32_min, int32_max in *;
         unfold Buffer_byteLength, byteLength in *;
         cbv [PacketType.COMMAND PacketId.MID]; lia).
  exists pkt. split; [exact He|].
  unfold run, execute.
  rewrite (_write_accepted_or_refused this PacketType.COMMAND command pkt);
    [| left; reflexivity | exact He].
  split; [reflexivity|].
  intros Href. rewrite Href. split; reflexivity.
Qed.

Lemma execute_outcomes_witness :
  (exists pkt,
      _encodePacket enc_utf8 PacketType.COMMAND PacketId.MID (js "ShowNextMap")
      = Ret pkt
      /\ run (execute (js "ShowNextMap")) (new_Rcon None None None)
         = set_emitted [ev_error Not_connected] (new_Rcon None None None))
  /\ execute (js "ShowNextMap") authed_instance
     = (Normal tt, command_written ShowNextMap_packet authed_instance).
Proof.
  split.
  - destruct (execute_outcomes (new_Rcon None None None) (js "ShowNextMap"))
      as (pkt & He & Hx & _); [vm_compute; discriminate|].
    exists pkt. split; [exact He | exact Hx].
  - destruct (execute_outcomes authed_instance (js "ShowNextMap"))
      as (pkt & He & _ & Hx); [vm_compute; discriminate|].
    assert (Hp : pkt = ShowNextMap_packet).
    { assert (H : _encodePacket (_encoding authed_instance)
                    PacketType.COMMAND PacketId.MID (js "ShowNextMap")
                  = Ret ShowNextMap_packet) by (vm_compute; reflexivity).
      rewrite He in H. injection H as H. exact H. }
    subst pkt. apply Hx. vm_compute. reflexivity.
Defined.

Lemma dispatch_end_ignore (this : Rcon) (d : DecodedRconPacket)
    (q : list Callback) :
  is_end d = true ->
  _responseCallbackQueue this = cb_ignore :: q ->
  dispatch d this
  = (Normal tt, set_incomingResponse [] (set_responseCallbackQueue q this)).
Proof.
  unfold is_end, is_response, dispatch. intros H Hq.
  apply andb_prop in H as [-> Hi]. apply Z.eqb_eq in Hi. rewrite Hi.
  change (PacketId.END =? PacketId.MID) with false.
  change (PacketId.END =? PacketId.END) with true. cbv iota.
  unfold bind, get, modify. rewrite Hq. reflexivity.
Qed.

(** X7: From construction to [authed]: on a new instance, [connect()] and
    the ['connect'] event of the socket emit [connect], set the connected
    flag and, when the AUTH packet fits, write it alone; auto-reconnect is
    still off.  Any two End-tagged response packets then end the
    handshake: [authed] is emitted once, auto-reconnect is on, the queue
    is empty and no error listener is left on the socket.  When the AUTH
    packet is longer than the limit, 'Packet too long.' is emitted,
    nothing is written, the instance stays connected with an empty queue,
    and a close of the socket schedules no reconnect. *)
Theorem handshake_to_authed (password : option jsstring) (maximumPacketSize : option Z)
    (encoding : option Encoding) (pkt : Buffer) :
  let this0 := new_Rcon password maximumPacketSize encoding in
  _encodePacket (_encoding this0) PacketType.AUTH PacketId.END (_password this0)
  = Ret pkt ->
  let this1 := run (connect ;; socket_connect) this0 in
  (byteLength pkt <= _maximumPacketSize this0 ->
   emitted this1 = [ev_connect] /\ written (_client this1) = [pkt]
   /\ _connected this1 = true /\ _autoReconnect this1 = false
   /\ forall e1 e2,
       is_end e1 = true -> is_end e2 = true ->
       let this2 := run (dispatch e1 ;; dispatch e2) this1 in
       ending (dispatch e1 ;; dispatch e2) this1 = Normal tt
       /\ emitted this2 = [ev_connect; ev_authed]
       /\ _autoReconnect this2 = true
       /\ _responseCallbackQueue this2 = []
       /\ once_error (_client this2) = [])
  /\ (_maximumPacketSize this0 < byteLength pkt ->
      emitted this1 = [ev_connect; ev_error Packet_too_long]
      /\ written (_client this1) = []
      /\ _connected this1 = true
      /\ _responseCallbackQueue this1 = []
      /\ forall hadError, timeouts (run (socket_close hadError) this1) = []).
Proof.
  intros this0 He this1. subst this1 this0. unfold new_Rcon in *.
  set (mx := match maximumPacketSize with
             | Some n => if n =? 0 then 4096 else n
             | None => 4096
             end) in *.
  set (en := match encoding with Some e => e | None => enc_utf8 end) in *.
  set (pw := match password with Some p => p | None => [] end) in *.
  cbn [_encoding _password _maximumPacketSize] in *.
  cbv [run connect socket_connect bind new_closure client_once_connect
       client_once_error client_connect modify_client modify get snd for_of
       onConnect emit client_removeListener_error try_catch ret
       set_closures set_client set_once_connect set_once_error
       set_connect_calls set_writable set_emitted set_connected
       _client closures once_connect once_error connect_calls emitted
       _maximumPacketSize _encoding _password _incomingData
       _incomingResponse _responseCallbackQueue _connected _autoReconnect
       _autoReconnectDelay timeouts writable written app remove_last
       ErrorListener_eqb Nat.eqb existsb andb negb].
  rewrite (_write_accepted_or_refused _ PacketType.AUTH pw pkt);
    [| right; reflexivity | exact He].
  cbv [refusal _connected _client writable _maximumPacketSize negb].
  split; intros Hmax.
  - destruct (Z.ltb_spec mx (byteLength pkt)); [lia|].
    change (PacketType.AUTH =? PacketType.AUTH) with true. cbv iota.
    do 4 (split; [reflexivity|]).
    intros e1 e2 H1 H2. cbv zeta. unfold ending, run, bind.
    erewrite (dispatch_end_ignore _ e1) by (try exact H1; reflexivity).
    erewrite (dispatch_end_auth _ e2) by (try exact H2; reflexivity).
    repeat split.
  - apply Z.ltb_lt in Hmax. rewrite Hmax.
    repeat split.
Qed.

Lemma handshake_to_authed_witness :
  emitted connected_instance = [ev_connect]
  /\ emitted (run (dispatch (decoded_frame 0 2 []) ;;
                   dispatch (decoded_frame 2 2 []))
                  connected_instance)
     = [ev_connect; ev_authed]
  /\ emitted (run (connect ;; socket_connect)
                  (new_Rcon (Some (js "secret")) (Some 19) None))
     = [ev_connect; ev_error Packet_too_long].
Proof.
  pose proof (handshake_to_authed (Some (js "secret")) (Some 4096) (Some enc_utf8)
                [x10; x00; x00; x00; x02; x00; x00; x00; x03; x00; x00; x00;
                 "s"; "e"; "c"; "r"; "e"; "t"; x00; x00]%byte eq_refl)
    as [Hok _].
  pose proof (handshake_to_authed (Some (js "secret")) (Some 19) None
                [x10; x00; x00; x00; x02; x00; x00; x00; x03; x00; x00; x00;
                 "s"; "e"; "c"; "r"; "e"; "t"; x00; x00]%byte eq_refl)
    as [_ Hlong].
  destruct Hok as (H1 & _ & _ & _ & H2); [vm_compute; discriminate|].
  destruct (H2 (decoded_frame 0 2 []) (decoded_frame 2 2 []) eq_refl eq_refl)
    as (_ & H3 & _).
  destruct Hlong as (H4 & _); [vm_compute; reflexivity|].
  split; [exact H1 | split; [exact H3 | exact H4]].
Defined.

(* ================================================================= *)
(** * Errors of the socket *)

Lemma error_listeners_report (err : Z) (ls : list ErrorListener) :
  forall this,
    ending (for_of ls (error_listener err)) this = Normal tt
    /\ emitted (run (for_of ls (error_listener err)) this)
       = emitted this ++ repeat (ev_error (Socket_error err)) (length ls)
    /\ once_error (_client (run (for_of ls (error_listener err)) this))
       = once_error (_client this)
    /\ written (_client (run (for_of ls (error_listener err)) this))
       = written (_client this).
Proof.
  induction ls as [|l ls IH]; intros this.
  - cbn. rewrite app_nil_r. auto.
  - unfold ending, run in *. cbn [for_of length repeat]. unfold bind.
    destruct l as [k|k]; cbn [error_listener].
    + change (connect_onError_body k err this)
        with (Normal tt,
              set_emitted (emitted this ++ [ev_error (Socket_error err)])
                (set_client
                   (set_once_connect
                      (remove_last Nat.eqb k (once_connect (_client this)))
                      (_client this)) this)).
      destruct (IH (set_emitted (emitted this ++ [ev_error (Socket_error err)])
                      (set_client
                         (set_once_connect
                            (remove_last Nat.eqb k (once_connect (_client this)))
                            (_client this)) this))) as (H1 & H2 & H3 & H4).
      rewrite H1, H2, H3, H4. cbn. rewrite <- app_assoc. auto.
    + change (write_onError_body err this)
        with (Normal tt,
              set_emitted (emitted this ++ [ev_error (Socket_error err)])
                (set_responseCallbackQueue [] this)).
      destruct (IH (set_emitted (emitted this ++ [ev_error (Socket_error err)])
                      (set_responseCallbackQueue [] this)))
        as (H1 & H2 & H3 & H4).
      rewrite H1, H2, H3, H4. cbn. rewrite <- app_assoc. auto.
Qed.

(** X8: One error of the socket is emitted several times: once by
    [_socketOnError] and once more by each [onError] that [connect] and
    the pending [_write]s have left on the socket.  All these listeners
    are gone afterwards, and nothing is written. *)
Theorem socket_error_reports (this : Rcon) (err : Z) :
  let this' := run (socket_error err) this in
  ending (socket_error err) this = Normal tt
  /\ emitted this'
     = emitted this
         ++ repeat (ev_error (Socket_error err))
              (S (length (once_error (_client this))))
  /\ once_error (_client this') = []
  /\ written (_client this') = written (_client this).
Proof.
  intros this'. subst this'.
  pose proof (error_listeners_report err (once_error (_client this))
                (set_emitted (emitted this ++ [ev_error (Socket_error err)])
                   (set_client (set_once_error [] (_client this)) this)))
    as (H1 & H2 & H3 & H4).
  change (socket_error err this)
    with (for_of (once_error (_client this)) (error_listener err)
            (set_emitted (emitted this ++ [ev_error (Socket_error err)])
               (set_client (set_once_error [] (_client this)) this))) in *.
  unfold ending, run in *.
  change (socket_error err this)
    with (for_of (once_error (_client this)) (error_listener err)
            (set_emitted (emitted this ++ [ev_error (Socket_error err)])
               (set_client (set_once_error [] (_client this)) this))).
  rewrite H1, H2, H3, H4. cbn. rewrite <- app_assoc. auto.
Qed.

(* ================================================================= *)
(** * What every method respects *)

Section Respects.
Variable R : Rcon -> Rcon -> Prop.
Hypothesis R_refl : forall this, R this this.
Hypothesis R_trans : forall a b c, R a b -> R b c -> R a c.

Lemma respects_ret {A} (a : A) : respects R (ret a).
Proof. intros this. apply R_refl. Qed.

Lemma respects_get : respects R get.
Proof. intros this. apply R_refl. Qed.

Lemma respects_lift {A} (r : result A) : respects R (lift r).
Proof. intros this. unfold lift. destruct r; apply R_refl. Qed.

Lemma respects_bind {A B} (m : M A) (f : A -> M B) :
  respects R m -> (forall a, respects R (f a)) -> respects R (bind m f).
Proof.
  intros Hm Hf this. unfold bind. specialize (Hm this).
  destruct (m this) as [[a| |] this']; cbn [snd] in *; try exact Hm.
  eapply R_trans; [exact Hm | apply Hf].
Qed.

Lemma respects_try_catch (m : M unit) (h : exn -> M unit) :
  respects R m -> (forall e, respects R (h e)) -> respects R (try_catch m h).
Proof.
  intros Hm Hh this. unfold try_catch. specialize (Hm this).
  destruct (m this) as [[a| |] this']; cbn [snd] in *; try exact Hm.
  eapply R_trans; [exact Hm | apply Hh].
Qed.

Lemma respects_for_of {A} (l : list A) (f : A -> M unit) :
  (forall x, respects R (f x)) -> respects R (for_of l f).
Proof.
  intros Hf. induction l as [|x l IH]; cbn [for_of].
  - apply respects_ret.
  - apply respects_bind; [apply Hf | intros _; exact IH].
Qed.

Lemma respects_reach (actions : list Action) :
  (forall a, respects R (perform a)) ->
  forall this, R this (reach actions this).
Proof.
  intros Hp. induction actions as [|a actions IH]; intros this; cbn [reach].
  - apply R_refl.
  - eapply R_trans; [apply Hp | apply IH].
Qed.
End Respects.

Lemma advances_refl (this : Rcon) : advances this this.
Proof.
  repeat split; auto; exists []; symmetry; apply app_nil_r.
Qed.

Lemma advances_trans (a b c : Rcon) :
  advances a b -> advances b c -> advances a c.
Proof.
  intros (A1 & A2 & A3 & A4 & [e1 A5] & [w1 A6] & A7)
         (B1 & B2 & B3 & B4 & [e2 B5] & [w2 B6] & B7).
  repeat split; try congruence; auto.
  - exists (e1 ++ e2). rewrite B5, A5, app_assoc. reflexivity.
  - exists (w1 ++ w2). rewrite B6, A6, app_assoc. reflexivity.
Qed.

(** A step given by an explicit update of the state. *)
Ltac advances_leaf :=
  intros; unfold advances; cbn;
  repeat split; auto;
  first [ exists []; rewrite app_nil_r; reflexivity
        | eexists; reflexivity ].

Lemma advances_emit (ev : Event) : respects advances (emit ev).
Proof. unfold respects. advances_leaf. Qed.

Lemma advances_new_closure : respects advances new_closure.
Proof. unfold respects. advances_leaf. Qed.

Lemma advances_client_write (buf : Buffer) :
  respects advances (client_write buf).
Proof. unfold respects. advances_leaf. Qed.

Lemma advances_listeners (f : Socket -> Socket) :
  (forall s, written (f s) = written s) -> respects advances (modify_client f).
Proof.
  intros Hf this. unfold advances. cbn. rewrite Hf.
  repeat split; auto; exists []; rewrite app_nil_r; reflexivity.
Qed.

Lemma advances_modify (f : Rcon -> Rcon) :
  (forall this, advances this (f this)) -> respects advances (modify f).
Proof. intros H this. apply H. Qed.

Ltac advances_step :=
  first
    [ apply (respects_ret advances advances_refl)
    | apply (respects_get advances advances_refl)
    | apply (respects_lift advances advances_refl)
    | apply advances_emit | apply advances_new_closure
    | apply advances_client_write
    | apply advances_listeners; intros []; reflexivity
    | apply advances_modify; advances_leaf
    | apply (respects_bind advances advances_trans); [|intros ?]
    | match goal with
      | |- respects advances (if ?c then _ else _) => destruct c
      | |- respects advances (match ?c with _ => _ end) => destruct c
      end ].

Lemma advances__write (ty : Z) (s : jsstring) : respects advances (_write ty s).
Proof.
  unfold _write, client_once_error. repeat advances_step.
Qed.

Lemma advances_call (f : Callback) (arg : jsstring) :
  respects advances (call f arg).
Proof.
  unfold call, client_removeListener_error. destruct f; repeat advances_step.
Qed.

Lemma advances_dispatch (d : DecodedRconPacket) : respects advances (dispatch d).
Proof.
  unfold dispatch. repeat advances_step; apply advances_call.
Qed.

Lemma advances__decodeData (data : Buffer) : respects advances (_decodeData data).
Proof.
  intros this. unfold _decodeData.
  destruct (feed (_encoding this) (_incomingData this) data) as [r rest].
  advances_leaf.
Qed.

Lemma advances__socketOnData (data : Buffer) :
  respects advances (_socketOnData data).
Proof.
  unfold _socketOnData.
  apply (respects_bind advances advances_trans);
    [apply (respects_lift advances advances_refl) | intros _].
  apply (respects_bind advances advances_trans);
    [apply advances__decodeData | intros packets].
  apply (respects_for_of advances advances_refl advances_trans).
  intros packet. repeat advances_step. apply advances_dispatch.
Qed.

Lemma advances_connect : respects advances connect.
Proof.
  unfold connect, client_once_connect, client_once_error, client_connect.
  repeat advances_step.
Qed.

Lemma advances_onConnect (k : nat) : respects advances (onConnect k).
Proof.
  unfold onConnect, client_removeListener_error. repeat advances_step.
  apply (respects_try_catch advances advances_trans);
    [apply advances__write | intros e; apply advances_emit].
Qed.

Lemma advances_socket_error (err : Z) : respects advances (socket_error err).
Proof.
  unfold socket_error, _socketOnError. repeat advances_step.
  apply (respects_for_of advances advances_refl advances_trans).
  intros [k|k]; cbn [error_listener];
    unfold connect_onError_body, write_onError_body,
      client_removeListener_connect;
    repeat advances_step.
Qed.

Lemma advances_perform (a : Action) : respects advances (perform a).
Proof.
  destruct a; cbn [perform].
  - apply advances_connect.
  - apply advances__write.
  - apply (respects_ret advances advances_refl).
  - unfold socket_connect. repeat advances_step.
    apply (respects_for_of advances advances_refl advances_trans).
    apply advances_onConnect.
  - apply advances__socketOnData.
  - apply advances_socket_error.
  - unfold socket_close, _socketOnClose. repeat advances_step.
  - unfold timeout_fires. repeat advances_step.
Qed.

(** X9: Whatever is called on an instance and whatever its socket does, in
    any order, and whether these calls return or throw: the options
    (packet limit, encoding, password, reconnect delay) never change;
    events once emitted and buffers once written stay, in their order,
    and new ones come after them; and auto-reconnect, once it is on, is
    never turned off -- neither [disconnect()] nor a refused password
    stops the reconnect loop.  The same holds of a sequence that stops at
    the first exception. *)
Theorem nothing_is_undone (actions : list Action) (this : Rcon) :
  advances this (reach actions this)
  /\ advances this (run (for_of actions perform) this).
Proof.
  split.
  - apply (respects_reach advances advances_refl advances_trans).
    apply advances_perform.
  - apply (respects_for_of advances advances_refl advances_trans).
    apply advances_perform.
Qed.

(* ================================================================= *)
(** * The error listeners of pending requests *)

Lemma stays_consistent_refl (this : Rcon) : stays_consistent this this.
Proof. intros H. exact H. Qed.

Lemma stays_consistent_trans (a b c : Rcon) :
  stays_consistent a b -> stays_consistent b c -> stays_consistent a c.
Proof. unfold stays_consistent. auto. Qed.

Lemma ErrorListener_eqb_eq (a b : ErrorListener) :
  ErrorListener_eqb a b = true <-> a = b.
Proof.
  destruct a as [j|j], b as [k|k]; cbn [ErrorListener_eqb];
    try rewrite Nat.eqb_eq; split; intros H;
    try discriminate H; try (injection H as ->); subst; reflexivity.
Qed.

Lemma existsb_eqb_In (x : ErrorListener) (l : list ErrorListener) :
  existsb (ErrorListener_eqb x) l = true <-> In x l.
Proof.
  rewrite existsb_exists. split.
  - intros (y & Hy & He). apply ErrorListener_eqb_eq in He. subst. exact Hy.
  - intros H. exists x. split; [exact H | apply ErrorListener_eqb_eq; reflexivity].
Qed.

(** Removing the listener of a connect leaves those of the writes. *)
Lemma filter_remove_connect (k : nat) (l : list ErrorListener) :
  filter is_write_listener (remove_last ErrorListener_eqb (connect_onError k) l)
  = filter is_write_listener l.
Proof.
  induction l as [|y l IH]; [reflexivity|]. cbn [remove_last].
  destruct (ErrorListener_eqb y (connect_onError k)
            && negb (existsb (ErrorListener_eqb (connect_onError k)) l)) eqn:E.
  - apply andb_prop in E as [E _]. apply ErrorListener_eqb_eq in E. subst y.
    reflexivity.
  - cbn [filter]. rewrite IH. reflexivity.
Qed.

(** Removing the listener of the oldest pending write. *)
Lemma filter_remove_write (k : nat) (l : list ErrorListener)
    (r : list ErrorListener) :
  filter is_write_listener l = write_onError k :: r ->
  ~ In (write_onError k) r ->
  filter is_write_listener (remove_last ErrorListener_eqb (write_onError k) l)
  = r.
Proof.
  revert r. induction l as [|y l IH]; intros r Hf Hr; [discriminate Hf|].
  cbn [remove_last].
  destruct (ErrorListener_eqb y (write_onError k)) eqn:Ey.
  - apply ErrorListener_eqb_eq in Ey. subst y.
    cbn [filter is_write_listener] in Hf. injection Hf as Hf. subst r.
    destruct (existsb (ErrorListener_eqb (write_onError k)) l) eqn:Ex.
    + apply existsb_eqb_In in Ex. exfalso. apply Hr.
      apply filter_In. split; [exact Ex | reflexivity].
    + reflexivity.
  - cbn [andb]. cbn [filter] in *.
    destruct y as [j|j]; cbn [is_write_listener] in *.
    + apply IH; assumption.
    + injection Hf as Hj _. subst j.
      rewrite (proj2 (ErrorListener_eqb_eq _ _) eq_refl) in Ey. discriminate.
Qed.

Lemma paired_app (q q' : list Callback) :
  paired q = true -> paired q' = true -> paired (q ++ q') = true.
Proof.
  intros Hq Hq'. induction q as [|f q IH]; [exact Hq'|].
  destruct f; cbn [app paired] in *.
  - destruct q as [|[| |] q2]; try discriminate. cbn [app]. apply IH, Hq.
  - apply IH, Hq.
  - apply IH, Hq.
Qed.

Lemma paired_tail (f : Callback) (q : list Callback) :
  paired (f :: q) = true -> paired q = true.
Proof.
  destruct f; cbn [paired]; auto. destruct q as [|[| |] q2]; auto; discriminate.
Qed.

Lemma pending_nothing (q : list Callback) :
  paired q = true -> pending_ids q = [] -> q = [].
Proof.
  destruct q as [|f q]; [reflexivity|].
  destruct f; cbn [paired pending_ids flat_map callback_id app];
    try discriminate.
  destruct q as [|[| |] q2]; try discriminate.
Qed.

(** A step that touches neither the queue, nor the error listeners, nor
    the count of closures downwards. *)
Lemma consistent_frame (this this' : Rcon) :
  _responseCallbackQueue this' = _responseCallbackQueue this ->
  filter is_write_listener (once_error (_client this'))
  = filter is_write_listener (once_error (_client this)) ->
  (closures this <= closures this')%nat ->
  stays_consistent this this'.
Proof.
  intros Hq Hl Hc (H1 & H2 & H3 & H4). unfold consistent.
  rewrite Hq, Hl. repeat split; auto.
  eapply Forall_impl; [|exact H2]. cbn. intros k Hk. lia.
Qed.

Ltac consistent_leaf :=
  intros; apply consistent_frame; cbn;
  first [ reflexivity | lia | apply filter_remove_connect
        | rewrite filter_app; cbn; rewrite app_nil_r; reflexivity ].

Lemma consistent_emit (ev : Event) : respects stays_consistent (emit ev).
Proof. unfold respects. consistent_leaf. Qed.

Lemma consistent_after_write (this : Rcon) (f : list Callback) (pkts : list Buffer) :
  pending_ids f = [closures this] -> paired f = true ->
  stays_consistent this
    (set_client
       (set_written (written (_client this) ++ pkts)
          (set_once_error
             (once_error (_client this) ++ [write_onError (closures this)])
             (_client this)))
       (set_responseCallbackQueue (_responseCallbackQueue this ++ f)
          (set_closures (S (closures this)) this))).
Proof.
  intros Hf Hp (H1 & H2 & H3 & H4). unfold consistent. cbn.
  unfold pending_ids in *. rewrite flat_map_app, Hf, map_app, filter_app, H1.
  repeat split.
  - apply Forall_app. split.
    + eapply Forall_impl; [|exact H2]. cbn. intros k Hk. lia.
    + repeat constructor.
  - apply NoDup_app; [exact H3 | repeat constructor; intros [] |].
    intros k Hk [<- | []]. rewrite Forall_forall in H2.
    specialize (H2 _ Hk). cbn in H2. lia.
  - apply paired_app; assumption.
Qed.

Lemma consistent_modify (f : Rcon -> Rcon) :
  (forall this, stays_consistent this (f this)) ->
  respects stays_consistent (modify f).
Proof. intros H this. apply H. Qed.

Ltac consistent_step :=
  first
    [ apply (respects_ret stays_consistent stays_consistent_refl)
    | apply (respects_get stays_consistent stays_consistent_refl)
    | apply (respects_lift stays_consistent stays_consistent_refl)
    | apply consistent_emit
    | apply consistent_modify; consistent_leaf
    | apply (respects_bind stays_consistent stays_consistent_trans); [|intros ?]
    | match goal with
      | |- respects stays_consistent (if ?c then _ else _) => destruct c
      | |- respects stays_consistent (match ?c with _ => _ end) => destruct c
      end ].

(** [_write] adds a callback and its listener together, or neither. *)
Lemma consistent__write (ty : Z) (s : jsstring) :
  ty = PacketType.COMMAND \/ ty = PacketType.AUTH ->
  respects stays_consistent (_write ty s).
Proof.
  intros Hty this.
  destruct (_encodePacket (_encoding this) ty
              (if negb (ty =? PacketType.AUTH) then PacketId.MID
               else PacketId.END) s) as [pkt|e] eqn:He.
  - rewrite (_write_accepted_or_refused this ty s pkt Hty He). cbn [snd].
    destruct (refusal (byteLength pkt) this).
    + apply consistent_frame; reflexivity || apply Nat.le_refl.
    + destruct Hty as [-> | ->].
      * change (PacketType.COMMAND =? PacketType.AUTH) with false. cbv iota.
        apply (consistent_after_write this [cb_response (closures this)]);
          reflexivity.
      * change (PacketType.AUTH =? PacketType.AUTH) with true. cbv iota.
        apply (consistent_after_write this
                 [cb_ignore; cb_auth (closures this)]); reflexivity.
  - unfold _write, bind, get.
    destruct (negb (_connected this));
      [apply consistent_frame; reflexivity || apply Nat.le_refl|].
    destruct (negb (writable (_client this)));
      [apply consistent_frame; reflexivity || apply Nat.le_refl|].
    rewrite He. apply stays_consistent_refl.
Qed.

Lemma write_listener_fresh (k : nat) (ids : list nat) :
  ~ In k ids -> ~ In (write_onError k) (map write_onError ids).
Proof.
  intros H Hin. apply in_map_iff in Hin as (j & [= ->] & Hj). auto.
Qed.

(** An End-tagged packet removes a callback and its listener together. *)
Lemma consistent_dispatch (d : DecodedRconPacket) :
  respects stays_consistent (dispatch d).
Proof.
  unfold dispatch.
  destruct ((type d =? PacketResponseType.RESPONSE_VALUE)
            || (type d =? PacketResponseType.RESPONSE_AUTH));
    [|repeat consistent_step].
  destruct (id d =? PacketId.MID); [repeat consistent_step|].
  destruct (id d =? PacketId.END); [|repeat consistent_step].
  intros this (H1 & H2 & H3 & H4). unfold bind, get, modify.
  destruct (_responseCallbackQueue this) as [|f q] eqn:Hq.
  - cbn. unfold consistent. cbn. rewrite H1. repeat split; constructor.
  - apply paired_tail in H4 as H4'.
    destruct f as [|k|k]; cbn [hd_error tl call].
    + cbn. unfold consistent. cbn. repeat split; assumption.
    + cbn in H1, H2, H3. inversion H2; subst. inversion H3; subst.
      unfold client_removeListener_error, modify_client, modify, bind,
        strict_equal, string_id, emit, modify.
      cbn. unfold consistent. cbn.
      rewrite (filter_remove_write k _ _ H1)
        by (apply write_listener_fresh; assumption).
      repeat split; assumption.
    + cbn in H1, H2, H3. inversion H2; subst. inversion H3; subst.
      unfold client_removeListener_error, modify_client, modify, bind,
        emit, modify.
      cbn. unfold consistent. cbn.
      rewrite (filter_remove_write k _ _ H1)
        by (apply write_listener_fresh; assumption).
      repeat split; assumption.
Qed.

Lemma consistent__socketOnData (data : Buffer) :
  respects stays_consistent (_socketOnData data).
Proof.
  unfold _socketOnData.
  apply (respects_bind stays_consistent stays_consistent_trans);
    [apply (respects_lift stays_consistent stays_consistent_refl) | intros _].
  apply (respects_bind stays_consistent stays_consistent_trans).
  { intros this. unfold _decodeData.
    destruct (feed (_encoding this) (_incomingData this) data) as [r rest].
    consistent_leaf. }
  intros packets.
  apply (respects_for_of stays_consistent stays_consistent_refl
           stays_consistent_trans).
  intros packet. repeat consistent_step. apply consistent_dispatch.
Qed.

Lemma consistent_connect : respects stays_consistent connect.
Proof.
  unfold connect, new_closure, client_once_connect, client_once_error,
    client_connect, modify_client.
  apply (respects_bind stays_consistent stays_consistent_trans);
    [intros this; consistent_leaf | intros k].
  repeat consistent_step.
Qed.

Lemma consistent_onConnect (k : nat) : respects stays_consistent (onConnect k).
Proof.
  unfold onConnect, client_removeListener_error, modify_client.
  repeat consistent_step.
  apply (respects_try_catch stays_consistent stays_consistent_trans);
    [apply consistent__write; right; reflexivity
    | intros e; apply consistent_emit].
Qed.

(** What the listeners of one ['error'] event leave: the queue is emptied
    by the first [onError] of a [_write], if there is one. *)
Lemma error_listeners_queue (err : Z) (ls : list ErrorListener) :
  forall this,
    let this' := run (for_of ls (error_listener err)) this in
    closures this' = closures this
    /\ once_error (_client this') = once_error (_client this)
    /\ ((_responseCallbackQueue this' = _responseCallbackQueue this
         /\ filter is_write_listener ls = [])
        \/ _responseCallbackQueue this' = []).
Proof.
  induction ls as [|l ls IH]; intros this; cbv zeta.
  - cbn. auto.
  - unfold run in *. cbn [for_of]. unfold bind.
    destruct l as [k|k]; cbn [error_listener filter is_write_listener].
    + change (connect_onError_body k err this)
        with (Normal tt,
              set_emitted (emitted this ++ [ev_error (Socket_error err)])
                (set_client
                   (set_once_connect
                      (remove_last Nat.eqb k (once_connect (_client this)))
                      (_client this)) this)).
      destruct (IH (set_emitted (emitted this ++ [ev_error (Socket_error err)])
                      (set_client
                         (set_once_connect
                            (remove_last Nat.eqb k (once_connect (_client this)))
                            (_client this)) this))) as (H1 & H2 & H3).
      rewrite H1, H2. cbn. repeat split.
      destruct H3 as [[H3 H5] | H3]; [left | right; exact H3].
      rewrite H3. cbn. auto.
    + change (write_onError_body err this)
        with (Normal tt,
              set_emitted (emitted this ++ [ev_error (Socket_error err)])
                (set_responseCallbackQueue [] this)).
      destruct (IH (set_emitted (emitted this ++ [ev_error (Socket_error err)])
                      (set_responseCallbackQueue [] this)))
        as (H1 & H2 & H3).
      rewrite H1, H2. cbn. repeat split. right.
      destruct H3 as [[H3 _] | H3]; rewrite H3; reflexivity.
Qed.

(** After an error of the socket of a consistent instance no request is
    pending and no listener is left. *)
Lemma consistent_error_clears (err : Z) (this : Rcon) :
  consistent this ->
  _responseCallbackQueue (run (socket_error err) this) = []
  /\ once_error (_client (run (socket_error err) this)) = []
  /\ closures (run (socket_error err) this) = closures this.
Proof.
  intros (H1 & H2 & H3 & H4).
  pose proof (error_listeners_queue err (once_error (_client this))
                (set_emitted (emitted this ++ [ev_error (Socket_error err)])
                   (set_client (set_once_error [] (_client this)) this)))
    as H.
  cbv zeta in H. unfold run in *.
  change (socket_error err this)
    with (for_of (once_error (_client this)) (error_listener err)
            (set_emitted (emitted this ++ [ev_error (Socket_error err)])
               (set_client (set_once_error [] (_client this)) this))).
  destruct H as (Hc & Hl & Hq). rewrite Hc, Hl. cbn. repeat split.
  destruct Hq as [[Hq Hf] | Hq]; [|exact Hq].
  rewrite Hq. cbn. apply pending_nothing; [exact H4|].
  rewrite Hf in H1. destruct (pending_ids (_responseCallbackQueue this));
    [reflexivity | discriminate H1].
Qed.

Lemma consistent_socket_error (err : Z) :
  respects stays_consistent (socket_error err).
Proof.
  intros this Hc.
  destruct (consistent_error_clears err this Hc) as (Hq & Hl & _).
  unfold run in *. unfold consistent. rewrite Hq, Hl. cbn.
  repeat split; constructor.
Qed.

Lemma consistent_perform (a : Action) : respects stays_consistent (perform a).
Proof.
  destruct a; cbn [perform].
  - apply consistent_connect.
  - apply consistent__write. left. reflexivity.
  - apply (respects_ret stays_consistent stays_consistent_refl).
  - unfold socket_connect, modify_client. repeat consistent_step.
    apply (respects_for_of stays_consistent stays_consistent_refl
             stays_consistent_trans).
    apply consistent_onConnect.
  - apply consistent__socketOnData.
  - apply consistent_socket_error.
  - unfold socket_close, _socketOnClose, modify_client.
    repeat consistent_step.
  - unfold timeout_fires. repeat consistent_step.
Qed.

Lemma consistent_new (password : option jsstring) (maximumPacketSize : option Z)
    (encoding : option Encoding) :
  consistent (new_Rcon password maximumPacketSize encoding).
Proof.
  unfold consistent. cbn. repeat split; constructor.
Qed.

(** X10: Whatever is called on a new instance and whatever its socket does, in
    any order and whether these calls return or throw, the [onError]
    listeners that [_write] has left on the
    socket are exactly those of the callbacks still in the queue, oldest
    first: a callback and its listener come and go together (the
    [() => {}] of an AUTH packet has none and is always followed by the
    callback of that packet), and no closure is registered twice. *)
Theorem listeners_match_pending (actions : list Action)
    (password : option jsstring) (maximumPacketSize : option Z)
    (encoding : option Encoding) :
  consistent (reach actions (new_Rcon password maximumPacketSize encoding)).
Proof.
  apply (respects_reach stays_consistent stays_consistent_refl
           stays_consistent_trans _ consistent_perform).
  apply consistent_new.
Qed.

(** X11: In every state an instance can reach, an ['error'] event of the socket
    drops all pending requests: the queue is empty afterwards and no error
    listener is left, so the replies to the requests already written will
    find no callback. *)
Theorem socket_error_drops_pending (actions : list Action)
    (password : option jsstring) (maximumPacketSize : option Z)
    (encoding : option Encoding) (err : Z) :
  let this := reach actions (new_Rcon password maximumPacketSize encoding) in
  _responseCallbackQueue (run (socket_error err) this) = []
  /\ once_error (_client (run (socket_error err) this)) = [].
Proof.
  intros this.
  destruct (consistent_error_clears err this) as (Hq & Hl & _);
    [|split; assumption].
  apply (respects_reach stays_consistent stays_consistent_refl
           stays_consistent_trans _ consistent_perform).
  apply consistent_new.
Qed.

(* ================================================================= *)
(** * A command and its reply, byte by byte *)

Lemma remove_last_added (x : ErrorListener) (l : list ErrorListener) :
  remove_last ErrorListener_eqb x (l ++ [x]) = l.
Proof.
  assert (Hx : ErrorListener_eqb x x = true)
    by (apply ErrorListener_eqb_eq; reflexivity).
  induction l as [|y l IH]; cbn [app remove_last].
  - rewrite Hx. reflexivity.
  - replace (existsb (ErrorListener_eqb x) (l ++ [x])) with true.
    + rewrite andb_false_r, IH. reflexivity.
    + symmetry. apply existsb_eqb_In, in_or_app. right. left. reflexivity.
Qed.

Lemma decode_encoded (enc : Encoding) (ty i : Z) (s : jsstring)
    (pkt : Buffer) :
  representable enc s = true ->
  _encodePacket enc ty i s = Ret pkt ->
  _decodePacket enc pkt = Ret (decoded_frame ty i s).
Proof.
  intros Hr He.
  apply _encodePacket_layout in He as [(Hn & Hi & Ht) ->].
  destruct (representable_payload enc s Hr) as [HE Hd].
  cbv zeta in HE. rewrite HE.
  replace (length (concat (utf8_chunks s)) - length (concat (utf8_chunks s)))%nat
    with 0%nat by lia.
  cbn [repeat app]. unfold decoded_frame, Buffer_byteLength, byteLength.
  rewrite _decodePacket_layout; try assumption.
  - rewrite Hd. reflexivity.
  - unfold int32_min. lia.
Qed.

Lemma encoded_framed (enc : Encoding) (ty i : Z) (s : jsstring)
    (pkt : Buffer) :
  _encodePacket enc ty i s = Ret pkt -> s <> [] -> framed pkt.
Proof.
  intros He Hs.
  destruct (_encodePacket_header enc ty i s pkt He) as (Hv & Hl & _).
  exists (Buffer_byteLength s + 10). repeat split; try assumption.
  pose proof (length_le_utf8 s) as Hle.
  unfold Buffer_byteLength, byteLength.
  destruct s; [contradiction | cbn [length] in Hle; lia].
Qed.

(** The reply of the server to a command, as it comes from the wire. *)
Lemma feed_reply (enc : Encoding) (answer : Buffer) :
  framed answer ->
  feed enc [] (answer ++ empty_packet) = (Normal [answer; empty_packet], []).
Proof.
  intros Hf.
  rewrite (feed_Push enc _ answer empty_packet).
  - replace (feed enc [] empty_packet) with (Normal [empty_packet], @nil byte)
      by (destruct enc; vm_compute; reflexivity).
    reflexivity.
  - apply decode_turn_framed, Hf.
  - pose proof (framed_length answer Hf). rewrite length_app. lia.
Qed.

(** X12: A command and its reply, from [execute] to the ['response'] event
    and through the bytes of the socket: when an instance with nothing
    pending accepts a command, and the socket then delivers a packet of
    type [RESPONSE_VALUE] tagged Mid that carries the reply followed by an
    empty End packet, the listener of ['data'] returns and exactly one
    event is emitted, [response] with the reply as the server encoded it;
    the two packets of the command were written, and the queue, the
    buffer, the fragments and the error listeners are as before the
    command. *)
Theorem command_round_trip (this : Rcon) (command reply : jsstring)
    (pkt answer : Buffer) :
  _incomingData this = [] -> _incomingResponse this = [] ->
  _responseCallbackQueue this = [] ->
  _encodePacket (_encoding this) PacketType.COMMAND PacketId.MID command
  = Ret pkt ->
  refusal (byteLength pkt) this = None ->
  _encodePacket (_encoding this) PacketResponseType.RESPONSE_VALUE
    PacketId.MID reply = Ret answer ->
  representable (_encoding this) reply = true -> reply <> [] ->
  let m := execute command ;; socket_data (answer ++ empty_packet) in
  ending m this = Normal tt
  /\ emitted (run m this) = emitted this ++ [ev_response reply]
  /\ written (_client (run m this))
     = written (_client this) ++ [pkt; empty_command_packet]
  /\ _responseCallbackQueue (run m this) = []
  /\ _incomingData (run m this) = []
  /\ _incomingResponse (run m this) = []
  /\ once_error (_client (run m this)) = once_error (_client this).
Proof.
  intros Hd Hr Hq Hp Href Ha Hrep Hne m.
  pose proof (encoded_framed _ _ _ _ _ Ha Hne) as Hf.
  pose proof (decode_encoded _ _ _ _ _ Hrep Ha) as Hdec.
  pose proof (feed_reply (_encoding this) answer Hf) as Hfeed.
  assert (Hhex : _bufToHexString (answer ++ empty_packet) = Ret tt).
  { apply framed_length in Hf. destruct answer; [cbn in Hf; lia | reflexivity]. }
  assert (Hend : _decodePacket (_encoding this) empty_packet
                 = Ret (decoded_frame 0 2 [])).
  { destruct (_encoding this); reflexivity. }
  assert (Hm : m this
               = (Normal tt,
                  set_incomingResponse []
                    (responded (closures this) reply
                       (set_responseCallbackQueue []
                          (set_incomingResponse
                             [decoded_frame PacketResponseType.RESPONSE_VALUE
                                PacketId.MID reply]
                             (set_incomingData []
                                (command_written pkt this))))))).
  { subst m. unfold bind at 1. unfold execute.
    rewrite (_write_accepted_or_refused this PacketType.COMMAND command pkt);
      [| left; reflexivity | exact Hp].
    rewrite Href. change (PacketType.COMMAND =? PacketType.AUTH) with false.
    cbv iota.
    unfold socket_data, _socketOnData, _decodeData.
    unfold bind at 1. rewrite Hhex. cbn [lift].
    unfold bind at 1.
    replace (_encoding (command_written pkt this)) with (_encoding this)
      by reflexivity.
    replace (_incomingData (command_written pkt this)) with (@nil byte)
      by (rewrite <- Hd; reflexivity).
    rewrite Hfeed. cbn [for_of].
    unfold bind, get. cbn [lift].
    replace (_encoding (set_incomingData [] (command_written pkt this)))
      with (_encoding this) by reflexivity.
    rewrite Hdec. cbn [lift].
    rewrite dispatch_fragment by reflexivity.
    match goal with
    | |- context [_decodePacket (_encoding ?t) empty_packet] =>
        replace (_encoding t) with (_encoding this) by reflexivity
    end.
    rewrite Hend. cbn [lift].
    erewrite (dispatch_end_response _ _ (closures this) [])
      by (reflexivity || (cbn; rewrite Hq; reflexivity)).
    cbn [ret]. cbn. rewrite Hr. reflexivity. }
  unfold ending, run. rewrite Hm. clear - Hd Hr Hq.
  destruct this as [? ? ? ? ? ? ? ? ? [? ? ? ? ?] ? ? ?].
  cbn in Hd, Hr, Hq. subst.
  cbn. rewrite remove_last_added. repeat split.
Qed.

Lemma command_round_trip_witness :
  emitted (run (execute (js "ShowNextMap") ;;
                socket_data (NextMap_reply_packet ++ empty_packet))
             authed_instance)
  = [ev_connect; ev_authed; ev_response NextMap_reply].
Proof.
  assert (Hp : _encodePacket (_encoding authed_instance) PacketType.COMMAND
                 PacketId.MID (js "ShowNextMap") = Ret ShowNextMap_packet)
    by (vm_compute; reflexivity).
  assert (Href : refusal (byteLength ShowNextMap_packet) authed_instance = None)
    by (vm_compute; reflexivity).
  assert (Ha : _encodePacket (_encoding authed_instance)
                 PacketResponseType.RESPONSE_VALUE PacketId.MID NextMap_reply
               = Ret NextMap_reply_packet)
    by (vm_compute; reflexivity).
  assert (Hrep : representable (_encoding authed_instance) NextMap_reply = true)
    by (vm_compute; reflexivity).
  assert (Hne : NextMap_reply <> []) by (vm_compute; discriminate).
  exact (proj1 (proj2 (command_round_trip authed_instance (js "ShowNextMap")
                         NextMap_reply ShowNextMap_packet NextMap_reply_packet
                         eq_refl eq_refl eq_refl Hp Href Ha Hrep Hne))).
Defined.

(* ================================================================= *)
(** * Reconnecting needs a successful authentication *)

Lemma stays_authed_first_refl (this : Rcon) : stays_authed_first this this.
Proof. intros H. exact H. Qed.

Lemma stays_authed_first_trans (a b c : Rcon) :
  stays_authed_first a b -> stays_authed_first b c -> stays_authed_first a c.
Proof. unfold stays_authed_first. auto. Qed.

(** A step that turns nothing on and takes no event back. *)
Lemma authed_first_frame (this this' : Rcon) :
  _autoReconnect this' = _autoReconnect this ->
  (timeouts this' <> [] -> timeouts this <> [] \/ _autoReconnect this = true) ->
  (exists evs, emitted this' = emitted this ++ evs) ->
  stays_authed_first this this'.
Proof.
  intros Ha Ht [evs He] H [H1 | H1]; rewrite He; apply in_or_app; left;
    apply H.
  - left. congruence.
  - destruct (Ht H1); auto.
Qed.

Ltac authed_leaf :=
  intros; apply authed_first_frame; cbn;
  [ reflexivity
  | auto
  | first [ exists []; rewrite app_nil_r; reflexivity
          | eexists; reflexivity ] ].

Lemma authed_first_emit (ev : Event) : respects stays_authed_first (emit ev).
Proof. unfold respects. authed_leaf. Qed.

Lemma authed_first_modify (f : Rcon -> Rcon) :
  (forall this, stays_authed_first this (f this)) ->
  respects stays_authed_first (modify f).
Proof. intros H this. apply H. Qed.

Ltac authed_step :=
  first
    [ apply (respects_ret stays_authed_first stays_authed_first_refl)
    | apply (respects_get stays_authed_first stays_authed_first_refl)
    | apply (respects_lift stays_authed_first stays_authed_first_refl)
    | apply authed_first_emit
    | apply authed_first_modify; authed_leaf
    | apply (respects_bind stays_authed_first stays_authed_first_trans);
      [|intros ?]
    | match goal with
      | |- respects stays_authed_first (if ?c then _ else _) => destruct c
      | |- respects stays_authed_first (match ?c with _ => _ end) => destruct c
      end ].

Lemma authed_first__write (ty : Z) (s : jsstring) :
  respects stays_authed_first (_write ty s).
Proof.
  unfold _write, new_closure, client_once_error, client_write, modify_client.
  repeat authed_step.
  all: try (intros this; authed_leaf).
Qed.

(** The callback of the AUTH packet turns auto-reconnect on and emits
    [authed] in the same call. *)
Lemma authed_first_call (f : Callback) (arg : jsstring) :
  respects stays_authed_first (call f arg).
Proof.
  destruct f as [|k|k]; cbn [call];
    unfold client_removeListener_error, modify_client.
  - repeat authed_step.
  - apply (respects_bind stays_authed_first stays_authed_first_trans);
      [authed_step | intros _].
    unfold strict_equal, string_id.
    intros this _ _. cbn. apply in_or_app. right. left. reflexivity.
  - repeat authed_step.
Qed.

Lemma authed_first_dispatch (d : DecodedRconPacket) :
  respects stays_authed_first (dispatch d).
Proof.
  unfold dispatch. repeat authed_step; apply authed_first_call.
Qed.

Lemma authed_first__socketOnData (data : Buffer) :
  respects stays_authed_first (_socketOnData data).
Proof.
  unfold _socketOnData.
  apply (respects_bind stays_authed_first stays_authed_first_trans);
    [authed_step | intros _].
  apply (respects_bind stays_authed_first stays_authed_first_trans).
  { intros this. unfold _decodeData.
    destruct (feed (_encoding this) (_incomingData this) data) as [r rest].
    authed_leaf. }
  intros packets.
  apply (respects_for_of stays_authed_first stays_authed_first_refl
           stays_authed_first_trans).
  intros packet. repeat authed_step. apply authed_first_dispatch.
Qed.

Lemma authed_first_connect : respects stays_authed_first connect.
Proof.
  unfold connect, new_closure, client_once_connect, client_once_error,
    client_connect, modify_client.
  apply (respects_bind stays_authed_first stays_authed_first_trans);
    [intros this; authed_leaf | intros k].
  repeat authed_step.
Qed.

Lemma authed_first_onConnect (k : nat) :
  respects stays_authed_first (onConnect k).
Proof.
  unfold onConnect, client_removeListener_error, modify_client.
  repeat authed_step.
  apply (respects_try_catch stays_authed_first stays_authed_first_trans);
    [apply authed_first__write | intros e; apply authed_first_emit].
Qed.

Lemma authed_first_socket_error (err : Z) :
  respects stays_authed_first (socket_error err).
Proof.
  unfold socket_error, _socketOnError, modify_client. repeat authed_step.
  apply (respects_for_of stays_authed_first stays_authed_first_refl
           stays_authed_first_trans).
  intros [k|k]; cbn [error_listener];
    unfold connect_onError_body, write_onError_body,
      client_removeListener_connect, modify_client;
    repeat authed_step.
Qed.

(** A close schedules a reconnect only when auto-reconnect is on. *)
Lemma authed_first_socket_close (hadError : bool) :
  respects stays_authed_first (socket_close hadError).
Proof.
  intros this. unfold socket_close, _socketOnClose, modify_client, bind,
    modify, get. cbn.
  destruct (_autoReconnect this) eqn:Ha; cbn.
  - intros H _. cbn. apply H. left. exact Ha.
  - apply authed_first_frame; cbn; [reflexivity | auto |].
    exists []. rewrite app_nil_r. reflexivity.
Qed.

Lemma authed_first_timeout_fires : respects stays_authed_first timeout_fires.
Proof.
  intros this. unfold timeout_fires, bind, get.
  destruct (timeouts this) as [|t rest] eqn:Ht.
  - apply stays_authed_first_refl.
  - unfold modify. cbn [fst snd].
    eapply stays_authed_first_trans; [|apply authed_first_connect].
    apply authed_first_frame; cbn; [reflexivity | |].
    + intros _. left. rewrite Ht. discriminate.
    + exists []. rewrite app_nil_r. reflexivity.
Qed.

Lemma authed_first_perform (a : Action) :
  respects stays_authed_first (perform a).
Proof.
  destruct a; cbn [perform].
  - apply authed_first_connect.
  - apply authed_first__write.
  - apply (respects_ret stays_authed_first stays_authed_first_refl).
  - unfold socket_connect, modify_client. repeat authed_step.
    apply (respects_for_of stays_authed_first stays_authed_first_refl
             stays_authed_first_trans).
    apply authed_first_onConnect.
  - apply authed_first__socketOnData.
  - apply authed_first_socket_error.
  - apply authed_first_socket_close.
  - apply authed_first_timeout_fires.
Qed.

(** X13: Whatever is called on a new instance and whatever its socket does:
    when auto-reconnect is on, or a reconnect is scheduled by a close of
    the socket, [authed] has been emitted before.  An instance that never
    authenticated is never reconnected by the class itself. *)
Theorem reconnect_only_after_authed (actions : list Action)
    (password : option jsstring) (maximumPacketSize : option Z)
    (encoding : option Encoding) :
  let this := reach actions (new_Rcon password maximumPacketSize encoding) in
  _autoReconnect this = true \/ timeouts this <> [] ->
  In ev_authed (emitted this).
Proof.
  apply (respects_reach stays_authed_first stays_authed_first_refl
           stays_authed_first_trans _ authed_first_perform).
  intros [H | H]; [discriminate H | contradiction H; reflexivity].
Qed.

Lemma reconnect_only_after_authed_witness :
  let this :=
    reach [call_connect; on_connect; on_data empty_packet;
           on_data auth_ok_packet; on_close false]
      (new_Rcon (Some (js "secret")) (Some 4096) (Some enc_utf8)) in
  timeouts this = [5000] /\ In ev_authed (emitted this).
Proof.
  split; [vm_compute; reflexivity|].
  apply (reconnect_only_after_authed
           [call_connect; on_connect; on_data empty_packet;
            on_data auth_ok_packet; on_close false]
           (Some (js "secret")) (Some 4096) (Some enc_utf8)).
  right. vm_compute. discriminate.
Defined.

(* ================================================================= *)
(** * The second copy of the class reconnects without authentication *)

Lemma Variant_write_accepted_or_refused (this : Rcon) (ty : Z) (s : jsstring)
    (pkt : Buffer) :
  ty = PacketType.COMMAND \/ ty = PacketType.AUTH ->
  Variant._encodePacket ty
    (if negb (ty =? PacketType.AUTH) then PacketId.MID else PacketId.END) s
  = Ret pkt ->
  Variant._write ty s this
  = (Normal tt,
     match refusal (byteLength pkt) this with
     | Some err => set_emitted (emitted this ++ [ev_error err]) this
     | None => if ty =? PacketType.AUTH then auth_written pkt this
               else command_written pkt this
     end).
Proof.
  intros Hty He. unfold refusal, Variant._write, bind, get.
  destruct (_connected this) eqn:Hc; cbn [negb]; [|reflexivity].
  destruct (writable (_client this)) eqn:Hw; cbn [negb]; [|reflexivity].
  rewrite He. cbn [lift]. unfold Variant._encodePacket in *.
  rewrite (_encodePacket_nonempty _ _ _ _ _ He). cbn [lift].
  replace (_encodePacket enc_utf8 ty PacketId.END [])
    with (Ret (int32LE 10 ++ int32LE PacketId.END ++ int32LE ty ++ [x00; x00]))
    by (destruct Hty as [-> | ->]; reflexivity).
  cbn [lift int32LE app _bufToHexString].
  destruct (_maximumPacketSize this <? byteLength pkt); [reflexivity|].
  clear - Hty. destruct this as [? ? ? ? ? ? ? ? ? [? ? ? ? ?] ? ? ?].
  destruct Hty as [-> | ->].
  - change (PacketType.COMMAND =? PacketType.AUTH) with false.
    cbv [negb]. state_eq. rewrite <- app_assoc. reflexivity.
  - change (PacketType.AUTH =? PacketType.AUTH) with true.
    cbv [negb]. state_eq.
    cbv [auth_written closures _client written once_error
         _responseCallbackQueue set_client set_written
         set_once_error set_responseCallbackQueue set_closures].
    rewrite <- app_assoc. reflexivity.
Qed.

(** X14: In the second copy of the class, on a new instance, [connect()] and
    the ['connect'] event of the socket turn auto-reconnect on before the
    server has answered anything: [authed] has not been emitted, and the
    AUTH packet may even have been refused as too long and never
    written.  A close of the socket then schedules a reconnect after 5000
    ms. *)
Theorem variant_reconnects_unauthenticated (password : option jsstring)
    (maximumPacketSize : option Z) (encoding : option Encoding)
    (pkt : Buffer) :
  let this0 := new_Rcon password maximumPacketSize encoding in
  Variant._encodePacket PacketType.AUTH PacketId.END (_password this0)
  = Ret pkt ->
  let this1 := run (connect ;; Variant.socket_connect) this0 in
  _autoReconnect this1 = true
  /\ emitted this1
     = ev_connect
       :: (if _maximumPacketSize this0 <? byteLength pkt
           then [ev_error Packet_too_long] else [])
  /\ written (_client this1)
     = (if _maximumPacketSize this0 <? byteLength pkt then [] else [pkt])
  /\ (forall hadError,
        timeouts (run (socket_close hadError) this1) = [5000]).
Proof.
  intros this0 He this1. subst this1 this0. unfold new_Rcon in *.
  set (mx := match maximumPacketSize with
             | Some n => if n =? 0 then 4096 else n
             | None => 4096
             end) in *.
  set (en := match encoding with Some e => e | None => enc_utf8 end) in *.
  set (pw := match password with Some p => p | None => [] end) in *.
  cbn [_encoding _password _maximumPacketSize] in *.
  cbv [run connect Variant.socket_connect bind new_closure
       client_once_connect
       client_once_error client_connect modify_client modify get snd for_of
       Variant.onConnect emit client_removeListener_error try_catch ret
       set_closures set_client set_once_connect set_once_error
       set_connect_calls set_writable set_emitted set_connected
       _client closures once_connect once_error connect_calls emitted
       _maximumPacketSize _encoding _password _incomingData
       _incomingResponse _responseCallbackQueue _connected _autoReconnect
       _autoReconnectDelay timeouts writable written app remove_last
       ErrorListener_eqb Nat.eqb existsb andb negb].
  rewrite (Variant_write_accepted_or_refused _ PacketType.AUTH pw pkt);
    [| right; reflexivity | exact He].
  cbv [refusal _connected _client writable _maximumPacketSize negb].
  destruct (mx <? byteLength pkt).
  - repeat split.
  - change (PacketType.AUTH =? PacketType.AUTH) with true. cbv iota.
    repeat split.
Qed.

Lemma variant_reconnects_unauthenticated_witness :
  let this1 :=
    run (connect ;; Variant.socket_connect)
      (new_Rcon (Some (js "secret")) (Some 19) (Some enc_ascii)) in
  _autoReconnect this1 = true
  /\ emitted this1 = [ev_connect; ev_error Packet_too_long]
  /\ written (_client this1) = []
  /\ timeouts (run (socket_close false) this1) = [5000].
Proof.
  destruct (variant_reconnects_unauthenticated
              (Some (js "secret")) (Some 19) (Some enc_ascii)
              [x10; x00; x00; x00; x02; x00; x00; x00; x03; x00; x00; x00;
               "s"; "e"; "c"; "r"; "e"; "t"; x00; x00]%byte eq_refl)
    as (H1 & H2 & H3 & H4).
  split; [exact H1 | split; [exact H2 | split; [exact H3 | exact (H4 false)]]].
Defined.

(* ================================================================= *)
(** * The threshold of the logger *)

Lemma Logger_invoke_log (m : Logger.Method)
    (now module subModule message : string) (extras : list string)
    (this : Logger.LoggerClass) :
  let c := Logger.log_call m now module subModule message extras in
  Logger.invoke c this
  = if Logger.level_of m <=? Logger._logLevel this then
      {| Logger._logLevel := Logger._logLevel this;
         Logger.printed := Logger.printed this ++ Logger.printed_of c;
         Logger.appended := Logger.appended this ++ Logger.appended_of c |}
    else this.
Proof. destruct m; reflexivity. Qed.

Lemma Logger_invoke_all (calls : list Logger.Call) :
  forall this,
    let this' := Logger.invoke_all calls this in
    Logger.printed this'
    = Logger.printed this
        ++ flat_map Logger.printed_of
             (Logger.passing (Logger._logLevel this) calls)
    /\ Logger.appended this'
       = Logger.appended this
           ++ flat_map Logger.appended_of
                (Logger.passing (Logger._logLevel this) calls).
Proof.
  induction calls as [|c calls IH]; intros this; cbv zeta.
  - cbn. rewrite !app_nil_r. auto.
  - unfold Logger.invoke_all in *. cbn [fold_left].
    destruct c as [m now module subModule message extras | level].
    + specialize (IH (Logger.invoke
                        (Logger.log_call m now module subModule message extras)
                        this)).
      cbv zeta in IH. destruct IH as [IH1 IH2]. rewrite IH1, IH2.
      rewrite Logger_invoke_log. cbv zeta. cbn [Logger.passing].
      destruct (Logger.level_of m <=? Logger._logLevel this).
      * cbn [Logger._logLevel Logger.printed Logger.appended flat_map].
        rewrite <- !app_assoc. auto.
      * auto.
    + specialize (IH (Logger.setLogLevel level this)). cbv zeta in IH.
      cbn [Logger.invoke Logger.passing]. exact IH.
Qed.

Lemma Logger_off_silent (calls : list Logger.Call) :
  Logger.invoke_all (filter Logger.is_log_call calls) Logger.new_LoggerClass
  = Logger.new_LoggerClass.
Proof.
  induction calls as [|[m now module subModule message extras|level] calls IH];
    cbn [filter Logger.is_log_call]; auto.
  unfold Logger.invoke_all in *. cbn [fold_left].
  rewrite Logger_invoke_log. cbv zeta.
  cbn [Logger._logLevel Logger.new_LoggerClass].
  replace (Logger.level_of m <=? LogLevel.OFF) with false
    by (destruct m; reflexivity).
  exact IH.
Qed.

Lemma Logger_passing_debug (calls : list Logger.Call) :
  Logger.passing LogLevel.DEBUG (filter Logger.is_log_call calls)
  = filter Logger.is_log_call calls.
Proof.
  induction calls as [|[m ? ? ? ? ?|?] calls IH]; cbn [filter Logger.is_log_call];
    auto.
  cbn [Logger.passing].
  replace (Logger.level_of m <=? LogLevel.DEBUG) with true
    by (destruct m; reflexivity).
  rewrite IH. reflexivity.
Qed.

(** X15: After any sequence of calls of [fatal], [error], [warn], [info],
    [debug] and [setLogLevel], the logger has given to [console.log] and
    appended to the file exactly the calls whose level was at most the
    threshold in force when they were made, in their order, the same ones
    to both.  So a new logger, whose threshold is [OFF], logs nothing --
    not even [fatal] -- until [setLogLevel] is called; and under [DEBUG]
    every call is logged. *)
Theorem logger_threshold (calls : list Logger.Call)
    (this : Logger.LoggerClass) :
  let this' := Logger.invoke_all calls this in
  let passed := Logger.passing (Logger._logLevel this) calls in
  Logger.printed this'
  = Logger.printed this ++ flat_map Logger.printed_of passed
  /\ Logger.appended this'
     = Logger.appended this ++ flat_map Logger.appended_of passed
  /\ Logger.invoke_all (filter Logger.is_log_call calls)
       Logger.new_LoggerClass
     = Logger.new_LoggerClass
  /\ Logger.passing LogLevel.DEBUG (filter Logger.is_log_call calls)
     = filter Logger.is_log_call calls.
Proof.
  cbv zeta. split; [|split; [|split]].
  - apply Logger_invoke_all.
  - apply Logger_invoke_all.
  - apply Logger_off_silent.
  - apply Logger_passing_debug.
Qed.

(* ================================================================= *)
(** * What is written fits the limit *)

Lemma stays_within_limit_refl (this : Rcon) : stays_within_limit this this.
Proof. intros H. exact H. Qed.

Lemma stays_within_limit_trans (a b c : Rcon) :
  stays_within_limit a b -> stays_within_limit b c -> stays_within_limit a c.
Proof. unfold stays_within_limit. auto. Qed.

Lemma within_limit_frame (this this' : Rcon) :
  _maximumPacketSize this' = _maximumPacketSize this ->
  written (_client this') = written (_client this) ->
  stays_within_limit this this'.
Proof.
  intros Hm Hw H. unfold within_limit in *. rewrite Hm, Hw. exact H.
Qed.

Ltac limit_leaf := intros; apply within_limit_frame; reflexivity.

Lemma within_limit_modify (f : Rcon -> Rcon) :
  (forall this, stays_within_limit this (f this)) ->
  respects stays_within_limit (modify f).
Proof. intros H this. apply H. Qed.

Ltac limit_step :=
  first
    [ apply (respects_ret stays_within_limit stays_within_limit_refl)
    | apply (respects_get stays_within_limit stays_within_limit_refl)
    | apply (respects_lift stays_within_limit stays_within_limit_refl)
    | apply within_limit_modify; limit_leaf
    | apply (respects_bind stays_within_limit stays_within_limit_trans);
      [|intros ?]
    | match goal with
      | |- respects stays_within_limit (if ?c then _ else _) => destruct c
      | |- respects stays_within_limit (match ?c with _ => _ end) => destruct c
      end ].

(** [_write] tests the packet before it writes it, and the empty packet
    that follows a command is not longer. *)
Lemma within_limit__write (ty : Z) (s : jsstring) :
  ty = PacketType.COMMAND \/ ty = PacketType.AUTH ->
  respects stays_within_limit (_write ty s).
Proof.
  intros Hty this.
  destruct (_encodePacket (_encoding this) ty
              (if negb (ty =? PacketType.AUTH) then PacketId.MID
               else PacketId.END) s) as [pkt|e] eqn:He.
  - rewrite (_write_accepted_or_refused this ty s pkt Hty He). cbn [snd].
    destruct (_encodePacket_header _ _ _ _ _ He) as (Hv & Hl & _).
    assert (Hn : 0 <= Buffer_byteLength s)
      by (unfold Buffer_byteLength, byteLength; lia).
    unfold refusal.
    destruct (negb (_connected this)); [limit_leaf|].
    destruct (negb (writable (_client this))); [limit_leaf|].
    destruct (Z.ltb_spec (_maximumPacketSize this) (byteLength pkt));
      [limit_leaf|].
    assert (Hp : sized (_maximumPacketSize this) pkt).
    { split; [assumption|]. rewrite Hv. f_equal. lia. }
    intros Hw. unfold within_limit in *.
    destruct Hty as [-> | ->].
    + change (PacketType.COMMAND =? PacketType.AUTH) with false. cbv iota.
      cbn. apply Forall_app. split; [exact Hw|].
      repeat constructor; try exact (proj1 Hp); try exact (proj2 Hp).
      change (byteLength empty_command_packet) with 14. lia.
    + change (PacketType.AUTH =? PacketType.AUTH) with true. cbv iota.
      cbn. apply Forall_app. split; [exact Hw|].
      repeat constructor; [exact (proj1 Hp) | exact (proj2 Hp)].
  - unfold _write, bind, get.
    destruct (negb (_connected this)); [limit_leaf|].
    destruct (negb (writable (_client this))); [limit_leaf|].
    rewrite He. apply stays_within_limit_refl.
Qed.

Lemma within_limit_call (f : Callback) (arg : jsstring) :
  respects stays_within_limit (call f arg).
Proof.
  unfold call, client_removeListener_error, modify_client, emit.
  destruct f; repeat limit_step.
Qed.

Lemma within_limit_dispatch (d : DecodedRconPacket) :
  respects stays_within_limit (dispatch d).
Proof.
  unfold dispatch, emit. repeat limit_step; apply within_limit_call.
Qed.

Lemma within_limit__socketOnData (data : Buffer) :
  respects stays_within_limit (_socketOnData data).
Proof.
  unfold _socketOnData.
  apply (respects_bind stays_within_limit stays_within_limit_trans);
    [limit_step | intros _].
  apply (respects_bind stays_within_limit stays_within_limit_trans).
  { intros this. unfold _decodeData.
    destruct (feed (_encoding this) (_incomingData this) data) as [r rest].
    limit_leaf. }
  intros packets.
  apply (respects_for_of stays_within_limit stays_within_limit_refl
           stays_within_limit_trans).
  intros packet. repeat limit_step. apply within_limit_dispatch.
Qed.

Lemma within_limit_connect : respects stays_within_limit connect.
Proof.
  unfold connect, new_closure, client_once_connect, client_once_error,
    client_connect, modify_client.
  apply (respects_bind stays_within_limit stays_within_limit_trans);
    [intros this; limit_leaf | intros k].
  repeat limit_step.
Qed.

Lemma within_limit_onConnect (k : nat) :
  respects stays_within_limit (onConnect k).
Proof.
  unfold onConnect, client_removeListener_error, modify_client, emit.
  repeat limit_step.
  apply (respects_try_catch stays_within_limit stays_within_limit_trans);
    [apply within_limit__write; right; reflexivity
    | intros e; repeat limit_step].
Qed.

Lemma within_limit_socket_error (err : Z) :
  respects stays_within_limit (socket_error err).
Proof.
  unfold socket_error, _socketOnError, modify_client, emit.
  repeat limit_step.
  apply (respects_for_of stays_within_limit stays_within_limit_refl
           stays_within_limit_trans).
  intros [k|k]; cbn [error_listener];
    unfold connect_onError_body, write_onError_body,
      client_removeListener_connect, modify_client, emit;
    repeat limit_step.
Qed.

Lemma within_limit_perform (a : Action) :
  respects stays_within_limit (perform a).
Proof.
  destruct a; cbn [perform].
  - apply within_limit_connect.
  - apply within_limit__write. left. reflexivity.
  - apply (respects_ret stays_within_limit stays_within_limit_refl).
  - unfold socket_connect, modify_client. repeat limit_step.
    apply (respects_for_of stays_within_limit stays_within_limit_refl
             stays_within_limit_trans).
    apply within_limit_onConnect.
  - apply within_limit__socketOnData.
  - apply within_limit_socket_error.
  - unfold socket_close, _socketOnClose, modify_client.
    repeat limit_step.
  - unfold timeout_fires. repeat limit_step.
Qed.

(** X16: Whatever is called on a new instance and whatever its socket does,
    no buffer given to [_client.write] is longer than
    [maximumPacketSize], the empty packet that follows a command
    included, and each one declares in its first four bytes its length
    less four. *)
Theorem written_within_limit (actions : list Action)
    (password : option jsstring) (maximumPacketSize : option Z)
    (encoding : option Encoding) :
  let this := reach actions (new_Rcon password maximumPacketSize encoding) in
  Forall (sized (_maximumPacketSize this)) (written (_client this)).
Proof.
  apply (respects_reach stays_within_limit stays_within_limit_refl
           stays_within_limit_trans _ within_limit_perform).
  constructor.
Qed.

(* ================================================================= *)
(** * An error that is never emitted *)

Lemma stays_never_failed_refl (this : Rcon) : stays_never_failed this this.
Proof. intros H. exact H. Qed.

Lemma stays_never_failed_trans (a b c : Rcon) :
  stays_never_failed a b -> stays_never_failed b c -> stays_never_failed a c.
Proof. unfold stays_never_failed. auto. Qed.

Lemma never_failed_frame (this this' : Rcon) :
  emitted this' = emitted this -> stays_never_failed this this'.
Proof. intros He H. unfold never_failed in *. rewrite He. exact H. Qed.

Lemma never_failed_emit (ev : Event) :
  ev <> ev_error Authentication_failed ->
  respects stays_never_failed (emit ev).
Proof.
  intros Hev this H. unfold never_failed in *. cbn.
  intros Hin. apply in_app_or in Hin as [Hin | [Hin | []]]; auto.
Qed.

Ltac failed_leaf := intros; apply never_failed_frame; reflexivity.

Lemma never_failed_modify (f : Rcon -> Rcon) :
  (forall this, stays_never_failed this (f this)) ->
  respects stays_never_failed (modify f).
Proof. intros H this. apply H. Qed.

Ltac failed_step :=
  first
    [ apply (respects_ret stays_never_failed stays_never_failed_refl)
    | apply (respects_get stays_never_failed stays_never_failed_refl)
    | apply (respects_lift stays_never_failed stays_never_failed_refl)
    | apply never_failed_emit; discriminate
    | apply never_failed_modify; failed_leaf
    | apply (respects_bind stays_never_failed stays_never_failed_trans);
      [|intros ?]
    | match goal with
      | |- respects stays_never_failed (if ?c then _ else _) => destruct c
      | |- respects stays_never_failed (match ?c with _ => _ end) => destruct c
      end ].

Lemma never_failed__write (ty : Z) (s : jsstring) :
  respects stays_never_failed (_write ty s).
Proof.
  unfold _write, new_closure, client_once_error, client_write, modify_client.
  repeat failed_step.
  all: try (intros this; failed_leaf).
Qed.

(** The test of the callback of the AUTH packet is made on a string, which
    has no [id]: its first branch is never taken. *)
Lemma never_failed_call (f : Callback) (arg : jsstring) :
  respects stays_never_failed (call f arg).
Proof.
  destruct f as [|k|k]; cbn [call];
    unfold client_removeListener_error, modify_client, strict_equal,
      string_id;
    repeat failed_step.
Qed.

Lemma never_failed_dispatch (d : DecodedRconPacket) :
  respects stays_never_failed (dispatch d).
Proof.
  unfold dispatch. repeat failed_step; apply never_failed_call.
Qed.

Lemma never_failed__socketOnData (data : Buffer) :
  respects stays_never_failed (_socketOnData data).
Proof.
  unfold _socketOnData.
  apply (respects_bind stays_never_failed stays_never_failed_trans);
    [failed_step | intros _].
  apply (respects_bind stays_never_failed stays_never_failed_trans).
  { intros this. unfold _decodeData.
    destruct (feed (_encoding this) (_incomingData this) data) as [r rest].
    failed_leaf. }
  intros packets.
  apply (respects_for_of stays_never_failed stays_never_failed_refl
           stays_never_failed_trans).
  intros packet. repeat failed_step. apply never_failed_dispatch.
Qed.

Lemma never_failed_connect : respects stays_never_failed connect.
Proof.
  unfold connect, new_closure, client_once_connect, client_once_error,
    client_connect, modify_client.
  apply (respects_bind stays_never_failed stays_never_failed_trans);
    [intros this; failed_leaf | intros k].
  repeat failed_step.
Qed.

Lemma never_failed_onConnect (k : nat) :
  respects stays_never_failed (onConnect k).
Proof.
  unfold onConnect, client_removeListener_error, modify_client.
  repeat failed_step.
  apply (respects_try_catch stays_never_failed stays_never_failed_trans);
    [apply never_failed__write | intros e; failed_step].
Qed.

Lemma never_failed_socket_error (err : Z) :
  respects stays_never_failed (socket_error err).
Proof.
  unfold socket_error, _socketOnError, modify_client. repeat failed_step.
  apply (respects_for_of stays_never_failed stays_never_failed_refl
           stays_never_failed_trans).
  intros [k|k]; cbn [error_listener];
    unfold connect_onError_body, write_onError_body,
      client_removeListener_connect, modify_client;
    repeat failed_step.
Qed.

Lemma never_failed_perform (a : Action) :
  respects stays_never_failed (perform a).
Proof.
  destruct a; cbn [perform].
  - apply never_failed_connect.
  - apply never_failed__write.
  - apply (respects_ret stays_never_failed stays_never_failed_refl).
  - unfold socket_connect, modify_client. repeat failed_step.
    apply (respects_for_of stays_never_failed stays_never_failed_refl
             stays_never_failed_trans).
    apply never_failed_onConnect.
  - apply never_failed__socketOnData.
  - apply never_failed_socket_error.
  - unfold socket_close, _socketOnClose, modify_client.
    repeat failed_step.
  - unfold timeout_fires. repeat failed_step.
Qed.

(** X17: Whatever is called on a new instance and whatever its socket sends,
    a refused password included, the error 'Authentication failed.' is
    never emitted: no event of the trace is that error. *)
Theorem authentication_failure_never_reported (actions : list Action)
    (password : option jsstring) (maximumPacketSize : option Z)
    (encoding : option Encoding) :
  Forall (fun ev => ev <> ev_error Authentication_failed)
    (emitted (reach actions (new_Rcon password maximumPacketSize encoding))).
Proof.
  apply Forall_forall. intros ev Hin Hev. subst ev. revert Hin.
  apply (respects_reach stays_never_failed stays_never_failed_refl
           stays_never_failed_trans _ never_failed_perform).
  intros [].
Qed.

(* ================================================================= *)
(** * A reply that arrives in pieces *)

Section ReplyInPieces.
Variable base : Rcon.
Variable k : nat.
Variable reply : jsstring.
Variable answer : Buffer.
Hypothesis base_fragments : _incomingResponse base = [].
Hypothesis base_queue : _responseCallbackQueue base = [cb_response k].
Hypothesis answer_encoded :
  _encodePacket (_encoding base) PacketResponseType.RESPONSE_VALUE
    PacketId.MID reply = Ret answer.
Hypothesis reply_representable : representable (_encoding base) reply = true.
Hypothesis reply_not_empty : reply <> [].

Lemma chunk_hex (c : Buffer) : c <> [] -> _bufToHexString c = Ret tt.
Proof. destruct c; [contradiction | reflexivity]. Qed.

Lemma end_part_waits (Q u : Buffer) :
  Q ++ u = empty_packet -> u <> [] ->
  feed (_encoding base) [] Q = (Normal [], Q).
Proof.
  intros HQ Hu.
  apply (packet_part_waits_feed (_encoding base) empty_packet 10) with (b := u);
    try assumption; try reflexivity.
  cbn. lia.
Qed.

Lemma end_decoded :
  _decodePacket (_encoding base) empty_packet
  = Ret (decoded_frame PacketResponseType.RESPONSE_VALUE PacketId.END []).
Proof. destruct (_encoding base); reflexivity. Qed.

Lemma answer_framed : framed answer.
Proof. exact (encoded_framed _ _ _ _ _ answer_encoded reply_not_empty). Qed.

Lemma answer_decoded :
  _decodePacket (_encoding base) answer
  = Ret (decoded_frame PacketResponseType.RESPONSE_VALUE PacketId.MID reply).
Proof. exact (decode_encoded _ _ _ _ _ reply_representable answer_encoded). Qed.

(** A chunk that is not empty: the packets found are decoded and
    dispatched in turn. *)
Lemma socket_data_fed (c : Buffer) (this : Rcon) (packets : list Buffer)
    (rest : Buffer) :
  c <> [] ->
  feed (_encoding this) (_incomingData this) c = (Normal packets, rest) ->
  socket_data c this
  = for_of packets
      (fun packet =>
         this <- get ;;
         decodedPacket <- lift (_decodePacket (_encoding this) packet) ;;
         dispatch decodedPacket)
      (set_incomingData rest this).
Proof.
  intros Hc Hf. unfold socket_data, _socketOnData. unfold bind at 1.
  rewrite (chunk_hex c Hc). cbn [lift]. unfold bind at 1.
  unfold _decodeData. rewrite Hf. reflexivity.
Qed.

Lemma fragment_handled (this : Rcon) :
  _encoding this = _encoding base ->
  (this' <- get ;;
   decodedPacket <- lift (_decodePacket (_encoding this') answer) ;;
   dispatch decodedPacket) this
  = (Normal tt,
     set_incomingResponse
       (_incomingResponse this
          ++ [decoded_frame PacketResponseType.RESPONSE_VALUE PacketId.MID
                reply])
       this).
Proof.
  intros He. unfold bind, get. rewrite He, answer_decoded. cbn [lift].
  apply dispatch_fragment. reflexivity.
Qed.

Lemma end_handled (this : Rcon) :
  _encoding this = _encoding base ->
  _responseCallbackQueue this = [cb_response k] ->
  (this' <- get ;;
   decodedPacket <- lift (_decodePacket (_encoding this') empty_packet) ;;
   dispatch decodedPacket) this
  = (Normal tt,
     set_incomingResponse []
       (responded k (join_default (map body (_incomingResponse this)))
          (set_responseCallbackQueue [] this))).
Proof.
  intros He Hq. unfold bind, get. rewrite He, end_decoded. cbn [lift].
  apply (dispatch_end_response this _ k []); [reflexivity | exact Hq].
Qed.

(** More of the Mid-tagged packet, not yet its last byte. *)
Lemma arriving_step (P c u : Buffer) :
  c <> [] -> (P ++ c) ++ u = answer -> u <> [] ->
  run (socket_data c) (reply_arriving P base) = reply_arriving (P ++ c) base.
Proof.
  intros Hc Hu Hne. unfold run.
  destruct answer_framed as (v & Hv & Hl & _).
  rewrite (socket_data_fed c _ [] (P ++ c) Hc).
  - reflexivity.
  - exact (packet_part_waits_feed (_encoding base) answer v Hv Hl
             (framed_length answer answer_framed) (P ++ c) u Hu Hne).
Qed.

Lemma answer_then (Q : Buffer) :
  feed (_encoding base) [] (answer ++ Q)
  = with_packet answer (feed (_encoding base) [] Q).
Proof.
  apply feed_Push.
  - apply decode_turn_framed, answer_framed.
  - pose proof (framed_length answer answer_framed). rewrite length_app. lia.
Qed.

(** The last byte of the Mid-tagged packet, with a part [Q] of the End
    packet behind it. *)
Lemma gathered_step (P c Q u : Buffer) :
  c <> [] -> P ++ c = answer ++ Q -> Q ++ u = empty_packet -> u <> [] ->
  run (socket_data c) (reply_arriving P base)
  = reply_gathered
      (decoded_frame PacketResponseType.RESPONSE_VALUE PacketId.MID reply)
      Q base.
Proof.
  intros Hc HP HQ Hu. unfold run.
  rewrite (socket_data_fed c _ [answer] Q Hc).
  - cbn [for_of]. unfold bind at 1.
    rewrite fragment_handled by reflexivity.
    cbn [ret fst snd]. unfold reply_gathered, reply_arriving.
    cbn. rewrite base_fragments. reflexivity.
  - change (feed (_encoding base) [] (P ++ c) = (Normal [answer], Q)).
    rewrite HP, answer_then, (end_part_waits Q u HQ Hu). reflexivity.
Qed.

(** The last byte of the Mid-tagged packet together with the whole End
    packet. *)
Lemma delivered_at_once (P c : Buffer) :
  c <> [] -> P ++ c = answer ++ empty_packet ->
  run (socket_data c) (reply_arriving P base) = reply_delivered k reply base.
Proof.
  intros Hc HP. unfold run.
  rewrite (socket_data_fed c _ [answer; empty_packet] [] Hc).
  - cbn [for_of]. unfold bind at 1.
    rewrite fragment_handled by reflexivity.
    unfold bind at 1.
    rewrite end_handled by (reflexivity || exact base_queue).
    cbn [ret fst snd]. unfold reply_delivered, reply_arriving, responded.
    cbn. rewrite base_fragments. reflexivity.
  - change (feed (_encoding base) [] (P ++ c)
            = (Normal [answer; empty_packet], [])).
    rewrite HP. apply feed_reply, answer_framed.
Qed.

(** More of the End packet, not yet its last byte. *)
Lemma gathered_waits (d : DecodedRconPacket) (Q c u : Buffer) :
  c <> [] -> (Q ++ c) ++ u = empty_packet -> u <> [] ->
  run (socket_data c) (reply_gathered d Q base)
  = reply_gathered d (Q ++ c) base.
Proof.
  intros Hc HQ Hu. unfold run.
  rewrite (socket_data_fed c _ [] (Q ++ c) Hc).
  - reflexivity.
  - exact (end_part_waits (Q ++ c) u HQ Hu).
Qed.

(** The last byte of the End packet. *)
Lemma delivered_step (Q c : Buffer) :
  c <> [] -> Q ++ c = empty_packet ->
  run (socket_data c)
    (reply_gathered
       (decoded_frame PacketResponseType.RESPONSE_VALUE PacketId.MID reply)
       Q base)
  = reply_delivered k reply base.
Proof.
  intros Hc HQ. unfold run.
  rewrite (socket_data_fed c _ [empty_packet] [] Hc).
  - cbn [for_of]. unfold bind at 1.
    rewrite end_handled by (reflexivity || exact base_queue).
    cbn [ret fst snd]. unfold reply_delivered, reply_gathered, responded.
    reflexivity.
  - change (feed (_encoding base) [] (Q ++ c) = (Normal [empty_packet], [])).
    rewrite HQ. destruct (_encoding base); vm_compute; reflexivity.
Qed.

Lemma nothing_more (chunks : list Buffer) (this : Rcon) :
  concat chunks = [] -> reach (map on_data chunks) this = this.
Proof.
  induction chunks as [|c cs IH]; [reflexivity|]. cbn [concat map reach].
  intros H. apply app_eq_nil in H as [-> H]. apply IH, H.
Qed.

Lemma end_in_pieces (chunks : list Buffer) :
  forall Q u,
    Q ++ u = empty_packet -> u <> [] -> u = concat chunks ->
    reach (map on_data chunks)
      (reply_gathered
         (decoded_frame PacketResponseType.RESPONSE_VALUE PacketId.MID reply)
         Q base)
    = reply_delivered k reply base.
Proof.
  induction chunks as [|c cs IH]; intros Q u HQ Hu Hc.
  - cbn in Hc. contradiction.
  - cbn [concat] in Hc. cbn [map reach perform].
    destruct c as [|x c'].
    + apply (IH Q u); assumption.
    + destruct (concat cs) as [|y r] eqn:Hcs.
      * rewrite app_nil_r in Hc. subst u.
        rewrite delivered_step by (discriminate || assumption).
        apply nothing_more, Hcs.
      * rewrite (gathered_waits _ Q (x :: c') (y :: r));
          [| discriminate | rewrite <- app_assoc, <- Hc; exact HQ
           | discriminate].
        apply (IH (Q ++ x :: c') (y :: r)); try discriminate; try reflexivity.
        rewrite <- app_assoc, <- Hc. exact HQ.
Qed.

Lemma reply_in_pieces (chunks : list Buffer) :
  forall P u,
    P ++ u = answer -> u <> [] -> u ++ empty_packet = concat chunks ->
    reach (map on_data chunks) (reply_arriving P base)
    = reply_delivered k reply base.
Proof.
  induction chunks as [|c cs IH]; intros P u HP Hu Hc.
  - cbn in Hc. apply app_eq_nil in Hc as [_ Hc]. discriminate Hc.
  - cbn [concat] in Hc. cbn [map reach perform].
    destruct c as [|x c'].
    + apply (IH P u); assumption.
    + apply app_eq_app in Hc as [l [[Hl1 Hl2] | [Hl1 Hl2]]].
      * (* the chunk ends inside the Mid-tagged packet, or with it *)
        destruct l as [|y l'].
        -- rewrite app_nil_r in Hl1. cbn [app] in Hl2. subst u.
           rewrite (gathered_step P (x :: c') [] empty_packet);
             [| discriminate | rewrite app_nil_r; exact HP | reflexivity
              | discriminate].
           apply (end_in_pieces cs [] empty_packet);
             [reflexivity | discriminate | symmetry; exact Hl2].
        -- subst u.
           rewrite (arriving_step P (x :: c') (y :: l'));
             [| discriminate | rewrite <- app_assoc; exact HP | discriminate].
           apply (IH (P ++ x :: c') (y :: l'));
             [rewrite <- app_assoc; exact HP | discriminate
             | symmetry; exact Hl2].
      * (* the chunk goes beyond the Mid-tagged packet *)
        assert (HPc : P ++ x :: c' = answer ++ l).
        { rewrite Hl1, app_assoc, HP. reflexivity. }
        destruct (concat cs) as [|y r] eqn:Hcs.
        -- rewrite app_nil_r in Hl2. subst l.
           rewrite (delivered_at_once P (x :: c')) by (discriminate || exact HPc).
           apply nothing_more, Hcs.
        -- rewrite (gathered_step P (x :: c') l (y :: r));
             [| discriminate | exact HPc | symmetry; exact Hl2 | discriminate].
           apply (end_in_pieces cs l (y :: r));
             [symmetry; exact Hl2 | discriminate | symmetry; exact Hcs].
Qed.
End ReplyInPieces.

(** X18: A command and its reply when the bytes of the reply arrive in any
    number of ['data'] events, cut anywhere: when an instance with nothing
    pending accepts a command, and the socket then delivers, in pieces, a
    Mid-tagged packet of type [RESPONSE_VALUE] that carries the reply
    followed by an empty End packet, then after the last piece exactly one
    event has been emitted, [response] with the reply; the queue, the
    buffer and the fragments are empty and the error listeners are those
    from before the command.  An empty piece makes its listener throw and
    changes nothing. *)
Theorem reply_in_chunks (this : Rcon) (command reply : jsstring)
    (pkt answer : Buffer) (chunks : list Buffer) :
  _incomingData this = [] -> _incomingResponse this = [] ->
  _responseCallbackQueue this = [] ->
  _encodePacket (_encoding this) PacketType.COMMAND PacketId.MID command
  = Ret pkt ->
  refusal (byteLength pkt) this = None ->
  _encodePacket (_encoding this) PacketResponseType.RESPONSE_VALUE
    PacketId.MID reply = Ret answer ->
  representable (_encoding this) reply = true -> reply <> [] ->
  concat chunks = answer ++ empty_packet ->
  let this' := reach (call_execute command :: map on_data chunks) this in
  emitted this' = emitted this ++ [ev_response reply]
  /\ written (_client this')
     = written (_client this) ++ [pkt; empty_command_packet]
  /\ _responseCallbackQueue this' = []
  /\ _incomingData this' = []
  /\ _incomingResponse this' = []
  /\ once_error (_client this') = once_error (_client this)
  /\ (forall that, ending (socket_data []) that = Thrown TypeError
                   /\ run (socket_data []) that = that).
Proof.
  intros Hd Hr Hq Hp Href Ha Hrep Hne Hc this'.
  assert (Hreach : this'
                   = reply_delivered (closures this) reply
                       (command_written pkt this)).
  { subst this'. cbn [reach perform]. unfold run, execute.
    rewrite (_write_accepted_or_refused this PacketType.COMMAND command pkt);
      [| left; reflexivity | exact Hp].
    rewrite Href. change (PacketType.COMMAND =? PacketType.AUTH) with false.
    cbv iota. cbn [snd].
    assert (Hbase : command_written pkt this
                    = reply_arriving [] (command_written pkt this)).
    { clear - Hd. destruct this as [? ? ? ? ? ? ? ? ? [? ? ? ? ?] ? ? ?].
      cbn in Hd. subst. reflexivity. }
    replace (reach (map on_data chunks) (command_written pkt this))
      with (reach (map on_data chunks)
              (reply_arriving [] (command_written pkt this)))
      by (rewrite <- Hbase; reflexivity).
    apply reply_in_pieces with (answer := answer) (u := answer).
    - clear - Hr. destruct this. cbn in *. exact Hr.
    - clear - Hq. destruct this. cbn in *. rewrite Hq. reflexivity.
    - exact Ha.
    - exact Hrep.
    - exact Hne.
    - reflexivity.
    - pose proof (framed_length answer (encoded_framed _ _ _ _ _ Ha Hne)).
      destruct answer; [cbn in *; lia | discriminate].
    - symmetry. exact Hc. }
  rewrite Hreach. clear - Hd Hr Hq.
  destruct this as [? ? ? ? ? ? ? ? ? [? ? ? ? ?] ? ? ?].
  cbn in Hd, Hr, Hq. subst. cbn. rewrite remove_last_added.
  repeat split.
Qed.

Lemma reply_in_chunks_witness :
  emitted (reach (call_execute (js "ShowNextMap")
                    :: map on_data
                         (map (fun b => [b])
                            (NextMap_reply_packet ++ empty_packet)))
             authed_instance)
  = [ev_connect; ev_authed; ev_response NextMap_reply].
Proof.
  assert (Hp : _encodePacket (_encoding authed_instance) PacketType.COMMAND
                 PacketId.MID (js "ShowNextMap") = Ret ShowNextMap_packet)
    by (vm_compute; reflexivity).
  assert (Href : refusal (byteLength ShowNextMap_packet) authed_instance = None)
    by (vm_compute; reflexivity).
  assert (Ha : _encodePacket (_encoding authed_instance)
                 PacketResponseType.RESPONSE_VALUE PacketId.MID NextMap_reply
               = Ret NextMap_reply_packet)
    by (vm_compute; reflexivity).
  assert (Hrep : representable (_encoding authed_instance) NextMap_reply = true)
    by (vm_compute; reflexivity).
  assert (Hne : NextMap_reply <> []) by (vm_compute; discriminate).
  assert (Hc : concat (map (fun b => [b]) (NextMap_reply_packet ++ empty_packet))
               = NextMap_reply_packet ++ empty_packet)
    by (vm_compute; reflexivity).
  exact (proj1 (reply_in_chunks authed_instance (js "ShowNextMap")
                  NextMap_reply ShowNextMap_packet NextMap_reply_packet
                  (map (fun b => [b]) (NextMap_reply_packet ++ empty_packet))
                  eq_refl eq_refl eq_refl Hp Href Ha Hrep Hne Hc)).
Defined.

(* ================================================================= *)
(** * A refused password *)

Lemma refusal_fed (enc : Encoding) :
  feed enc [] auth_failed_packet = (Normal [auth_failed_packet], []).
Proof. destruct enc; vm_compute; reflexivity. Qed.

Lemma refusal_decoded (enc : Encoding) :
  _decodePacket enc auth_failed_packet
  = Ret (decoded_frame PacketResponseType.RESPONSE_AUTH (-1) []).
Proof. destruct enc; reflexivity. Qed.

Lemma empty_packet_fed (enc : Encoding) :
  feed enc [] empty_packet = (Normal [empty_packet], []).
Proof. destruct enc; vm_compute; reflexivity. Qed.

Lemma empty_packet_decoded (enc : Encoding) :
  _decodePacket enc empty_packet
  = Ret (decoded_frame PacketResponseType.RESPONSE_VALUE PacketId.END []).
Proof. destruct enc; reflexivity. Qed.

(** The packet of id -1 goes through the reassembler and is dropped by
    the [switch] on the id. *)
Lemma refusal_dropped (this : Rcon) :
  _incomingData this = [] ->
  socket_data auth_failed_packet this = (Normal tt, this).
Proof.
  intros Hd.
  rewrite (socket_data_fed auth_failed_packet this [auth_failed_packet] []);
    [| discriminate | rewrite Hd; apply refusal_fed].
  cbn [for_of]. unfold bind, get.
  change (_encoding (set_incomingData [] this)) with (_encoding this).
  rewrite refusal_decoded. cbn [lift].
  unfold dispatch. cbn. clear - Hd.
  destruct this as [? ? ? ? ? ? ? ? ? [? ? ? ? ?] ? ? ?].
  cbn in Hd. subst. reflexivity.
Qed.

(** C1, on the code: a refused password is not reported.  With the
    callback of the AUTH packet at the head of the queue, the packet of id
    -1 that the server sends for a wrong password goes through ['data']
    and is dropped: the dispatcher handles the ids [MID] and [END] only.
    The listener returns and nothing at all has changed: no error is
    emitted, the callback is still pending.  That callback reports no
    failure either: it is called with a string, which has no [id], so that
    whatever it is called with it emits [authed] and turns auto-reconnect
    on; the next End-tagged packet calls it.  And a command can be sent
    after the refusal as before: if the instance is connected, the socket
    writable and the packet within the limit, [execute] writes it and
    queues its callback. *)
Theorem auth_response_handling (this : Rcon) (k : nat) (q : list Callback) :
  _incomingData this = [] ->
  _responseCallbackQueue this = cb_auth k :: q ->
  socket_data auth_failed_packet this = (Normal tt, this)
  /\ (forall arg,
        emitted (run (call (cb_auth k) arg) this)
        = emitted this ++ [ev_authed]
        /\ _autoReconnect (run (call (cb_auth k) arg) this) = true)
  /\ (let this' :=
        run (socket_data auth_failed_packet ;; socket_data empty_packet)
          this in
      emitted this' = emitted this ++ [ev_authed]
      /\ _autoReconnect this' = true
      /\ _responseCallbackQueue this' = q)
  /\ (forall command pkt,
        _connected this = true -> writable (_client this) = true ->
        _encodePacket (_encoding this) PacketType.COMMAND PacketId.MID command
        = Ret pkt ->
        byteLength pkt <= _maximumPacketSize this ->
        (socket_data auth_failed_packet ;; execute command) this
        = (Normal tt, command_written pkt this)).
Proof.
  intros Hd Hq.
  pose proof (refusal_dropped this Hd) as H1.
  split; [exact H1 | split; [|split]].
  - intros arg. split; reflexivity.
  - cbv zeta. unfold run, bind. rewrite H1.
    rewrite (socket_data_fed empty_packet this [empty_packet] []);
      [| discriminate | rewrite Hd; apply empty_packet_fed].
    cbn [for_of]. unfold bind, get.
    change (_encoding (set_incomingData [] this)) with (_encoding this).
    rewrite empty_packet_decoded. cbn [lift].
    rewrite (dispatch_end_auth _ _ k q) by (reflexivity || exact Hq).
    repeat split.
  - intros command pkt Hc Hw He Hmax. unfold bind. rewrite H1.
    apply execute_accepted; assumption.
Qed.

Lemma auth_response_handling_witness :
  socket_data auth_failed_packet awaiting_auth_instance
  = (Normal tt, awaiting_auth_instance)
  /\ emitted awaiting_auth_instance = [ev_connect]
  /\ (let this' :=
        run (socket_data auth_failed_packet ;; socket_data empty_packet)
          awaiting_auth_instance in
      emitted this' = [ev_connect; ev_authed]
      /\ _autoReconnect this' = true
      /\ _responseCallbackQueue this' = [])
  /\ (socket_data auth_failed_packet ;; execute (js "ShowNextMap"))
       awaiting_auth_instance
     = (Normal tt, command_written ShowNextMap_packet awaiting_auth_instance).
Proof.
  pose proof (auth_response_handling awaiting_auth_instance 1%nat []
                eq_refl eq_refl) as (H1 & _ & H3 & H4).
  split; [exact H1 | split; [reflexivity | split; [exact H3|]]].
  apply (H4 (js "ShowNextMap") ShowNextMap_packet);
    [reflexivity | reflexivity | vm_compute; reflexivity
    | vm_compute; discriminate].
Defined.

(* ================================================================= *)
(** * Two commands and their replies *)

Lemma remove_last_before (x y : ErrorListener) (l : list ErrorListener) :
  y <> x ->
  remove_last ErrorListener_eqb x (l ++ [x; y]) = l ++ [y].
Proof.
  intros Hy.
  assert (Hx : ErrorListener_eqb x x = true)
    by (apply ErrorListener_eqb_eq; reflexivity).
  assert (Hxy : ErrorListener_eqb x y = false).
  { destruct (ErrorListener_eqb x y) eqn:E; [|reflexivity].
    apply ErrorListener_eqb_eq in E. subst y. contradiction. }
  induction l as [|z l IH]; cbn [app remove_last].
  - cbn [existsb]. rewrite Hx, Hxy. reflexivity.
  - replace (existsb (ErrorListener_eqb x) (l ++ [x; y])) with true.
    + rewrite andb_false_r, IH. reflexivity.
    + symmetry. apply existsb_eqb_In, in_or_app. right. left. reflexivity.
Qed.

Lemma fed_not_empty (enc : Encoding) (c : Buffer) (packets : list Buffer)
    (rest : Buffer) :
  feed enc [] c = (Normal packets, rest) -> packets <> [] -> c <> [].
Proof.
  intros H Hp Hc. subst c. apply Hp.
  change (feed enc [] []) with (@Normal (list Buffer) [], @nil byte) in H.
  injection H as H _. symmetry. exact H.
Qed.

(** The packets that [_decodeData] returns are decoded and dispatched one
    after the other. *)
Lemma packets_dispatched (packets : list Buffer) :
  forall (frames : list DecodedRconPacket) (this : Rcon),
    Forall2 (fun packet d => _decodePacket (_encoding this) packet = Ret d)
      packets frames ->
    for_of packets
      (fun packet =>
         this <- get ;;
         decodedPacket <- lift (_decodePacket (_encoding this) packet) ;;
         dispatch decodedPacket)
      this
    = for_of frames dispatch this.
Proof.
  induction packets as [|p packets IH]; intros frames this H;
    inversion H as [|p' d ps ds Hp Hps]; subst; [reflexivity|].
  cbn [for_of]. unfold bind at 1. unfold bind at 5.
  assert (Hh : (this0 <- get ;;
                decodedPacket <- lift (_decodePacket (_encoding this0) p) ;;
                dispatch decodedPacket) this
               = dispatch d this).
  { unfold bind, get. rewrite Hp. reflexivity. }
  rewrite Hh.
  pose proof (advances_dispatch d this) as (_ & He & _).
  destruct (dispatch d this) as [[[]| |] this']; try reflexivity.
  cbn [snd] in He. apply IH. rewrite He. exact Hps.
Qed.

Lemma chat_frames_decoded (enc : Encoding) (packets : list Buffer)
    (frames : list DecodedRconPacket) :
  chat_frames enc packets frames ->
  Forall2 (fun packet d => _decodePacket enc packet = Ret d) packets frames
  /\ forallb is_chat frames = true.
Proof.
  intros H. induction H as [|p d ps ds [Hp Hc] _ [IH1 IH2]].
  - split; [constructor | reflexivity].
  - split; [constructor; assumption|]. cbn [forallb]. rewrite Hc. exact IH2.
Qed.

Lemma is_fragment_not_chat (d : DecodedRconPacket) :
  is_fragment d = true -> is_chat d = false.
Proof.
  unfold is_fragment, is_response, is_chat. intros H.
  apply andb_prop in H as [H _]. apply orb_prop in H as [H | H];
    apply Z.eqb_eq in H; rewrite H; reflexivity.
Qed.

Lemma chats_app (F G : list DecodedRconPacket) :
  chats (F ++ G) = chats F ++ chats G.
Proof. unfold chats. rewrite filter_app, map_app. reflexivity. Qed.

(** One reply: chat packets, a fragment, chat packets, the End packet. *)
Lemma reply_dispatched (this : Rcon) (k : nat) (q : list Callback)
    (Da Db : list DecodedRconPacket) (d e : DecodedRconPacket) :
  _responseCallbackQueue this = cb_response k :: q ->
  _incomingResponse this = [] ->
  forallb is_chat Da = true -> forallb is_chat Db = true ->
  is_fragment d = true -> is_end e = true ->
  for_of (Da ++ d :: Db ++ [e]) dispatch this
  = (Normal tt,
     set_incomingResponse []
       (responded k (body d)
          (set_responseCallbackQueue q
             (set_emitted (emitted this ++ chats Da ++ chats Db) this)))).
Proof.
  intros Hq Hr Ha Hb Hd He.
  destruct (only_chat Da Ha) as [Ha1 Ha2].
  destruct (only_chat Db Hb) as [Hb1 Hb2].
  replace (Da ++ d :: Db ++ [e]) with ((Da ++ d :: Db) ++ [e])
    by (rewrite <- app_assoc; reflexivity).
  rewrite for_of_app. unfold bind at 1.
  rewrite dispatch_fragments_and_chat.
  2: { rewrite forallb_app. cbn [forallb]. rewrite Ha1, Hb1, Hd. reflexivity. }
  cbn [for_of]. unfold bind at 1.
  rewrite (dispatch_end_response _ e k q) by (exact He || exact Hq).
  cbn [ret].
  assert (Hf : filter is_fragment (Da ++ d :: Db) = [d]).
  { rewrite filter_app. cbn [filter]. rewrite Ha2, Hb2, Hd. reflexivity. }
  assert (Hc : chats (Da ++ d :: Db) = chats Da ++ chats Db).
  { rewrite chats_app. unfold chats at 2. cbn [filter].
    rewrite (is_fragment_not_chat d Hd). reflexivity. }
  cbn [_incomingResponse set_emitted set_incomingResponse].
  rewrite Hf, Hc, Hr. reflexivity.
Qed.

(** Packets that declare their own length, not 10, and then the End
    packet at the end of the buffer: all are returned. *)
Lemma feed_then_end (enc : Encoding) (packets : list Buffer) :
  Forall framed packets ->
  feed enc [] (concat (packets ++ [empty_packet]))
  = (Normal (packets ++ [empty_packet]), []).
Proof.
  intros H. induction H as [|p ps Hp Hps IH]; cbn [app concat].
  - rewrite app_nil_r. apply empty_packet_fed.
  - rewrite (feed_Push enc _ p (concat (ps ++ [empty_packet]))).
    + rewrite IH. reflexivity.
    + apply decode_turn_framed, Hp.
    + pose proof (framed_length p Hp). rewrite length_app. lia.
Qed.

(** C5 (as amended): on an instance that is connected, with nothing
    pending, [execute(A)] and [execute(B)] queue the callbacks of A and of
    B in this order.  Let the server then send the reply to A in one
    Mid-tagged packet, its End packet, the reply to B in one Mid-tagged
    packet and its End packet, with chat packets anywhere in between,
    before and behind; and let the reassembler return the packets as they
    were sent.  Then, by the time the End packet of A has gone through
    ['data'], the callback of A -- and not the one of B, which is alone in
    the queue with its error listener -- has been called with the reply
    to A, emitted as [response]; the End packet of B calls the callback
    of B with the reply to B, and the queue is empty.  The chat bodies are
    emitted in their order of arrival, and a chat packet changes nothing
    of the instance but the trace: it does not touch the queue nor the
    fragments.  The reassembler does return the packets as they were sent
    whenever the End packet is the last one of its buffer and the packets
    before it declare their own length and not 10, as every packet with a
    body does. *)
Theorem fifo_correlation (this : Rcon) (A B rA rB : jsstring)
    (pA pB a b : Buffer) (C1 C2 C3 C4 C5 : list Buffer)
    (D1 D2 D3 D4 D5 : list DecodedRconPacket) :
  _connected this = true -> writable (_client this) = true ->
  _responseCallbackQueue this = [] -> _incomingResponse this = [] ->
  _incomingData this = [] ->
  _encodePacket (_encoding this) PacketType.COMMAND PacketId.MID A = Ret pA ->
  byteLength pA <= _maximumPacketSize this ->
  _encodePacket (_encoding this) PacketType.COMMAND PacketId.MID B = Ret pB ->
  byteLength pB <= _maximumPacketSize this ->
  _encodePacket (_encoding this) PacketResponseType.RESPONSE_VALUE
    PacketId.MID rA = Ret a ->
  representable (_encoding this) rA = true ->
  _encodePacket (_encoding this) PacketResponseType.RESPONSE_VALUE
    PacketId.MID rB = Ret b ->
  representable (_encoding this) rB = true ->
  chat_frames (_encoding this) C1 D1 -> chat_frames (_encoding this) C2 D2 ->
  chat_frames (_encoding this) C3 D3 -> chat_frames (_encoding this) C4 D4 ->
  chat_frames (_encoding this) C5 D5 ->
  let first := C1 ++ a :: C2 ++ [empty_packet] in
  let second := (C3 ++ b :: C4 ++ [empty_packet]) ++ C5 in
  feed (_encoding this) [] (concat first) = (Normal first, []) ->
  feed (_encoding this) [] (concat second) = (Normal second, []) ->
  let kA := closures this in
  let kB := S (closures this) in
  let s0 := run (execute A ;; execute B) this in
  let s1 := run (socket_data (concat first)) s0 in
  let s2 := run (socket_data (concat second)) s1 in
  _responseCallbackQueue s0 = [cb_response kA; cb_response kB]
  /\ (emitted s1 = emitted this ++ chats D1 ++ chats D2 ++ [ev_response rA]
      /\ _responseCallbackQueue s1 = [cb_response kB]
      /\ once_error (_client s1)
         = once_error (_client this) ++ [write_onError kB]
      /\ _incomingResponse s1 = [])
  /\ (emitted s2
      = emitted s1 ++ chats D3 ++ chats D4 ++ [ev_response rB] ++ chats D5
      /\ _responseCallbackQueue s2 = []
      /\ once_error (_client s2) = once_error (_client this)
      /\ _incomingResponse s2 = []
      /\ _incomingData s2 = [])
  /\ (forall that d, is_chat d = true ->
        dispatch d that
        = (Normal tt, set_emitted (emitted that ++ [ev_chat (body d)]) that))
  /\ (forall packets,
        Forall framed packets ->
        feed (_encoding this) [] (concat (packets ++ [empty_packet]))
        = (Normal (packets ++ [empty_packet]), [])).
Proof.
  intros Hc Hw Hq Hr Hd HpA HmA HpB HmB Ha HrA Hb HrB H1 H2 H3 H4 H5
         first second Hf1 Hf2 kA kB s0 s1 s2.
  apply chat_frames_decoded in H1 as [P1 K1], H2 as [P2 K2], H3 as [P3 K3],
      H4 as [P4 K4], H5 as [P5 K5].
  pose proof (decode_encoded _ _ _ _ _ HrA Ha) as Hda.
  pose proof (decode_encoded _ _ _ _ _ HrB Hb) as Hdb.
  pose proof (empty_packet_decoded (_encoding this)) as Hde.
  set (dA := decoded_frame PacketResponseType.RESPONSE_VALUE PacketId.MID rA)
    in *.
  set (dB := decoded_frame PacketResponseType.RESPONSE_VALUE PacketId.MID rB)
    in *.
  set (eE := decoded_frame PacketResponseType.RESPONSE_VALUE PacketId.END [])
    in *.
  assert (E0 : s0 = command_written pB (command_written pA this)).
  { subst s0. unfold run, bind.
    rewrite (execute_accepted this A pA Hc Hw HpA HmA).
    rewrite (execute_accepted (command_written pA this) B pB);
      [reflexivity | exact Hc | exact Hw | exact HpB | exact HmB]. }
  assert (E1 : s1
               = set_incomingResponse []
                   (responded kA rA
                      (set_responseCallbackQueue [cb_response kB]
                         (set_emitted
                            (emitted this ++ chats D1 ++ chats D2)
                            (set_incomingData [] s0))))).
  { subst s1. unfold run.
    rewrite (socket_data_fed (concat first) s0 first []).
    - rewrite (packets_dispatched first (D1 ++ dA :: D2 ++ [eE])).
      + rewrite (reply_dispatched _ kA [cb_response kB] D1 D2 dA eE);
          try assumption; try reflexivity.
        * rewrite E0. reflexivity.
        * rewrite E0. cbn. rewrite Hq. reflexivity.
        * rewrite E0. cbn. exact Hr.
      + change (_encoding (set_incomingData [] s0)) with (_encoding s0).
        rewrite E0.
        change (_encoding (command_written pB (command_written pA this)))
          with (_encoding this).
        subst first. apply Forall2_app; [exact P1|].
        constructor; [exact Hda|].
        apply Forall2_app; [exact P2|]. constructor; [exact Hde | constructor].
    - apply (fed_not_empty (_encoding this) _ first []); [exact Hf1|].
      subst first. destruct C1; discriminate.
    - rewrite E0.
      change (_encoding (command_written pB (command_written pA this)))
        with (_encoding this).
      change (_incomingData (command_written pB (command_written pA this)))
        with (_incomingData this).
      rewrite Hd. exact Hf1. }
  assert (E2 : s2
               = set_emitted
                   (emitted s1 ++ (chats D3 ++ chats D4)
                      ++ [ev_response rB] ++ chats D5)
                   (set_incomingResponse []
                      (set_client
                         (set_once_error
                            (remove_last ErrorListener_eqb (write_onError kB)
                               (once_error (_client s1)))
                            (_client s1))
                         (set_responseCallbackQueue []
                            (set_incomingData [] s1))))).
  { subst s2. unfold run.
    rewrite (socket_data_fed (concat second) s1 second []).
    - rewrite (packets_dispatched second ((D3 ++ dB :: D4 ++ [eE]) ++ D5)).
      + rewrite for_of_app. unfold bind at 1.
        rewrite (reply_dispatched _ kB [] D3 D4 dB eE);
          try assumption; try reflexivity.
        * destruct (only_chat D5 K5) as [K5' K5f].
          rewrite (dispatch_fragments_and_chat D5 K5'), K5f.
          cbn [snd]. unfold responded. cbn.
          rewrite <- !app_assoc. reflexivity.
        * rewrite E1. reflexivity.
        * rewrite E1. reflexivity.
      + change (_encoding (set_incomingData [] s1)) with (_encoding s1).
        rewrite E1, E0.
        match goal with
        | |- Forall2 (fun packet d => _decodePacket (_encoding ?t) packet = _)
               _ _ =>
            change (_encoding t) with (_encoding this)
        end.
        subst second. apply Forall2_app; [|exact P5].
        apply Forall2_app; [exact P3|]. constructor; [exact Hdb|].
        apply Forall2_app; [exact P4|]. constructor; [exact Hde | constructor].
    - apply (fed_not_empty (_encoding this) _ second []); [exact Hf2|].
      subst second. destruct C3; discriminate.
    - rewrite E1, E0.
      match goal with
      | |- feed (_encoding ?t) (_incomingData ?t) _ = _ =>
          change (feed (_encoding this) [] (concat second)
                  = (Normal second, []))
      end.
      exact Hf2. }
  split; [rewrite E0; clear - Hq; destruct this; cbn in *; subst; reflexivity|].
  split; [|split; [|split; [|apply feed_then_end]]].
  - rewrite E1, E0. clear - Hq Hr.
    destruct this as [? ? ? ? ? ? ? ? ? [? ? ? ? ?] ? ? ?].
    cbn in Hq, Hr. subst. subst kA kB. cbn.
    rewrite <- !app_assoc. cbn [app].
    rewrite remove_last_before by (intros [= H]; lia).
    repeat split.
  - rewrite E2. cbn [emitted _responseCallbackQueue _client once_error
                     _incomingResponse _incomingData set_emitted
                     set_incomingResponse set_client set_once_error
                     set_responseCallbackQueue set_incomingData].
    split; [rewrite <- !app_assoc; reflexivity|].
    split; [reflexivity|]. split; [|split; reflexivity].
    rewrite E1, E0. clear - Hq.
    destruct this as [? ? ? ? ? ? ? ? ? [? ? ? ? ?] ? ? ?].
    cbn in Hq. subst. subst kA kB. cbn.
    rewrite <- !app_assoc. cbn [app].
    rewrite remove_last_before by (intros [= H]; lia).
    apply remove_last_added.
  - intros that d. apply dispatch_chat.
Qed.

Lemma fifo_correlation_witness :
  let s0 :=
    run (execute (js "ShowNextMap") ;; execute (js "ListPlayers"))
      authed_instance in
  let s1 :=
    run (socket_data
           (concat [hello_chat_packet; NextMap_reply_packet; empty_packet]))
      s0 in
  let s2 :=
    run (socket_data
           (concat [gg_chat_packet; Players_reply_packet; empty_packet;
                    hello_chat_packet]))
      s1 in
  _responseCallbackQueue s0 = [cb_response 2; cb_response 3]
  /\ emitted s1
     = [ev_connect; ev_authed; ev_chat (js "hello"); ev_response NextMap_reply]
  /\ _responseCallbackQueue s1 = [cb_response 3]
  /\ emitted s2
     = emitted s1 ++ [ev_chat (js "gg"); ev_response Players_reply;
                      ev_chat (js "hello")]
  /\ _responseCallbackQueue s2 = [].
Proof.
  assert (Hh : chat_frames enc_utf8 [hello_chat_packet]
                 [decoded_frame PacketResponseType.CHAT_VALUE 0 (js "hello")])
    by (repeat constructor).
  assert (Hg : chat_frames enc_utf8 [gg_chat_packet]
                 [decoded_frame PacketResponseType.CHAT_VALUE 7 (js "gg")])
    by (repeat constructor).
  assert (Hn : chat_frames enc_utf8 [] []) by constructor.
  assert (HpA : _encodePacket (_encoding authed_instance) PacketType.COMMAND
                  PacketId.MID (js "ShowNextMap") = Ret ShowNextMap_packet)
    by (vm_compute; reflexivity).
  assert (HpB : _encodePacket (_encoding authed_instance) PacketType.COMMAND
                  PacketId.MID (js "ListPlayers") = Ret ListPlayers_packet)
    by (vm_compute; reflexivity).
  assert (HmA : byteLength ShowNextMap_packet
                <= _maximumPacketSize authed_instance)
    by (vm_compute; discriminate).
  assert (HmB : byteLength ListPlayers_packet
                <= _maximumPacketSize authed_instance)
    by (vm_compute; discriminate).
  assert (Ha : _encodePacket (_encoding authed_instance)
                 PacketResponseType.RESPONSE_VALUE PacketId.MID NextMap_reply
               = Ret NextMap_reply_packet)
    by (vm_compute; reflexivity).
  assert (Hb : _encodePacket (_encoding authed_instance)
                 PacketResponseType.RESPONSE_VALUE PacketId.MID Players_reply
               = Ret Players_reply_packet)
    by (vm_compute; reflexivity).
  assert (HrA : representable (_encoding authed_instance) NextMap_reply = true)
    by (vm_compute; reflexivity).
  assert (HrB : representable (_encoding authed_instance) Players_reply = true)
    by (vm_compute; reflexivity).
  assert (Hf1 : feed (_encoding authed_instance) []
                  (concat ([hello_chat_packet]
                             ++ NextMap_reply_packet :: [] ++ [empty_packet]))
                = (Normal ([hello_chat_packet]
                             ++ NextMap_reply_packet :: [] ++ [empty_packet]),
                   []))
    by (vm_compute; reflexivity).
  assert (Hf2 : feed (_encoding authed_instance) []
                  (concat (([gg_chat_packet]
                              ++ Players_reply_packet :: [] ++ [empty_packet])
                             ++ [hello_chat_packet]))
                = (Normal (([gg_chat_packet]
                              ++ Players_reply_packet :: [] ++ [empty_packet])
                             ++ [hello_chat_packet]),
                   []))
    by (vm_compute; reflexivity).
  pose proof (fifo_correlation authed_instance (js "ShowNextMap")
                (js "ListPlayers") NextMap_reply Players_reply
                ShowNextMap_packet ListPlayers_packet
                NextMap_reply_packet Players_reply_packet
                [hello_chat_packet] [] [gg_chat_packet] [] [hello_chat_packet]
                _ _ _ _ _
                eq_refl eq_refl eq_refl eq_refl eq_refl HpA HmA HpB HmB
                Ha HrA Hb HrB Hh Hn Hg Hn Hh Hf1 Hf2)
    as (H0 & (H1 & H1q & _) & (H2 & H2q & _) & _).
  split; [exact H0 | split; [exact H1 | split; [exact H1q|]]].
  split; [exact H2 | exact H2q].
Defined.

(** C5 as stated fails: a chat packet that declares 256 bytes and has id 0
    arrives behind the End packet of the first reply.  The probe of the
    reassembler takes the End packet and the first seven bytes of the chat
    packet for the broken packet and drops them; what follows is cut at
    the wrong places and ['data'] throws.  No callback is called, neither
    reply is delivered and the chat body is not emitted. *)
Lemma fifo_correlation_counterexample :
  let s0 :=
    run (execute (js "ShowNextMap") ;; execute (js "ListPlayers"))
      authed_instance in
  let stream :=
    NextMap_reply_packet ++ empty_packet ++ long_chat_packet
      ++ Players_reply_packet ++ empty_packet in
  _decodePacket enc_utf8 long_chat_packet
  = Ret (decoded_frame PacketResponseType.CHAT_VALUE 0 (repeat 0x61 246))
  /\ ending (socket_data stream) s0 = Thrown RangeError
  /\ emitted (run (socket_data stream) s0) = [ev_connect; ev_authed]
  /\ _responseCallbackQueue (run (socket_data stream) s0)
     = [cb_response 2; cb_response 3].
Proof. vm_compute. repeat split. Qed.
